(** * Weighted BACON regression (cbacon): a shallow embedding of
      [wbacon_reg.c] and [fitwls.c]

    Modelling conventions.
    - A C [double] is a real number ([R]); [sqrt], [fabs] and [hypot] are
      the real square root, absolute value and Euclidean norm.  Rounding,
      infinities and NaN are outside this model.
    - A C array is a list; [get] reads a cell, [upd] writes one, [Memcpy]
      copies a prefix.  Matrices are stored column-major, as in the source.
    - C [int] scalars that are only dimensions or loop counters ([n], [p],
      loop indices) are [nat]; [int] values that are data ([subset] cells,
      [m], [iter], [maxiter], [collect], index arrays) are [Z].
    - [for] loops are iterations of their body over the loop counter
      ([for_loop]); loops that can [return] carry the returned value on the
      right of a sum ([for_ret]).
    - LAPACK, BLAS, Rmath and the routines of headers that are not part of
      the sources are parameters of the sections that use them. *)

From Stdlib Require Import Reals Lra Lia List ZArith Bool Permutation.
Import ListNotations.
Open Scope R_scope.



(** ** Arrays *)

Definition get (a : list R) (i : nat) : R := nth i a 0.
Definition geti (a : list Z) (i : nat) : Z := nth i a 0%Z.

Fixpoint upd {A : Type} (i : nat) (v : A) (a : list A) : list A :=
  match a, i with
  | [], _ => []
  | _ :: t, O => v :: t
  | h :: t, S k => h :: upd k v t
  end.

(** [Memcpy(dst, src, k)]: the first [k] cells of [dst] become those of
    [src]. *)
Definition Memcpy {A : Type} (dst src : list A) (k : nat) : list A :=
  firstn k src ++ skipn k dst.

(** ** Loops *)

(** [for (i = lo; i < lo + cnt; i++) s = body i s;] *)
Fixpoint for_loop {St : Type} (lo cnt : nat) (body : nat -> St -> St) (s : St)
  : St :=
  match cnt with
  | O => s
  | S k => for_loop (S lo) k body (body lo s)
  end.

(** The same loop when the body may [return]: [inl] carries on, [inr]
    leaves the loop (and the function) at once. *)
Fixpoint for_ret {St T : Type} (lo cnt : nat) (body : nat -> St -> St + T)
    (s : St) : St + T :=
  match cnt with
  | O => inl s
  | S k =>
      match body lo s with
      | inl s' => for_ret (S lo) k body s'
      | inr t => inr t
      end
  end.

(** ** Error codes ([wbacon_error_type]) *)

Inductive wbacon_error_type : Type :=
| WBACON_ERROR_OK
| WBACON_ERROR_RANK_DEFICIENT
| WBACON_ERROR_CONVERGENCE_FAILURE
| WBACON_ERROR_TRIANG_MAT_SINGULAR.

Definition is_ok (e : wbacon_error_type) : bool :=
  match e with WBACON_ERROR_OK => true | _ => false end.

(** ** Scalar helpers of the source *)

(** [#define _POWER2(_x) ((_x) * (_x))] *)
Definition POWER2 (v : R) : R := v * v.

(** [hypot] of the C library. *)
Definition hypot (a b : R) : R := sqrt (a * a + b * b).

(** [fabs] of the C library. *)
Definition fabs (v : R) : R := Rabs v.

(** [DBL_EPSILON] of [float.h] for IEEE binary64: 2^-52. *)
Definition DBL_EPSILON : R := / 2 ^ 52.

(** Comparisons as the tests of the source. *)
Definition Rltb (a b : R) : bool := if Rlt_dec a b then true else false.
Definition Rleb (a b : R) : bool := if Rle_dec a b then true else false.

(** ** Rank-one update of the Cholesky factor: [chol_update] *)

(** The off-diagonal loop body of column [i], the same in update and
    downdate but for the compound assignment: [op] is [Rplus] for the
    update ([+=]) and [Rminus] for the downdate ([-=]). *)
Definition offdiag_body (op : R -> R -> R) (p i : nat) (b c : R) (j : nat)
    (s : list R * list R) : list R * list R :=
  let '(L, u) := s in
  let L := upd (p * i + j) (op (get L (p * i + j)) (c * get u j)) L in
  let L := upd (p * i + j) (get L (p * i + j) / b) L in
  let u := upd j (b * get u j - c * get L (p * i + j)) u in
  (L, u).

Definition update_col (p i : nat) (s : list R * list R) : list R * list R :=
  let '(L, u) := s in
  let tmp := get L (i * (p + 1)) in
  let a := hypot tmp (get u i) in
  let b := a / tmp in
  let c := get u i / tmp in
  let L := upd (i * (p + 1)) a L in
  for_loop (i + 1) (p - (i + 1)) (offdiag_body Rplus p i b c) (L, u).

Definition chol_update (L u : list R) (p : nat) : list R * list R :=
  let '(L, u) := for_loop 0 (p - 1) (update_col p) (L, u) in
  (upd (p * p - 1)
       (sqrt (POWER2 (get L (p * p - 1)) + POWER2 (get u (p - 1)))) L,
   u).

(** ** Rank-one downdate: [chol_downdate] *)

(** The quantity tested at column [i]: squared diagonal entry minus squared
    entry of the update vector. *)
Definition pivot (p i : nat) (s : list R * list R) : R :=
  POWER2 (get (fst s) (i * (p + 1))) - POWER2 (get (snd s) i).

Definition downdate_col (p i : nat) (s : list R * list R)
  : (list R * list R) + (list R * list R) :=
  let '(L, u) := s in
  let tmp := get L (i * (p + 1)) in
  let a := POWER2 tmp - POWER2 (get u i) in
  if Rltb a 0 then inr (L, u)
  else
    let a := sqrt a in
    let b := a / tmp in
    let c := get u i / tmp in
    let L := upd (i * (p + 1)) a L in
    inl (for_loop (i + 1) (p - (i + 1)) (offdiag_body Rminus p i b c) (L, u)).

Definition chol_downdate (L u : list R) (p : nat)
  : wbacon_error_type * (list R * list R) :=
  match for_ret 0 (p - 1) (downdate_col p) (L, u) with
  | inr s => (WBACON_ERROR_RANK_DEFICIENT, s)
  | inl (L, u) =>
      let a := POWER2 (get L (p * p - 1)) - POWER2 (get u (p - 1)) in
      if Rltb a 0 then (WBACON_ERROR_RANK_DEFICIENT, (L, u))
      else (WBACON_ERROR_OK, (upd (p * p - 1) (sqrt a) L, u))
  end.


(** ** Data of the driver *)

(** [regdata]: the regression data; [wx] and [wy] are the weighted copies
    that the least-squares solver overwrites. *)
Record regdata : Type := mk_regdata {
  dat_n : nat;
  dat_p : nat;
  dat_x : list R;
  dat_y : list R;
  dat_w : list R;
  dat_wx : list R;
  dat_wy : list R;
  dat_w_sqrt : list R
}.

(** [estimate]: what is estimated from the current subset. *)
Record estimate : Type := mk_estimate {
  est_resid : list R;
  est_beta : list R;
  est_dist : list R;
  est_L : list R;
  est_xty : list R;
  est_sigma : R
}.

(** [workarray]: scratch space shared by all steps. *)
Record workarray : Type := mk_workarray {
  lwork : Z;
  iarray : list Z;
  work_p : list R;
  work_n : list R;
  work_np : list R;
  work_pp : list R;
  dgels_work : list R
}.

Definition set_wx_wy (d : regdata) (wx wy : list R) : regdata :=
  mk_regdata (dat_n d) (dat_p d) (dat_x d) (dat_y d) (dat_w d) wx wy
             (dat_w_sqrt d).
Definition set_x (d : regdata) (x : list R) : regdata :=
  mk_regdata (dat_n d) (dat_p d) x (dat_y d) (dat_w d) (dat_wx d) (dat_wy d)
             (dat_w_sqrt d).

Definition set_resid (e : estimate) (v : list R) : estimate :=
  mk_estimate v (est_beta e) (est_dist e) (est_L e) (est_xty e) (est_sigma e).
Definition set_beta (e : estimate) (v : list R) : estimate :=
  mk_estimate (est_resid e) v (est_dist e) (est_L e) (est_xty e) (est_sigma e).
Definition set_dist (e : estimate) (v : list R) : estimate :=
  mk_estimate (est_resid e) (est_beta e) v (est_L e) (est_xty e) (est_sigma e).
Definition set_L (e : estimate) (v : list R) : estimate :=
  mk_estimate (est_resid e) (est_beta e) (est_dist e) v (est_xty e) (est_sigma e).
Definition set_xty (e : estimate) (v : list R) : estimate :=
  mk_estimate (est_resid e) (est_beta e) (est_dist e) (est_L e) v (est_sigma e).

Definition set_lwork (k : workarray) (v : Z) : workarray :=
  mk_workarray v (iarray k) (work_p k) (work_n k) (work_np k) (work_pp k)
               (dgels_work k).
Definition set_iarray (k : workarray) (v : list Z) : workarray :=
  mk_workarray (lwork k) v (work_p k) (work_n k) (work_np k) (work_pp k)
               (dgels_work k).
Definition set_work_p (k : workarray) (v : list R) : workarray :=
  mk_workarray (lwork k) (iarray k) v (work_n k) (work_np k) (work_pp k)
               (dgels_work k).
Definition set_work_n (k : workarray) (v : list R) : workarray :=
  mk_workarray (lwork k) (iarray k) (work_p k) v (work_np k) (work_pp k)
               (dgels_work k).
Definition set_work_np (k : workarray) (v : list R) : workarray :=
  mk_workarray (lwork k) (iarray k) (work_p k) (work_n k) v (work_pp k)
               (dgels_work k).
Definition set_work_pp (k : workarray) (v : list R) : workarray :=
  mk_workarray (lwork k) (iarray k) (work_p k) (work_n k) (work_np k) v
               (dgels_work k).
Definition set_dgels_work (k : workarray) (v : list R) : workarray :=
  mk_workarray (lwork k) (iarray k) (work_p k) (work_n k) (work_np k)
               (work_pp k) v.

(** ** External routines *)

(** LAPACK and BLAS, with the option letters the source passes fixed.
    Matrices are column-major with leading dimension equal to their number
    of rows. *)
Class Lapack : Type := {
  (** [dgels("N", n, p, 1, A, n, B, n, work, lwork, info)] with
      [lwork >= 0]: [A] on return (the QR factorization), [B] on return
      (the solution in its first [p] cells) and [info]. *)
  dgels : nat -> nat -> list R -> list R -> list R * list R * Z;
  (** The same call with [lwork < 0], a workspace query: the value of
      [(int) work[0]] on return. *)
  dgels_lwork : nat -> nat -> Z;
  (** [dtrtri("L", "N", p, A, p, info)]: [A] on return and [info]. *)
  dtrtri : nat -> list R -> list R * Z;
  (** [dtrmm("R", "L", "T", "N", n, p, alpha, A, p, B, n)]: [B] on
      return. *)
  dtrmm : nat -> nat -> R -> list R -> list R -> list R;
  (** [dtrsm("L", "L", transa, "N", p, 1, alpha, A, p, B, p)]: [B] on
      return; the flag is [true] for [transa = "T"]. *)
  dtrsm : bool -> nat -> R -> list R -> list R -> list R;
  (** [dgemv("N", n, p, alpha, A, n, v, 1, beta, y, 1)]: [y] on return. *)
  dgemv : nat -> nat -> R -> list R -> list R -> R -> list R -> list R
}.

(** Rmath: the quantile function of Student's t distribution, from a
    probability and the degrees of freedom. *)
Class Rmath : Type := {
  t_quantile : R -> R -> R
}.

(** [qt(p, ndf, lower_tail, log_p)] of Rmath: with [lower_tail = 0] the
    probability is that of the upper tail, with [log_p <> 0] it is given
    as its logarithm. *)
Definition qt {rmath : Rmath} (prob ndf : R) (lower_tail log_p : Z) : R :=
  let prob := if Z.eqb log_p 0 then prob else exp prob in
  t_quantile (if Z.eqb lower_tail 0 then 1 - prob else prob) ndf.

(** Modelled from the spec: the routines of [partial_sort.h], which is not
    among the sources.  [select_k(x, lo, hi, k)] is the partial-selection
    procedure that locates the order statistic: it rearranges [x] in place,
    and the caller reads the [k]-th smallest value in cell [k] afterwards.
    [psort_array(x, index, n, k)] sorts [x] in ascending order and leaves
    the sorting permutation in [index]. *)
Class PartialSort : Type := {
  select_k : list R -> Z -> Z -> Z -> list R;
  psort_array : list R -> list Z -> Z -> Z -> list R * list Z
}.

(** What the caller of [select_k] relies on, for the whole array as the
    window: the cells are rearranged, not changed, and cell [k] holds a
    value that nothing to its left exceeds and nothing to its right is
    below. *)
Definition select_k_contract {psort : PartialSort} : Prop :=
  forall (x : list R) (k : nat),
    (k < length x)%nat ->
    let x' := select_k x 0 (Z.of_nat (length x) - 1) (Z.of_nat k) in
    Permutation x x' /\
    (forall i, (i <= k)%nat -> get x' i <= get x' k) /\
    (forall i, (k <= i < length x)%nat -> get x' k <= get x' i).

(** The solver as the driver calls it,
    [fitwls(dat, est, subset, work, lwork)]: this five-argument variant
    is declared in a header that is not among the sources.  It returns
    [info] (zero for a fit of full rank) and may rewrite [dat] (the
    weighted copies) and [est]. *)
Class FitDriver : Type := {
  fitwls_est : regdata -> estimate -> list Z -> list R -> Z ->
               Z * regdata * estimate
}.

(** ** Weighted least squares: [fitwls] of [fitwls.c] *)

Section Fitwls.
Context {lapack : Lapack}.

(** The rank check on the diagonal of [R], which sits in [wx] after
    [dgels]: [inr 1] is the [return 1] of the source. *)
Definition rank_check (n p : nat) (wx : list R) : unit + Z :=
  for_ret 0 p
    (fun i (_ : unit) =>
       if Rltb (fabs (get wx ((n + 1) * i))) (sqrt DBL_EPSILON)
       then inr 1%Z else inl tt)
    tt.

(** Returns the [int] result, [dat] with its [wx] and [wy] as left by the
    call, and the output arrays [beta] and [resid]. *)
Definition fitwls (dat : regdata) (weight work_dgels : list R) (lwork : Z)
    (beta resid : list R) : Z * regdata * (list R * list R) :=
  let n := dat_n dat in
  let p := dat_p dat in
  let x := dat_x dat in
  let y := dat_y dat in
  (* STEP 0: determine the optimal size of array 'work' and return *)
  if Z.ltb lwork 0 then (dgels_lwork n p, dat, (beta, resid))
  else
    (* STEP 1: pre-multiply the design matrix and the response by sqrt(w) *)
    let '(wy, wx) :=
      for_loop 0 n
        (fun i '(wy, wx) =>
           let tmp := sqrt (get weight i) in
           (upd i (tmp * get y i) wy, upd i (tmp * get x i) wx))
        (dat_wy dat, dat_wx dat) in
    let wx :=
      for_loop 1 (p - 1)
        (fun j wx =>
           for_loop 0 n
             (fun i wx =>
                upd (i + n * j) (sqrt (get weight i) * get x (i + n * j)) wx)
             wx)
        wx in
    let '(wx, wy, info_dgels) := dgels n p wx wy in
    let dat := set_wx_wy dat wx wy in
    match rank_check n p wx with
    | inr r => (r, dat, (beta, resid))
    | inl _ =>
        let beta := Memcpy beta wy p in
        let resid := Memcpy resid y n in
        let resid := dgemv n p (-1) x beta 1 resid in
        (0%Z, dat, (beta, resid))
    end.

End Fitwls.

(** ** Maintaining the factor across a change of subset: [update_chol_xty] *)

(** The variables of the two passes. *)
Record pass_state : Type := mk_pass {
  ps_L : list R;
  ps_xty : list R;
  ps_u : list R;           (* xtx_update = work->work_p *)
  ps_stack : list Z;       (* stack = work->iarray *)
  ps_n_update : Z;
  ps_n_downdate : nat
}.

(** The inner loop over [j] that fills [xtx_update] and moves [xty] by the
    contribution of observation [i]; [op] is [Rplus] for [+=] and [Rminus]
    for [-=]. *)
Definition row_update (op : R -> R -> R) (dat : regdata) (i : nat)
    (s : list R * list R) : list R * list R :=
  let n := dat_n dat in
  let x := dat_x dat in
  let y := dat_y dat in
  let weight := dat_w dat in
  for_loop 0 (dat_p dat)
    (fun j '(u, xty) =>
       (upd j (get x (i + j * n) * sqrt (get weight i)) u,
        upd j (op (get xty j) (get x (i + j * n) * get y i * get weight i)) xty))
    s.

Definition first_pass_body (dat : regdata) (subset0 subset1 : list Z) (i : nat)
    (s : pass_state) : pass_state :=
  if Z.gtb (geti subset1 i) (geti subset0 i) then
    let '(u, xty) := row_update Rplus dat i (ps_u s, ps_xty s) in
    let '(L, u) := chol_update (ps_L s) u (dat_p dat) in
    mk_pass L xty u (ps_stack s) (ps_n_update s + 1) (ps_n_downdate s)
  else if Z.ltb (geti subset1 i) (geti subset0 i) then
    mk_pass (ps_L s) (ps_xty s) (ps_u s)
            (upd (ps_n_downdate s) (Z.of_nat i) (ps_stack s))
            (ps_n_update s) (S (ps_n_downdate s))
  else s.

(** On a failed downdate the loop is left with the error and with the
    arrays as the failed attempt left them. *)
Definition second_pass_body (dat : regdata) (i : nat) (s : pass_state)
  : pass_state + wbacon_error_type * pass_state :=
  let at_ := Z.to_nat (geti (ps_stack s) i) in
  let '(u, xty) := row_update Rminus dat at_ (ps_u s, ps_xty s) in
  let '(err, (L, u)) := chol_downdate (ps_L s) u (dat_p dat) in
  let s := mk_pass L xty u (ps_stack s) (ps_n_update s) (ps_n_downdate s) in
  if is_ok err then inl s else inr (err, s).

(** "first pass: make updates to L and xty (if required) and put the
    downdates to the 'stack'" *)
Definition first_pass (dat : regdata) (work : workarray) (est : estimate)
    (subset0 subset1 : list Z) : pass_state :=
  for_loop 0 (dat_n dat) (first_pass_body dat subset0 subset1)
    (mk_pass (est_L est) (est_xty est) (work_p work) (iarray work) 0%Z 0%nat).

(** "in the second pass, we consider the downdates" *)
Definition second_pass (dat : regdata) (s : pass_state)
  : pass_state + wbacon_error_type * pass_state :=
  for_ret 0 (ps_n_downdate s) (second_pass_body dat) s.

Definition update_chol_xty (dat : regdata) (work : workarray) (est : estimate)
    (subset0 subset1 : list Z) : wbacon_error_type * workarray * estimate :=
  let n := dat_n dat in
  let p := dat_p dat in
  (* make copies of L and xty (to restore the arrays if the updating fails) *)
  let work := set_work_pp work (Memcpy (work_pp work) (est_L est) (p * p)) in
  let work := set_work_np work (Memcpy (work_np work) (est_xty est) p) in
  (* first pass *)
  let s := first_pass dat work est subset0 subset1 in
  let work := set_iarray (set_work_p work (ps_u s)) (ps_stack s) in
  (* second pass *)
  match second_pass dat s with
  | inr (err, s) =>
      (* updating failed: restore the original arrays *)
      (err, set_work_p work (ps_u s),
       set_xty (set_L est (Memcpy (ps_L s) (work_pp work) (p * p)))
               (Memcpy (ps_xty s) (work_np work) p))
  | inl s =>
      (WBACON_ERROR_OK, set_work_p work (ps_u s),
       set_xty (set_L est (ps_L s)) (ps_xty s))
  end.

(** ** Selecting the smallest scores: [select_subset] *)

Section Selector.
Context {psort : PartialSort}.

(** Returns [x] as [select_k] leaves it and the marked [subset]. *)
Definition select_subset (x : list R) (subset : list Z) (m : Z) (n : nat)
  : list R * list Z :=
  (* select the m-th smallest element (threshold) *)
  let x := select_k x 0 (Z.of_nat n - 1) (m - 1) in
  let threshold := get x (Z.to_nat (m - 1)) in
  (x,
   for_loop 0 n
     (fun i subset =>
        if Rleb (get x i) threshold then upd i 1%Z subset
        else upd i 0%Z subset)
     subset).

End Selector.

(** ** Leverages and discrepancies: [hat_matrix], [compute_ti] *)

Section Discrepancy.
Context {lapack : Lapack}.

(** Returns the status, the work arrays and [hat]. *)
Definition hat_matrix (dat : regdata) (work : workarray) (L hat : list R)
  : wbacon_error_type * workarray * list R :=
  let n := dat_n dat in
  let p := dat_p dat in
  let weight := dat_w dat in
  (* invert the cholesky factor L *)
  let '(inv, info) := dtrtri p (Memcpy (work_pp work) L (p * p)) in
  let work := set_work_pp work inv in
  if negb (Z.eqb info 0) then (WBACON_ERROR_TRIANG_MAT_SINGULAR, work, hat)
  else
    (* triangular matrix multiplication x * L^{-T} *)
    let xl := dtrmm n p 1 inv (Memcpy (work_np work) (dat_x dat) (n * p)) in
    let work := set_work_np work xl in
    (* diagonal elements of hat matrix = row sums of (x * L^{-T})^2 *)
    let hat := for_loop 0 n (fun i hat => upd i (POWER2 (get xl i)) hat) hat in
    let hat :=
      for_loop 1 (p - 1)
        (fun j hat =>
           for_loop 0 n
             (fun i hat => upd i (get hat i + POWER2 (get xl (i + j * n))) hat)
             hat)
        hat in
    let hat :=
      for_loop 0 n (fun i hat => upd i (get hat i * get weight i) hat) hat in
    (WBACON_ERROR_OK, work, hat).

(** The loop that fills [tis] from the leverages. *)
Definition ti_loop (n : nat) (resid hat : list R) (sigma : R) (subset : list Z)
    (tis : list R) : list R :=
  for_loop 0 n
    (fun i tis =>
       let tmp := 1 + IZR (1 - 2 * geti subset i) * get hat i in
       upd i (fabs (get resid i) / (sigma * sqrt tmp)) tis)
    tis.

(** [hat] is [work->work_n]; returns the status, the work arrays and
    [tis]. *)
Definition compute_ti (dat : regdata) (work : workarray) (est : estimate)
    (subset : list Z) (m : Z) (tis : list R)
  : wbacon_error_type * workarray * list R :=
  let n := dat_n dat in
  let resid := est_resid est in
  let '(err, work, hat) := hat_matrix dat work (est_L est) (work_n work) in
  let work := set_work_n work hat in
  if negb (is_ok err) then (err, work, tis)
  else (WBACON_ERROR_OK, work, ti_loop n resid hat (est_sigma est) subset tis).

(** ** Coefficients from the factor: [cholesky_reg] *)

Definition cholesky_reg (L x xty beta : list R) (n p : nat) : list R :=
  let beta := Memcpy beta xty p in
  let beta := dtrsm false p 1 L beta in
  dtrsm true p 1 L beta.

End Discrepancy.

(** ** The driver *)

(** What the steps of the driver share: the three structures, the two
    subsets (previous and candidate), [*m] and [*maxiter]. *)
Record state : Type := mk_state {
  st_dat : regdata;
  st_work : workarray;
  st_est : estimate;
  st_subset0 : list Z;
  st_subset1 : list Z;
  st_m : Z;
  st_maxiter : Z
}.

Definition set_dat (s : state) (d : regdata) : state :=
  mk_state d (st_work s) (st_est s) (st_subset0 s) (st_subset1 s) (st_m s)
           (st_maxiter s).
Definition set_work (s : state) (k : workarray) : state :=
  mk_state (st_dat s) k (st_est s) (st_subset0 s) (st_subset1 s) (st_m s)
           (st_maxiter s).
Definition set_est (s : state) (e : estimate) : state :=
  mk_state (st_dat s) (st_work s) e (st_subset0 s) (st_subset1 s) (st_m s)
           (st_maxiter s).
Definition set_subset0 (s : state) (v : list Z) : state :=
  mk_state (st_dat s) (st_work s) (st_est s) v (st_subset1 s) (st_m s)
           (st_maxiter s).
Definition set_subset1 (s : state) (v : list Z) : state :=
  mk_state (st_dat s) (st_work s) (st_est s) (st_subset0 s) v (st_m s)
           (st_maxiter s).
Definition set_m (s : state) (v : Z) : state :=
  mk_state (st_dat s) (st_work s) (st_est s) (st_subset0 s) (st_subset1 s) v
           (st_maxiter s).
Definition set_maxiter (s : state) (v : Z) : state :=
  mk_state (st_dat s) (st_work s) (st_est s) (st_subset0 s) (st_subset1 s)
           (st_m s) v.

(** A call with the two subset arguments exchanged, as [wbacon_reg] calls
    [algorithm_5]. *)
Definition swap_subsets (s : state) : state :=
  mk_state (st_dat s) (st_work s) (st_est s) (st_subset1 s) (st_subset0 s)
           (st_m s) (st_maxiter s).

(** "extract R matrix (as a lower triangular matrix: L) from dat->wx" *)
Definition extract_L (n p : nat) (wx L : list R) : list R :=
  for_loop 0 p
    (fun i L =>
       for_loop i (p - i)
         (fun j L => upd (j + i * p) (get wx (i + j * n)) L) L)
    L.

Section Driver.
Context {lapack : Lapack} {rmath : Rmath} {psort : PartialSort}
        {fit : FitDriver}.

(** *** Step 2: [algorithm_5] *)

(** "generate new subset that includes all obs. with t[i] < cutoff" *)
Definition cutoff_subset (n : nat) (dist : list R) (cutoff : R)
    (subset1 : list Z) : list Z * Z :=
  for_loop 0 n
    (fun i '(subset1, m) =>
       if Rltb (get dist i) cutoff then (upd i 1%Z subset1, (m + 1)%Z)
       else (upd i 0%Z subset1, m))
    (subset1, 0%Z).

(** "check whether the subsets differ": the value of [i] after the loop. *)
Definition first_difference (n : nat) (subset0 subset1 : list Z) : nat :=
  match
    for_ret 0 n
      (fun i (_ : unit) =>
         if Z.eqb (Z.lxor (geti subset0 i) (geti subset1 i)) 0
         then inl tt else inr i)
      tt
  with
  | inl _ => n
  | inr i => i
  end.

(** The cutoff of one iteration, from [*alpha], [*m] and [p]. *)
Definition cutoff_value (alpha : R) (m : Z) (p : nat) : R :=
  qt (alpha / IZR (2 * (m + 1))) (IZR (m - Z.of_nat p)) 0 0.

(** The first half of one turn of the [while] loop: the fit from
    scratch on the current subset, the factor taken from it, and the
    scores.  [inr] is a [return]. *)
Definition refit (n p : nat) (s : state) : state + wbacon_error_type * state :=
  (* weighted least squares *)
  let '(info, dat, est) :=
    fitwls_est (st_dat s) (st_est s) (st_subset0 s) (dgels_work (st_work s))
               (lwork (st_work s)) in
  let s := set_est (set_dat s dat) est in
  if negb (Z.eqb info 0) then inr (WBACON_ERROR_RANK_DEFICIENT, s)
  else
    (* extract L *)
    let est := set_L est (extract_L n p (dat_wx dat) (est_L est)) in
    (* compute t[i]'s (dist) *)
    let '(err, work, dist) :=
      compute_ti dat (st_work s) est (st_subset0 s) (st_m s) (est_dist est) in
    let s := set_est (set_work s work) (set_dist est dist) in
    if negb (is_ok err) then inr (err, s) else inl s.

(** The candidate subset of one turn, with its size: the observations
    whose score is below the cutoff. *)
Definition candidate (n p : nat) (alpha : R) (s : state) : list Z * Z :=
  cutoff_subset n (est_dist (st_est s)) (cutoff_value alpha (st_m s) p)
                (st_subset1 s).

(** The second half: the cutoff, the candidate subset and the test for
    convergence.  [inl] goes on to the next turn, [inr] is a [return]. *)
Definition reselect (n p : nat) (alpha : R) (iter : nat) (s : state)
  : state + wbacon_error_type * state :=
  (* t-distr. cutoff value; new subset with all obs. with t[i] < cutoff *)
  let '(subset1, m) := candidate n p alpha s in
  let s := set_m (set_subset1 s subset1) m in
  (* if the subsets are identical, we return *)
  if Nat.eqb (first_difference n (st_subset0 s) subset1) n
  then inr (WBACON_ERROR_OK, set_maxiter s (Z.of_nat iter))
  else inl (set_subset0 s (Memcpy (st_subset0 s) subset1 n)).

Definition algorithm_5_body (n p : nat) (alpha : R) (iter : nat) (s : state)
  : state + wbacon_error_type * state :=
  match refit n p s with
  | inl s => reselect n p alpha iter s
  | inr r => inr r
  end.

(** [n] and [p] are read once; [iter] runs from 1 while
    [iter <= *maxiter]. *)
Definition algorithm_5 (alpha : R) (s : state) : wbacon_error_type * state :=
  let n := dat_n (st_dat s) in
  let p := dat_p (st_dat s) in
  match for_ret 1 (Z.to_nat (st_maxiter s)) (algorithm_5_body n p alpha) s with
  | inr r => r
  | inl s => (WBACON_ERROR_CONVERGENCE_FAILURE, s)
  end.

(** *** Step 1: [algorithm_4] *)

(** The inner [for (;;)] that adds observations after a failed update.
    [None] when [fuel] turns are not enough; [Some (inl _)] is the
    [break], [Some (inr _)] the [return err]. *)
Fixpoint grow (fuel : nat) (collect : Z) (s : state)
  : option (state + wbacon_error_type * state) :=
  match fuel with
  | O => None
  | S fuel =>
      let m := (st_m s + 1)%Z in
      let subset1 :=
        upd (Z.to_nat (geti (iarray (st_work s)) (Z.to_nat (m - 1)))) 1%Z
            (st_subset1 s) in
      (* re-do the updating *)
      let '(err, work, est) :=
        update_chol_xty (st_dat s) (st_work s) (st_est s) (st_subset0 s)
                        subset1 in
      let s := set_est (set_work (set_m (set_subset1 s subset1) m) work) est in
      if is_ok err then Some (inl s)
      else if Z.eqb m (Z.of_nat (dat_p (st_dat s)) * collect)
           then Some (inr (err, s))
           else grow fuel collect s
  end.

(** The part of the outer loop body after the factor has been brought up
    to date: [inl] goes round again, [inr] leaves [algorithm_4]. *)
Definition algorithm_4_rest (collect : Z) (s : state)
  : state + wbacon_error_type * state :=
  let dat := st_dat s in
  let n := dat_n dat in
  let p := dat_p dat in
  (* prepare next while iteration; then update subset1 *)
  let s := set_subset0 s (Memcpy (st_subset0 s) (st_subset1 s) n) in
  (* regression estimate: beta (updated Cholesky factor) *)
  let est := st_est s in
  let est :=
    set_beta est
      (cholesky_reg (est_L est) (dat_x dat) (est_xty est) (est_beta est) n p) in
  (* compute residuals *)
  let resid := Memcpy (est_resid est) (dat_y dat) n in
  let est := set_resid est (dgemv n p (-1) (dat_x dat) (est_beta est) 1 resid) in
  (* compute t[i]'s *)
  let '(err, work, dist) :=
    compute_ti dat (st_work s) est (st_subset1 s) (st_m s) (est_dist est) in
  let s := set_est (set_work s work) (set_dist est dist) in
  if negb (is_ok err) then inr (err, s)
  else
    (* select the m obs. with the smallest t[i]'s *)
    let s := set_m s (st_m s + 1) in
    if Z.eqb (st_m s) (Z.of_nat p * collect + 1) then inr (WBACON_ERROR_OK, s)
    else
      let '(dist, subset1) :=
        select_subset dist (st_subset1 s) (st_m s) n in
      inl (set_subset1 (set_est s (set_dist (st_est s) dist)) subset1).

(** The outer [for (;;)]; [None] when [fuel] turns are not enough. *)
Fixpoint algorithm_4 (fuel : nat) (collect : Z) (s : state)
  : option (wbacon_error_type * state) :=
  match fuel with
  | O => None
  | S fuel =>
      (* update cholesky factor and xty matrix (subset0 => subset1) *)
      let '(err, work, est) :=
        update_chol_xty (st_dat s) (st_work s) (st_est s) (st_subset0 s)
                        (st_subset1 s) in
      let s := set_est (set_work s work) est in
      (* check whether L is well defined; if not, keep adding obs. to the
         subset until it has full rank *)
      match (if is_ok err then Some (inl s) else grow fuel collect s) with
      | None => None
      | Some (inr r) => Some r
      | Some (inl s) =>
          match algorithm_4_rest collect s with
          | inr r => Some r
          | inl s => algorithm_4 fuel collect s
          end
      end
  end.

(** *** Step 0: [initial_reg] *)

(** "add obs. to the subset until x has full rank": the [while] over [m < n]
    loop; [inr] is its [break]. *)
Definition enlarge_body (k : workarray) (i : nat)
    (s : regdata * estimate * list Z * Z)
  : regdata * estimate * list Z * Z + regdata * estimate * list Z * Z :=
  let '(dat, est, subset, m) := s in
  let m := (m + 1)%Z in
  (* select obs. with smallest dist (among those obs. not in the subset) *)
  let subset := upd (Z.to_nat (geti (iarray k) (Z.to_nat (m - 1)))) 1%Z subset in
  (* re-do regression and check rank *)
  let '(info, dat, est) := fitwls_est dat est subset (dgels_work k) (lwork k) in
  if Z.eqb info 0 then inr (dat, est, subset, m) else inl (dat, est, subset, m).

(** "compute xty (weighted)" *)
Definition accumulate_xty (dat : regdata) (subset : list Z) (xty : list R)
  : list R :=
  let n := dat_n dat in
  for_loop 0 (dat_p dat)
    (fun i xty =>
       for_loop 0 n
         (fun j xty =>
            if negb (Z.eqb (geti subset j) 0)
            then upd i (get xty i
                        + get (dat_w dat) j * get (dat_x dat) (j + i * n)
                          * get (dat_y dat) j) xty
            else xty)
         xty)
    xty.

(** [subset] is the caller's [subset0]. *)
Definition initial_reg (s : state) : wbacon_error_type * state :=
  let n := dat_n (st_dat s) in
  let p := dat_p (st_dat s) in
  let work := st_work s in
  (* 4) compute regression estimate *)
  let '(info, dat, est) :=
    fitwls_est (st_dat s) (st_est s) (st_subset0 s) (dgels_work work)
               (lwork work) in
  (* if the design matrix is rank deficient, we enlarge the subset *)
  let '(dat, work, est, subset, m) :=
    if negb (Z.eqb info 0) then
      (* sort the dist[i]'s in ascending order *)
      let '(dist, idx) :=
        psort_array (est_dist est) (iarray work) (Z.of_nat n) (Z.of_nat n) in
      let est := set_dist est dist in
      let work := set_iarray work idx in
      match
        for_ret 0 (Z.to_nat (Z.of_nat n - st_m s)) (enlarge_body work)
                (dat, est, st_subset0 s, st_m s)
      with
      | inl (dat, est, subset, m) => (dat, work, est, subset, m)
      | inr (dat, est, subset, m) => (dat, work, est, subset, m)
      end
    else (dat, work, est, st_subset0 s, st_m s) in
  (* extract R matrix (as a lower triangular matrix: L) from dat->wx *)
  let est := set_L est (extract_L n p (dat_wx dat) (est_L est)) in
  (* compute xty (weighted) *)
  let est := set_xty est (accumulate_xty dat subset (est_xty est)) in
  (* compute t[i]'s; its status is the one returned *)
  let '(status, work, dist) := compute_ti dat work est subset m (est_dist est) in
  (status,
   mk_state dat work (set_dist est dist) subset (st_subset1 s) m
            (st_maxiter s)).

(** *** The entry point: [wbacon_reg] *)

(** The arguments that are written on return. *)
Record result : Type := mk_result {
  out_x : list R;
  out_resid : list R;
  out_beta : list R;
  out_subset0 : list Z;
  out_dist : list R;
  out_m : Z;
  out_success : Z;
  out_maxiter : Z
}.

Definition result_of (success : Z) (x : list R) (s : state) : result :=
  mk_result x (est_resid (st_est s)) (est_beta (st_est s)) (st_subset0 s)
            (est_dist (st_est s)) (st_m s) success (st_maxiter s).

(** The state built before step 0: the arrays of the caller and the
    zero-filled arrays of [Calloc].  [wbacon_reg] leaves the field [sigma]
    of its local [estimate] unset; [sigma0] stands for what it holds. *)
Definition initial_state (x y w resid beta : list R) (subset0 : list Z)
    (dist : list R) (n p : nat) (m maxiter : Z) (sigma0 : R) : state :=
  let w_sqrt :=
    for_loop 0 n (fun i a => upd i (sqrt (get w i)) a) (repeat 0 n) in
  let dat := mk_regdata n p x y w (repeat 0 (n * p)) (repeat 0 n) w_sqrt in
  let est :=
    mk_estimate resid beta dist (repeat 0 (p * p)) (repeat 0 p) sigma0 in
  let work_np0 := repeat 0 (n * p) in
  (* determine size of work array for LAPACK:degels *)
  let '(lw, dat, est) := fitwls_est dat est subset0 work_np0 (-1) in
  let work :=
    mk_workarray lw (repeat 0%Z n) (repeat 0 p) (repeat 0 n) work_np0
                 (repeat 0 (p * p)) (repeat 0 (Z.to_nat lw)) in
  mk_state dat work est subset0 (repeat 0%Z n) m maxiter.

(** Step 2 and what follows it in [wbacon_reg], from the state that step
    1 leaves. *)
Definition step_2 (alpha : R) (s : state) : result :=
  let n := dat_n (st_dat s) in
  let p := dat_p (st_dat s) in
  let '(err, s) := algorithm_5 alpha (swap_subsets s) in
  let s := swap_subsets s in
  let success := if negb (is_ok err) then 0%Z else 1%Z in
  (* copy the QR factorization to x *)
  let x := Memcpy (dat_x (st_dat s)) (dat_wx (st_dat s)) (n * p) in
  result_of success x s.

(** [None] when [fuel] turns of the loops of step 1 are not enough. *)
Definition wbacon_reg (x y w resid beta : list R) (subset0 : list Z)
    (dist : list R) (n p : nat) (m collect : Z) (alpha : R) (maxiter : Z)
    (sigma0 : R) (fuel : nat) : option result :=
  let s := initial_state x y w resid beta subset0 dist n p m maxiter sigma0 in
  (* STEP 0 (initialization) *)
  let '(err, s) := initial_reg s in
  if negb (is_ok err) then Some (result_of 0 (dat_x (st_dat s)) s)
  else
    (* select the p+1 obs. with the smallest ti's (initial basic subset) *)
    let s := set_m s (Z.of_nat p + 1) in
    let '(dist, subset1) :=
      select_subset (est_dist (st_est s)) (st_subset1 s) (st_m s) n in
    let s := set_subset1 (set_est s (set_dist (st_est s) dist)) subset1 in
    (* STEP 1 (Algorithm 4) *)
    match algorithm_4 fuel collect s with
    | None => None
    | Some (err, s) =>
        if negb (is_ok err) then Some (result_of 0 (dat_x (st_dat s)) s)
        else Some (step_2 alpha s)
    end.

End Driver.

(** ** Vocabulary of the statements *)

(** The variables of the second pass when its turn [k] begins, if no
    earlier downdate has failed. *)
Definition second_pass_at (dat : regdata) (s : pass_state) (k : nat)
  : option pass_state :=
  match for_ret 0 k (second_pass_body dat) s with
  | inl s' => Some s'
  | inr _ => None
  end.

(** The downdate of turn [k] of the second pass, run from [s], fails. *)
Definition downdate_fails (dat : regdata) (s : pass_state) (k : nat) : Prop :=
  let at_ := Z.to_nat (geti (ps_stack s) k) in
  let u := fst (row_update Rminus dat at_ (ps_u s, ps_xty s)) in
  fst (chol_downdate (ps_L s) u (dat_p dat)) <> WBACON_ERROR_OK.

(** ** Small concrete data *)

(** One regressor, one observation: [x = 2], [y = 5], unit weight. *)
Definition dat_1x1 : regdata := mk_regdata 1 1 [2] [5] [1] [0] [0] [1].
Definition work_1x1 : workarray := mk_workarray 0 [0%Z] [0] [0] [0] [0] [].
(** A factor [L = 1] that is too small for the observation to be taken
    out again. *)
Definition est_1x1 : estimate := mk_estimate [0] [0] [0] [1] [7] 1.

(** ** Reference routines for one regressor *)

(** The external routines in the case [p = 1], where the triangular
    factor is a single number and every routine has a closed form.  They
    make the model runnable on concrete data. *)

Fixpoint dot (a b : list R) : R :=
  match a, b with
  | v :: a', v' :: b' => v * v' + dot a' b'
  | _, _ => 0
  end.

Definition Reqb (a b : R) : bool := if Req_dec_T a b then true else false.

(** Least squares on one column [a] (the first [n] cells of [A]): the
    factor [R] is the norm of the column with the sign that LAPACK's
    Householder reflection gives it (the entry itself when nothing lies
    below it), the solution is [a.b / a.a], and [info] is positive when
    [R] is exactly zero.  The cells below [R], which encode Q, and the
    cells of [B] after the solution are left as they were: the source
    reads neither. *)
Definition dgels_p1 (n p : nat) (A B : list R) : list R * list R * Z :=
  let a := firstn n A in
  let b := firstn n B in
  let r11 :=
    if Reqb (dot (skipn 1 a) (skipn 1 a)) 0 then get A 0
    else if Rltb (get A 0) 0 then sqrt (dot a a) else - sqrt (dot a a) in
  if Reqb r11 0 then (upd 0 r11 A, B, 1%Z)
  else (upd 0 r11 A, upd 0 (dot a b / dot a a) B, 0%Z).

Definition dtrtri_p1 (p : nat) (A : list R) : list R * Z :=
  if Reqb (get A 0) 0 then (A, 1%Z) else (upd 0 (/ get A 0) A, 0%Z).

Definition dtrmm_p1 (n p : nat) (alpha : R) (A B : list R) : list R :=
  for_loop 0 n (fun i B => upd i (alpha * (get B i * get A 0)) B) B.

Definition dtrsm_p1 (trans : bool) (p : nat) (alpha : R) (A B : list R)
  : list R :=
  upd 0 (alpha * get B 0 / get A 0) B.

Definition dgemv_p1 (n p : nat) (alpha : R) (A v : list R) (beta : R)
    (y : list R) : list R :=
  for_loop 0 n
    (fun i y => upd i (alpha * (get A i * get v 0) + beta * get y i) y) y.

Definition lapack_p1 : Lapack :=
  {| dgels := dgels_p1;
     dgels_lwork := fun _ _ => 2%Z;
     dtrtri := dtrtri_p1;
     dtrmm := dtrmm_p1;
     dtrsm := dtrsm_p1;
     dgemv := dgemv_p1 |}.

(** The quantile function of Student's t distribution with two degrees
    of freedom, [(2 q - 1) / sqrt (2 q (1 - q))]; it is used where the
    degrees of freedom are two. *)
Definition rmath_2df : Rmath :=
  {| t_quantile := fun q _ => (2 * q - 1) / sqrt (2 * q * (1 - q)) |}.

(** Modelled from the spec: the driver's solver call, which is the
    weighted solve restricted to the current subset: an observation
    outside the subset gets the effective weight zero, which excludes it
    from the fit.  Built on [fitwls] of [fitwls.c]. *)
Definition effective_weight (n : nat) (w : list R) (subset : list Z) : list R :=
  for_loop 0 n
    (fun i e => upd i (if Z.eqb (geti subset i) 0 then 0 else get w i) e)
    (repeat 0 n).

Definition fit_subset {lapack : Lapack} : FitDriver :=
  {| fitwls_est := fun dat est subset work_dgels lwork =>
       let '(info, dat, (beta, resid)) :=
         fitwls dat (effective_weight (dat_n dat) (dat_w dat) subset)
                work_dgels lwork (est_beta est) (est_resid est) in
       (info, dat, set_resid (set_beta est beta) resid) |}.

(** Modelled from the spec: the routines of [partial_sort.h] as a plain
    insertion sort by key.  A sorted window meets what the callers of the
    partial-selection procedure rely on.  [select_k_ref] sorts the cells
    [lo..hi]; [psort_array_ref] sorts the first [n] cells and writes, for
    each, the index it came from. *)
Fixpoint insert_by {A : Type} (key : A -> R) (a : A) (l : list A) : list A :=
  match l with
  | [] => [a]
  | h :: t => if Rleb (key a) (key h) then a :: l else h :: insert_by key a t
  end.

Definition isort_by {A : Type} (key : A -> R) (l : list A) : list A :=
  fold_right (insert_by key) [] l.

Definition select_k_ref (x : list R) (lo hi k : Z) : list R :=
  let lo := Z.to_nat lo in
  let len := Z.to_nat (hi + 1) in
  firstn lo x ++ isort_by (fun v => v) (skipn lo (firstn len x))
  ++ skipn len x.

Definition psort_array_ref (x : list R) (index : list Z) (n k : Z)
  : list R * list Z :=
  let n := Z.to_nat n in
  let sorted :=
    isort_by fst (combine (firstn n x) (map Z.of_nat (seq 0 n))) in
  (Memcpy x (map fst sorted) n, Memcpy index (map snd sorted) n).

Definition psort_ref : PartialSort :=
  {| select_k := select_k_ref; psort_array := psort_array_ref |}.

(** Four observations on the line [y = x], the first three in the
    subset. *)
Definition dat_4x1 : regdata :=
  mk_regdata 4 1 [2; 2; 1; 1] [2; 2; 1; 1] [1; 1; 1; 1]
             [0; 0; 0; 0] [0; 0; 0; 0] [1; 1; 1; 1].
Definition work_4x1 : workarray :=
  mk_workarray 2 [0%Z; 0%Z; 0%Z; 0%Z] [0] [0; 0; 0; 0] [0; 0; 0; 0] [0]
               [0; 0].
Definition est_4x1 : estimate :=
  mk_estimate [0; 0; 0; 9] [1] [0; 0; 0; 0] [3] [9] 1.
Definition subset_4x1 : list Z := [1%Z; 1%Z; 1%Z; 0%Z].

(** The state of [algorithm_5] when its turn number [j + 1] begins, if no
    earlier turn has returned. *)
Definition iteration_at {lapack : Lapack} {rmath : Rmath} {fit : FitDriver}
    (n p : nat) (alpha : R) (s : state) (j : nat) : option state :=
  match for_ret 1 j (algorithm_5_body n p alpha) s with
  | inl s' => Some s'
  | inr _ => None
  end.

(** Each of the first [k] turns completes, without an error, and ends
    with a candidate subset that differs from the current one. *)
Definition never_converges {lapack : Lapack} {rmath : Rmath}
    {fit : FitDriver} (n p : nat) (alpha : R) (s : state) (k : nat) : Prop :=
  forall j, (j < k)%nat ->
    exists sj sj',
      iteration_at n p alpha s j = Some sj /\
      refit n p sj = inl sj' /\
      fst (candidate n p alpha sj') <> st_subset0 sj'.

(** An array in ascending order: every cell is at most every later
    cell. *)
Inductive ascending : list R -> Prop :=
| ascending_nil : ascending []
| ascending_cons (h : R) (t : list R) :
    (forall v, In v t -> h <= v) -> ascending t -> ascending (h :: t).

(** The number of members of a membership vector of zeros and ones. *)
Definition cardinality (subset : list Z) : Z := fold_right Z.add 0%Z subset.

(** The number of indices below [n] that satisfy [f]. *)
Fixpoint count_upto (f : nat -> bool) (n : nat) : Z :=
  match n with
  | O => 0%Z
  | S k => (count_upto f k + if f k then 1 else 0)%Z
  end.

(** The state in which step 2 finds this data: the current subset in
    both subset arrays, three members counted, one iteration allowed. *)
Definition s_4x1 : state :=
  mk_state dat_4x1 work_4x1 est_4x1 subset_4x1 subset_4x1 3 1.

(** The same after the fit on the subset: coefficient 1, residuals 0,
    factor [-3], leverages [4/9], [4/9], [1/9], [1/9], scores 0. *)
Definition s1_4x1 : state :=
  mk_state
    (set_wx_wy dat_4x1 [-3; 2; 1; 0] [1; 2; 1; 0])
    (mk_workarray 2 [0%Z; 0%Z; 0%Z; 0%Z] [0] [4 / 9; 4 / 9; 1 / 9; 1 / 9]
                  [- 2 / 3; - 2 / 3; - 1 / 3; - 1 / 3] [- 1 / 3] [0; 0])
    (mk_estimate [0; 0; 0; 0] [1] [0; 0; 0; 0] [-3] [9] 1)
    subset_4x1 subset_4x1 3 1.

(** A state of step 1 in which the transition to the candidate subset
    fails: four observations, one regressor, the previous subset
    [{0, 1}], the candidate [{2, 3}] chosen from the scores 9, 1, 0, 0,
    and a factor that is too small for observation 0 or 1 to be taken
    out.  The index array is as [Calloc] left it. *)
Definition s_grow : state :=
  mk_state
    (mk_regdata 4 1 [2; 2; 0; 0] [1; 1; 0; 0] [1; 1; 1; 1]
                [0; 0; 0; 0] [0; 0; 0; 0] [1; 1; 1; 1])
    (mk_workarray 2 [0%Z; 0%Z; 0%Z; 0%Z] [0] [0; 0; 0; 0] [0; 0; 0; 0] [0]
                  [0; 0])
    (mk_estimate [0; 0; 0; 0] [0] [9; 1; 0; 0] [1] [4] 1)
    [1%Z; 1%Z; 0%Z; 0%Z] [0%Z; 0%Z; 1%Z; 1%Z] 2 50.

(** ** Rescaling the weights *)

(** An array with every cell multiplied by [c]. *)
Definition scale (c : R) (a : list R) : list R := map (Rmult c) a.
Arguments scale : simpl never.

(** The pair of arrays that the rank-one routines work on, both scaled. *)
Definition scale2 (s : R) (x : list R * list R) : list R * list R :=
  (scale s (fst x), scale s (snd x)).

(** The variables of the two passes in the run with the weights
    multiplied by [c]. *)
Definition scale_pass (c : R) (s : pass_state) : pass_state :=
  mk_pass (scale (sqrt c) (ps_L s)) (scale c (ps_xty s))
          (scale (sqrt c) (ps_u s)) (ps_stack s) (ps_n_update s)
          (ps_n_downdate s).

(** Two arrays of the same size whose first [n] cells differ by the
    factor [k] and whose other cells agree. *)
Definition cells (k : R) (n : nat) (a a' : list R) : Prop :=
  length a' = length a /\
  forall i, get a' i = if (i <? n)%nat then k * get a i else get a i.

(** The first step of [fitwls] on its own: the response and the design
    matrix multiplied by the square roots of the weights, as the two
    loops of the source leave [wy] and [wx]. *)
Definition premultiply (n p : nat) (x y weight wy wx : list R)
  : list R * list R :=
  let '(wy, wx) :=
    for_loop 0 n
      (fun i '(wy, wx) =>
         let tmp := sqrt (get weight i) in
         (upd i (tmp * get y i) wy, upd i (tmp * get x i) wx))
      (wy, wx) in
  (wy,
   for_loop 1 (p - 1)
     (fun j wx =>
        for_loop 0 n
          (fun i wx =>
             upd (i + n * j) (sqrt (get weight i) * get x (i + n * j)) wx)
          wx)
     wx).

(** What the statements about rescaled weights ask of LAPACK and BLAS,
    for matrices of the sizes of the problem: scaling the arguments of a
    routine scales its results as the mathematics of the routine says,
    and the routines keep the sizes of their arrays. *)
Record lapack_homogeneous {lapack : Lapack} (n p : nat) : Prop := {
  (** least squares: the factor scales; the solution, which exists when
      no diagonal entry of the factor is zero, does not *)
  dgels_scale :
    forall (A B : list R) (s : R),
      0 < s -> length A = (n * p)%nat -> length B = n ->
      fst (fst (dgels n p (scale s A) (scale s B)))
      = scale s (fst (fst (dgels n p A B))) /\
      ((forall i, (i < p)%nat ->
          get (fst (fst (dgels n p A B))) ((n + 1) * i) <> 0) ->
       firstn p (snd (fst (dgels n p (scale s A) (scale s B))))
       = firstn p (snd (fst (dgels n p A B))));
  dgels_length :
    forall (A B : list R),
      length A = (n * p)%nat -> length B = n ->
      length (fst (fst (dgels n p A B))) = (n * p)%nat /\
      length (snd (fst (dgels n p A B))) = n;
  (** triangular inverse: singular or not alike, the inverse scales by
      the reciprocal *)
  dtrtri_scale :
    forall (A : list R) (s : R),
      0 < s -> length A = (p * p)%nat ->
      snd (dtrtri p (scale s A)) = snd (dtrtri p A) /\
      (snd (dtrtri p A) = 0%Z ->
       fst (dtrtri p (scale s A)) = scale (/ s) (fst (dtrtri p A)));
  dtrtri_length :
    forall (A : list R),
      length A = (p * p)%nat -> length (fst (dtrtri p A)) = (p * p)%nat;
  (** triangular product: linear in the triangular factor *)
  dtrmm_scale :
    forall (A B : list R) (t : R),
      length A = (p * p)%nat -> length B = (n * p)%nat ->
      dtrmm n p 1 (scale t A) B = scale t (dtrmm n p 1 A B);
  dtrmm_length :
    forall (A B : list R),
      length A = (p * p)%nat -> length B = (n * p)%nat ->
      length (dtrmm n p 1 A B) = (n * p)%nat;
  (** triangular solve: linear in the right-hand side, reciprocal in the
      factor *)
  dtrsm_scale :
    forall (tr : bool) (A B : list R) (s t : R),
      0 < s -> length A = (p * p)%nat -> length B = p ->
      dtrsm tr p 1 (scale s A) (scale t B) = scale (t / s) (dtrsm tr p 1 A B);
  dtrsm_length :
    forall (tr : bool) (A B : list R),
      length A = (p * p)%nat -> length B = p ->
      length (dtrsm tr p 1 A B) = p
}.

(** The rank check of the solver decides alike for the weights [w] and
    for the weights [c * w], whatever the subset. *)
Definition rank_agree {lapack : Lapack} (n p : nat) (x y w : list R) (c : R)
  : Prop :=
  forall (subset : list Z) (wx wy wy' ws ws' work work' beta resid : list R)
         (lw : Z),
    length wx = (n * p)%nat -> length wy = n -> length wy' = n ->
    fst (fst (fitwls (mk_regdata n p x y w wx wy ws)
                     (effective_weight n w subset) work lw beta resid))
    = fst (fst (fitwls (mk_regdata n p x y (scale c w)
                                   (scale (sqrt c) wx) wy' ws')
                       (effective_weight n (scale c w) subset) work' lw
                       beta resid)).

(** The data, the estimate, the work arrays and the state of the driver
    in two runs, the second with the weights multiplied by [c]: the
    weights and the cross-products differ by the factor [c], the
    triangular factor and the weighted design by its square root, the
    arrays have the sizes they were allocated with, and everything else
    is the same. *)
Record scaled_dat (c : R) (n p : nat) (d d' : regdata) : Prop := {
  sc_n : dat_n d = n /\ dat_n d' = n;
  sc_p : dat_p d = p /\ dat_p d' = p;
  sc_x : dat_x d' = dat_x d /\ length (dat_x d) = (n * p)%nat;
  sc_y : dat_y d' = dat_y d;
  sc_w : dat_w d' = scale c (dat_w d);
  sc_wx : dat_wx d' = scale (sqrt c) (dat_wx d) /\
          length (dat_wx d) = (n * p)%nat;
  sc_wy : length (dat_wy d) = n /\ length (dat_wy d') = n
}.

Record scaled_est (c : R) (p : nat) (e e' : estimate) : Prop := {
  sc_resid : est_resid e' = est_resid e;
  sc_beta : est_beta e' = est_beta e /\ (length (est_beta e) <= p)%nat;
  sc_dist : est_dist e' = est_dist e;
  sc_L : est_L e' = scale (sqrt c) (est_L e) /\
         length (est_L e) = (p * p)%nat;
  sc_xty : est_xty e' = scale c (est_xty e) /\ length (est_xty e) = p;
  sc_sigma : est_sigma e' = est_sigma e
}.

Record scaled_work (c : R) (n p : nat) (k k' : workarray) : Prop := {
  sc_lwork : lwork k' = lwork k;
  sc_iarray : iarray k' = iarray k;
  sc_work_p : work_p k' = scale (sqrt c) (work_p k);
  sc_work_n : work_n k' = work_n k;
  sc_work_np : length (work_np k) = (n * p)%nat /\
               length (work_np k') = (n * p)%nat;
  sc_work_pp : length (work_pp k) = (p * p)%nat /\
               length (work_pp k') = (p * p)%nat
}.

Record scaled (c : R) (n p : nat) (x y w : list R) (s s' : state)
  : Prop := {
  sc_dat : scaled_dat c n p (st_dat s) (st_dat s');
  sc_data : dat_x (st_dat s) = x /\ dat_y (st_dat s) = y /\
            dat_w (st_dat s) = w;
  sc_work : scaled_work c n p (st_work s) (st_work s');
  sc_est : scaled_est c p (st_est s) (st_est s');
  sc_subset0 : st_subset0 s' = st_subset0 s;
  sc_subset1 : st_subset1 s' = st_subset1 s;
  sc_m : st_m s' = st_m s;
  sc_maxiter : st_maxiter s' = st_maxiter s
}.

(** Two results of a loop body that may [return]: both carry on or both
    return, with related values. *)
Definition rel_sum {A A' B B' : Type} (RA : A -> A' -> Prop)
    (RB : B -> B' -> Prop) (u : A + B) (v : A' + B') : Prop :=
  match u, v with
  | inl a, inl a' => RA a a'
  | inr b, inr b' => RB b b'
  | _, _ => False
  end.

(** Two results of a loop with fuel: both run out of fuel or both
    return, with related values. *)
Definition rel_option {A A' : Type} (RA : A -> A' -> Prop) (u : option A)
    (v : option A') : Prop :=
  match u, v with
  | Some a, Some a' => RA a a'
  | None, None => True
  | _, _ => False
  end.

(** A returned status with the state it leaves, in the two runs. *)
Definition rel_ret (c : R) (n p : nat) (x y w : list R)
    (r r' : wbacon_error_type * state) : Prop :=
  fst r' = fst r /\ scaled c n p x y w (snd r) (snd r').

(** The tuple that the loop of step 0 threads (data, estimate, subset
    and its size), in the two runs. *)
Definition rel_enlarge (c : R) (n p : nat) (x y w : list R)
    (a a' : regdata * estimate * list Z * Z) : Prop :=
  let '(dat, est, subset, m) := a in
  let '(dat', est', subset', m') := a' in
  scaled_dat c n p dat dat' /\ scaled_est c p est est' /\
  (dat_x dat = x /\ dat_y dat = y /\ dat_w dat = w) /\
  subset' = subset /\ m' = m.

(** The arrays have the sizes that [wbacon_reg] allocates them with: [x]
    and [wx] hold [n * p] cells, [wy] holds [n], the factor [p * p], the
    cross-products [p], the coefficients at most [p], and the two scratch
    matrices [n * p] and [p * p]. *)
Definition well_sized (dat : regdata) (work : workarray) (est : estimate)
  : Prop :=
  let n := dat_n dat in
  let p := dat_p dat in
  length (dat_x dat) = (n * p)%nat /\
  length (dat_wx dat) = (n * p)%nat /\
  length (dat_wy dat) = n /\
  (length (est_beta est) <= p)%nat /\
  length (est_L est) = (p * p)%nat /\
  length (est_xty est) = p /\
  length (work_np work) = (n * p)%nat /\
  length (work_pp work) = (p * p)%nat.

(** The structures of a run in which every weight is [c] times what it
    is in the given run and which has come as far: the weights and the
    cross-products carry the factor [c], the weighted design, the
    triangular factor and the update vector its square root. *)
Definition rescale_dat (c : R) (d : regdata) : regdata :=
  mk_regdata (dat_n d) (dat_p d) (dat_x d) (dat_y d) (scale c (dat_w d))
             (scale (sqrt c) (dat_wx d)) (dat_wy d) (dat_w_sqrt d).

Definition rescale_est (c : R) (e : estimate) : estimate :=
  mk_estimate (est_resid e) (est_beta e) (est_dist e)
              (scale (sqrt c) (est_L e)) (scale c (est_xty e)) (est_sigma e).

Definition rescale_work (c : R) (k : workarray) : workarray :=
  mk_workarray (lwork k) (iarray k) (scale (sqrt c) (work_p k)) (work_n k)
               (work_np k) (work_pp k) (dgels_work k).

Definition rescale_state (c : R) (s : state) : state :=
  mk_state (rescale_dat c (st_dat s)) (rescale_work c (st_work s))
           (rescale_est c (st_est s)) (st_subset0 s) (st_subset1 s)
           (st_m s) (st_maxiter s).

(** ** Vocabulary of the round trip of the rank-one routines *)

(** What column step [i] of either routine does once the new diagonal
    entry [a] and the two multipliers are known. *)
Definition col_step (op : R -> R -> R) (p i : nat) (a b c : R)
    (s : list R * list R) : list R * list R :=
  for_loop (i + 1) (p - (i + 1)) (offdiag_body op p i b c)
           (upd (i * (p + 1)) a (fst s), snd s).

(** The cells of the lower triangle in the columns from [lo] on. *)
Definition tri (p lo idx : nat) : Prop :=
  exists i j, (lo <= i /\ i <= j /\ j < p /\ idx = p * i + j)%nat.

(** [chol_update] and [chol_downdate] from column [lo] on, with [cnt]
    column steps before the last cell. *)
Definition chol_update_from (p lo cnt : nat) (s : list R * list R)
  : list R * list R :=
  let '(L, u) := for_loop lo cnt (update_col p) s in
  (upd (p * p - 1)
       (sqrt (POWER2 (get L (p * p - 1)) + POWER2 (get u (p - 1)))) L,
   u).

Definition chol_downdate_from (p lo cnt : nat) (s : list R * list R)
  : wbacon_error_type * (list R * list R) :=
  match for_ret lo cnt (downdate_col p) s with
  | inr s => (WBACON_ERROR_RANK_DEFICIENT, s)
  | inl (L, u) =>
      let a := POWER2 (get L (p * p - 1)) - POWER2 (get u (p - 1)) in
      if Rltb a 0 then (WBACON_ERROR_RANK_DEFICIENT, (L, u))
      else (WBACON_ERROR_OK, (upd (p * p - 1) (sqrt a) L, u))
  end.

(** ** Sums *)

(** [f 0 + f 1 + ... + f (k - 1)]. *)
Fixpoint sum_upto (f : nat -> R) (k : nat) : R :=
  match k with
  | O => 0
  | S k' => sum_upto f k' + f k'
  end.

(** The solver call of the driver under rescaled weights: called on the
    structures of two runs, the second with the weights multiplied by
    [c], it returns the same [info] and leaves structures that differ in
    the same way, without touching [x], [y] and [w]. *)
Definition fit_rescales {fit : FitDriver} (c : R) (n p : nat)
    (x y w : list R) : Prop :=
  forall (dat dat' : regdata) (est est' : estimate) (subset : list Z)
         (work work' : list R) (lw : Z),
    scaled_dat c n p dat dat' -> scaled_est c p est est' ->
    dat_x dat = x -> dat_y dat = y -> dat_w dat = w ->
    let r := fitwls_est dat est subset work lw in
    let r' := fitwls_est dat' est' subset work' lw in
    fst (fst r') = fst (fst r) /\
    scaled_dat c n p (snd (fst r)) (snd (fst r')) /\
    scaled_est c p (snd r) (snd r') /\
    dat_x (snd (fst r)) = x /\ dat_y (snd (fst r)) = y /\
    dat_w (snd (fst r)) = w.

(** Two results of [wbacon_reg] that agree on everything but [x] (which
    receives the QR factor of the last fit): the success flag, the
    iteration count, the subset and its size, the coefficients, the
    residuals and the scores. *)
Definition same_outputs (r r' : result) : Prop :=
  out_success r' = out_success r /\ out_maxiter r' = out_maxiter r /\
  out_m r' = out_m r /\ out_subset0 r' = out_subset0 r /\
  out_beta r' = out_beta r /\ out_resid r' = out_resid r /\
  out_dist r' = out_dist r.
(** * Properties *)

(** ** Arrays and loops *)

Lemma length_upd {A : Type} (i : nat) (v : A) (a : list A) :
  length (upd i v a) = length a.
Proof.
  revert i; induction a as [|h t IH]; intros [|i]; simpl; auto.
Qed.

Lemma nth_upd_eq {A : Type} (i : nat) (v d : A) (a : list A) :
  (i < length a)%nat -> nth i (upd i v a) d = v.
Proof.
  revert i; induction a as [|h t IH]; intros [|i] Hi; simpl in *;
    try lia; auto.
  apply IH; lia.
Qed.

Lemma nth_upd_neq {A : Type} (i j : nat) (v d : A) (a : list A) :
  i <> j -> nth j (upd i v a) d = nth j a d.
Proof.
  revert i j; induction a as [|h t IH]; intros [|i] [|j] Hij; simpl;
    try congruence; auto.
Qed.

Lemma get_upd_eq (i : nat) (v : R) (a : list R) :
  (i < length a)%nat -> get (upd i v a) i = v.
Proof. apply nth_upd_eq. Qed.

Lemma get_upd_neq (i j : nat) (v : R) (a : list R) :
  i <> j -> get (upd i v a) j = get a j.
Proof. apply nth_upd_neq. Qed.

Lemma geti_upd_eq (i : nat) (v : Z) (a : list Z) :
  (i < length a)%nat -> geti (upd i v a) i = v.
Proof. apply nth_upd_eq. Qed.

Lemma geti_upd_neq (i j : nat) (v : Z) (a : list Z) :
  i <> j -> geti (upd i v a) j = geti a j.
Proof. apply nth_upd_neq. Qed.

(** Copying a snapshot back over an array of the snapshot's length gives
    the snapshot, whatever the scratch array held beyond it. *)
Lemma Memcpy_restore {A : Type} (orig cur scratch : list A) (k : nat) :
  length orig = k -> length cur = k ->
  Memcpy cur (Memcpy scratch orig k) k = orig.
Proof.
  intros Ho Hc. unfold Memcpy.
  rewrite (firstn_all2 orig) by lia.
  rewrite firstn_app, (firstn_all2 orig) by lia.
  rewrite Ho, Nat.sub_diag, firstn_O, app_nil_r.
  rewrite skipn_all2 by lia. apply app_nil_r.
Qed.

Lemma length_Memcpy {A : Type} (dst src : list A) (k : nat) :
  (k <= length src)%nat -> (k <= length dst)%nat ->
  length (Memcpy dst src k) = length dst.
Proof.
  intros Hs Hd. unfold Memcpy.
  rewrite length_app, length_firstn, length_skipn. lia.
Qed.

(** An invariant of the body is an invariant of the loop. *)
Lemma for_loop_inv {St : Type} (P : St -> Prop) (body : nat -> St -> St) :
  (forall i s, P s -> P (body i s)) ->
  forall cnt lo s, P s -> P (for_loop lo cnt body s).
Proof.
  intros Hb; induction cnt as [|cnt IH]; intros lo s Hs; simpl; auto.
Qed.

(** The same, when the invariant may depend on the counter. *)
Lemma for_loop_inv_idx {St : Type} (P : nat -> St -> Prop)
    (body : nat -> St -> St) :
  forall cnt lo s,
    (forall i s, (lo <= i < lo + cnt)%nat -> P i s -> P (S i) (body i s)) ->
    P lo s -> P (lo + cnt)%nat (for_loop lo cnt body s).
Proof.
  induction cnt as [|cnt IH]; intros lo s Hb Hs; simpl.
  - now rewrite Nat.add_0_r.
  - replace (lo + S cnt)%nat with (S lo + cnt)%nat by lia.
    apply IH.
    + intros i s' Hi. apply Hb. lia.
    + apply Hb; [lia | exact Hs].
Qed.

Lemma for_loop_snoc {St : Type} (body : nat -> St -> St) :
  forall cnt lo s,
    for_loop lo (S cnt) body s = body (lo + cnt)%nat (for_loop lo cnt body s).
Proof.
  induction cnt as [|cnt IH]; intros lo s.
  - simpl. now rewrite Nat.add_0_r.
  - change (for_loop lo (S (S cnt)) body s)
      with (for_loop (S lo) (S cnt) body (body lo s)).
    rewrite IH. simpl. f_equal. lia.
Qed.

(** A loop that can return, cut in two. *)
Lemma for_ret_app {St T : Type} (body : nat -> St -> St + T) :
  forall a b lo s,
    for_ret lo (a + b) body s =
    match for_ret lo a body s with
    | inl s' => for_ret (lo + a) b body s'
    | inr t => inr t
    end.
Proof.
  induction a as [|a IH]; intros b lo s; simpl.
  - now rewrite Nat.add_0_r.
  - destruct (body lo s) as [s'|t]; auto.
    rewrite IH. replace (S lo + a)%nat with (lo + S a)%nat by lia.
    reflexivity.
Qed.

(** It returns exactly when some turn, reached without a return, returns. *)
Lemma for_ret_inr_iff {St T : Type} (body : nat -> St -> St + T) :
  forall cnt lo s t,
    for_ret lo cnt body s = inr t <->
    exists k sk, (k < cnt)%nat /\ for_ret lo k body s = inl sk /\
                 body (lo + k)%nat sk = inr t.
Proof.
  induction cnt as [|cnt IH]; intros lo s t; simpl.
  - split; [discriminate | intros (k & sk & Hk & _); lia].
  - destruct (body lo s) as [s'|t'] eqn:Hb.
    + rewrite IH. split.
      * intros (k & sk & Hk & Hr & Hbk).
        exists (S k), sk. simpl. rewrite Hb.
        replace (lo + S k)%nat with (S lo + k)%nat by lia.
        repeat split; auto; lia.
      * intros (k & sk & Hk & Hr & Hbk).
        destruct k as [|k]; simpl in Hr.
        -- injection Hr as <-. rewrite Nat.add_0_r in Hbk. congruence.
        -- rewrite Hb in Hr. exists k, sk.
           replace (S lo + k)%nat with (lo + S k)%nat by lia.
           repeat split; auto; lia.
    + split.
      * intros [= <-]. exists 0%nat, s. simpl. rewrite Nat.add_0_r.
        repeat split; auto; lia.
      * intros (k & sk & Hk & Hr & Hbk).
        destruct k as [|k]; simpl in Hr.
        -- injection Hr as <-. rewrite Nat.add_0_r in Hbk. congruence.
        -- rewrite Hb in Hr. discriminate.
Qed.

(** An invariant of the body holds of whatever the loop ends with. *)
Lemma for_ret_inv {St T : Type} (P : St -> Prop) (Q : T -> Prop)
    (body : nat -> St -> St + T) :
  (forall i s, P s ->
     match body i s with inl s' => P s' | inr t => Q t end) ->
  forall cnt lo s, P s ->
    match for_ret lo cnt body s with inl s' => P s' | inr t => Q t end.
Proof.
  intros Hb; induction cnt as [|cnt IH]; intros lo s Hs; simpl; auto.
  pose proof (Hb lo s Hs) as Hstep.
  destruct (body lo s) as [s'|t]; [apply IH; exact Hstep | exact Hstep].
Qed.

Lemma Rltb_true_iff (a b : R) : Rltb a b = true <-> a < b.
Proof. unfold Rltb; destruct (Rlt_dec a b); split; auto; discriminate. Qed.

Lemma Rltb_false_iff (a b : R) : Rltb a b = false <-> b <= a.
Proof.
  unfold Rltb; destruct (Rlt_dec a b); split; intros; auto; try discriminate;
    lra.
Qed.

Lemma Rleb_true_iff (a b : R) : Rleb a b = true <-> a <= b.
Proof. unfold Rleb; destruct (Rle_dec a b); split; auto; discriminate. Qed.

Lemma Rleb_false_iff (a b : R) : Rleb a b = false <-> b < a.
Proof.
  unfold Rleb; destruct (Rle_dec a b); split; intros; auto; try discriminate;
    lra.
Qed.

(** ** The Cholesky routines *)

(** The off-diagonal loop of column [i] started at row [lo] keeps the
    lengths of both arrays and every cell of [L] before [p * i + lo]. *)
Lemma offdiag_loop_frame (op : R -> R -> R) (p i : nat) (b c : R) :
  forall cnt lo L u,
    let s := for_loop lo cnt (offdiag_body op p i b c) (L, u) in
    length (fst s) = length L /\ length (snd s) = length u /\
    forall idx, (idx < p * i + lo)%nat -> get (fst s) idx = get L idx.
Proof.
  induction cnt as [|cnt IH]; intros lo L u; simpl.
  - auto.
  - match goal with
    | |- context [for_loop (S lo) cnt _ (?L2, ?u2)] =>
        destruct (IH (S lo) L2 u2) as (HL & Hu & Hf)
    end.
    rewrite HL, Hu, !length_upd. repeat split; auto.
    intros idx Hidx. rewrite Hf by lia.
    rewrite !get_upd_neq by lia. reflexivity.
Qed.

(** Column step [i] of the update writes a hypotenuse on the diagonal and
    leaves the cells before it alone. *)
Lemma update_col_spec (p i : nat) (L u : list R) :
  let s := update_col p i (L, u) in
  length (fst s) = length L /\ length (snd s) = length u /\
  (forall idx, (idx < i * (p + 1))%nat -> get (fst s) idx = get L idx) /\
  ((i * (p + 1) < length L)%nat ->
   get (fst s) (i * (p + 1)) = hypot (get L (i * (p + 1))) (get u i)).
Proof.
  unfold update_col.
  match goal with
  | |- context [for_loop (i + 1) (p - (i + 1)) ?f (?L2, ?u2)] =>
      destruct (offdiag_loop_frame Rplus p i
                  (hypot (get L (i * (p + 1))) (get u i) / get L (i * (p + 1)))
                  (get u i / get L (i * (p + 1)))
                  (p - (i + 1)) (i + 1) L2 u2) as (HL & Hu & Hf)
  end.
  cbv zeta. rewrite HL, Hu, length_upd. repeat split; auto.
  - intros idx Hidx. rewrite Hf by lia. apply get_upd_neq. lia.
  - intros Hin. rewrite Hf by lia. apply get_upd_eq. exact Hin.
Qed.

Lemma hypot_nonneg (a b : R) : 0 <= hypot a b.
Proof. apply sqrt_pos. Qed.




(** Column step [i] of the downdate: either the tested quantity is
    negative and nothing is written, or the diagonal cell becomes its
    square root and the cells before it are left alone. *)
Lemma downdate_col_spec (p i : nat) (L u : list R) :
  match downdate_col p i (L, u) with
  | inr s => pivot p i (L, u) < 0 /\ s = (L, u)
  | inl s =>
      0 <= pivot p i (L, u) /\
      length (fst s) = length L /\ length (snd s) = length u /\
      (forall idx, (idx < i * (p + 1))%nat -> get (fst s) idx = get L idx) /\
      ((i * (p + 1) < length L)%nat ->
       get (fst s) (i * (p + 1)) = sqrt (pivot p i (L, u)))
  end.
Proof.
  unfold downdate_col, pivot. simpl fst; simpl snd.
  destruct (Rltb _ 0) eqn:Hlt.
  - apply Rltb_true_iff in Hlt. auto.
  - apply Rltb_false_iff in Hlt.
    match goal with
    | |- context [for_loop (i + 1) (p - (i + 1))
                    (offdiag_body Rminus p i ?b ?c) (?L2, ?u2)] =>
        destruct (offdiag_loop_frame Rminus p i b c
                    (p - (i + 1)) (i + 1) L2 u2) as (HL & Hu & Hf)
    end.
    cbv zeta. rewrite HL, Hu, length_upd. repeat split; auto.
    + intros idx Hidx. rewrite Hf by lia. apply get_upd_neq. lia.
    + intros Hin. rewrite Hf by lia. apply get_upd_eq. exact Hin.
Qed.

Lemma downdate_col_length (p i : nat) (s : list R * list R) :
  match downdate_col p i s with
  | inl s' | inr s' =>
      length (fst s') = length (fst s) /\ length (snd s') = length (snd s)
  end.
Proof.
  destruct s as [L u]. pose proof (downdate_col_spec p i L u) as Hs.
  destruct (downdate_col p i (L, u)) as [s'|s'].
  - tauto.
  - destruct Hs as (_ & ->). auto.
Qed.







(** A downdate that fails: 1 - 2 * 2 is negative. *)
Example chol_downdate_fails_example :
  chol_downdate [1] [2] 1 = (WBACON_ERROR_RANK_DEFICIENT, ([1], [2])).
Proof.
  unfold chol_downdate; simpl.
  assert (Hlt : Rltb (POWER2 1 - POWER2 2) 0 = true)
    by (apply Rltb_true_iff; unfold POWER2; lra).
  unfold get; simpl. now rewrite Hlt.
Qed.

(** A downdate that succeeds: 5 * 5 - 3 * 3 = 4 * 4. *)
Example chol_downdate_succeeds_example :
  chol_downdate [5] [3] 1 = (WBACON_ERROR_OK, ([4], [3])).
Proof.
  unfold chol_downdate; simpl. unfold get; simpl.
  assert (Hlt : Rltb (POWER2 5 - POWER2 3) 0 = false)
    by (apply Rltb_false_iff; unfold POWER2; lra).
  rewrite Hlt. repeat f_equal. unfold POWER2.
  replace (5 * 5 - 3 * 3) with (4 * 4) by lra. apply sqrt_square. lra.
Qed.

(** Lengths are kept by both routines. *)
Lemma chol_update_length (p : nat) (L u : list R) :
  length (fst (chol_update L u p)) = length L /\
  length (snd (chol_update L u p)) = length u.
Proof.
  unfold chol_update.
  assert (Hinv : length (fst (for_loop 0 (p - 1) (update_col p) (L, u)))
                 = length L /\
                 length (snd (for_loop 0 (p - 1) (update_col p) (L, u)))
                 = length u).
  { apply (for_loop_inv
             (fun s => length (fst s) = length L /\ length (snd s) = length u));
      [|auto].
    intros i [L1 u1] [HL Hu]. simpl in HL, Hu.
    destruct (update_col_spec p i L1 u1) as (HL' & Hu' & _).
    split; congruence. }
  destruct (for_loop 0 (p - 1) (update_col p) (L, u)) as [L1 u1].
  simpl in *. now rewrite length_upd.
Qed.

Lemma chol_downdate_length (p : nat) (L u : list R) :
  length (fst (snd (chol_downdate L u p))) = length L /\
  length (snd (snd (chol_downdate L u p))) = length u.
Proof.
  unfold chol_downdate.
  pose proof (for_ret_inv
    (fun s : list R * list R =>
       length (fst s) = length L /\ length (snd s) = length u)
    (fun s : list R * list R =>
       length (fst s) = length L /\ length (snd s) = length u)
    (downdate_col p)) as Hinv.
  specialize (Hinv ltac:(
    intros i s [HL Hu]; pose proof (downdate_col_length p i s) as Hs;
    destruct (downdate_col p i s); destruct Hs; split; congruence)).
  specialize (Hinv (p - 1)%nat 0%nat (L, u) (conj eq_refl eq_refl)).
  destruct (for_ret 0 (p - 1) (downdate_col p) (L, u)) as [[L1 u1]|s];
    [|exact Hinv].
  simpl in Hinv. destruct (Rltb _ 0); simpl; [exact Hinv|].
  now rewrite length_upd.
Qed.

Lemma chol_downdate_status (p : nat) (L u : list R) :
  fst (chol_downdate L u p) = WBACON_ERROR_OK \/
  fst (chol_downdate L u p) = WBACON_ERROR_RANK_DEFICIENT.
Proof.
  unfold chol_downdate.
  destruct (for_ret 0 (p - 1) (downdate_col p) (L, u)) as [[L1 u1]|s];
    [|auto].
  destruct (Rltb _ 0); auto.
Qed.

(** ** The transition of the factor *)

Lemma row_update_length (op : R -> R -> R) (dat : regdata) (i : nat)
    (u xty : list R) :
  length (fst (row_update op dat i (u, xty))) = length u /\
  length (snd (row_update op dat i (u, xty))) = length xty.
Proof.
  unfold row_update.
  apply (for_loop_inv
           (fun s => length (fst s) = length u /\ length (snd s) = length xty));
    [|auto].
  intros j [u1 xty1] [Hu Hx]. simpl in *. now rewrite !length_upd.
Qed.

Lemma first_pass_length (dat : regdata) (work : workarray) (est : estimate)
    (subset0 subset1 : list Z) :
  let s := first_pass dat work est subset0 subset1 in
  length (ps_L s) = length (est_L est) /\
  length (ps_xty s) = length (est_xty est).
Proof.
  unfold first_pass.
  apply (for_loop_inv
           (fun s => length (ps_L s) = length (est_L est) /\
                     length (ps_xty s) = length (est_xty est))); [|auto].
  intros i s [HL Hx]. unfold first_pass_body.
  destruct (Z.gtb _ _).
  - pose proof (row_update_length Rplus dat i (ps_u s) (ps_xty s)) as [_ Hr].
    destruct (row_update Rplus dat i (ps_u s, ps_xty s)) as [u1 xty1].
    pose proof (chol_update_length (dat_p dat) (ps_L s) u1) as [Hc _].
    destruct (chol_update (ps_L s) u1 (dat_p dat)) as [L1 u2].
    simpl in *. split; congruence.
  - destruct (Z.ltb _ _); simpl; auto.
Qed.

(** One downdate of the second pass keeps the lengths, whether it
    succeeds or not, and can only fail with RankDeficient. *)
Lemma second_pass_body_spec (dat : regdata) (i : nat) (s : pass_state) :
  match second_pass_body dat i s with
  | inl s' =>
      length (ps_L s') = length (ps_L s) /\
      length (ps_xty s') = length (ps_xty s)
  | inr (err, s') =>
      err = WBACON_ERROR_RANK_DEFICIENT /\
      length (ps_L s') = length (ps_L s) /\
      length (ps_xty s') = length (ps_xty s)
  end.
Proof.
  unfold second_pass_body.
  pose proof (row_update_length Rminus dat
                (Z.to_nat (geti (ps_stack s) i)) (ps_u s) (ps_xty s))
    as [_ Hr].
  destruct (row_update Rminus dat _ (ps_u s, ps_xty s)) as [u1 xty1].
  pose proof (chol_downdate_length (dat_p dat) (ps_L s) u1) as [Hc _].
  pose proof (chol_downdate_status (dat_p dat) (ps_L s) u1) as Hst.
  destruct (chol_downdate (ps_L s) u1 (dat_p dat)) as [err [L1 u2]].
  simpl in *. destruct Hst as [-> | ->]; simpl; auto.
Qed.

Lemma second_pass_body_inr_iff (dat : regdata) (k : nat) (s : pass_state) :
  (exists r, second_pass_body dat k s = inr r) <-> downdate_fails dat s k.
Proof.
  unfold downdate_fails, second_pass_body.
  destruct (row_update Rminus dat _ (ps_u s, ps_xty s)) as [u1 xty1].
  simpl fst.
  destruct (chol_downdate (ps_L s) u1 (dat_p dat)) as [err [L1 u2]].
  simpl fst. destruct err; simpl; split;
    try (intros (r & Hr); discriminate); try congruence; eauto.
Qed.

(** C3. If any rank-one downdate of a subset transition fails, then on
    return the factor [L] and the cross-product vector [xty] are exactly
    what they were at entry, and the error returned is RankDeficient;
    [update_chol_xty] reports an error in no other case. *)
Theorem update_chol_xty_rollback (dat : regdata) (work : workarray)
    (est : estimate) (subset0 subset1 : list Z) :
  length (est_L est) = (dat_p dat * dat_p dat)%nat ->
  length (est_xty est) = dat_p dat ->
  let s1 := first_pass dat work est subset0 subset1 in
  let '(err, _, est') := update_chol_xty dat work est subset0 subset1 in
  (err <> WBACON_ERROR_OK <->
   exists k sk, (k < ps_n_downdate s1)%nat /\
                second_pass_at dat s1 k = Some sk /\
                downdate_fails dat sk k) /\
  (err <> WBACON_ERROR_OK ->
   err = WBACON_ERROR_RANK_DEFICIENT /\
   est_L est' = est_L est /\ est_xty est' = est_xty est).
Proof.
  intros HL Hx s1. unfold update_chol_xty.
  change (first_pass dat _ est subset0 subset1) with s1.
  pose proof (first_pass_length dat work est subset0 subset1) as [HL1 Hx1].
  fold s1 in HL1, Hx1.
  pose proof (for_ret_inv
    (fun s => length (ps_L s) = length (est_L est) /\
              length (ps_xty s) = length (est_xty est))
    (fun r : wbacon_error_type * pass_state =>
       fst r = WBACON_ERROR_RANK_DEFICIENT /\
       length (ps_L (snd r)) = length (est_L est) /\
       length (ps_xty (snd r)) = length (est_xty est))
    (second_pass_body dat)) as Hinv.
  specialize (Hinv ltac:(
    intros i s [Ha Hb]; pose proof (second_pass_body_spec dat i s) as Hs;
    destruct (second_pass_body dat i s) as [s'|[e s']]; simpl;
    intuition congruence)).
  specialize (Hinv (ps_n_downdate s1) 0%nat s1 (conj HL1 Hx1)).
  unfold second_pass.
  destruct (for_ret 0 (ps_n_downdate s1) (second_pass_body dat) s1)
    as [s2|[err s2]] eqn:Hrun.
  - split; [|congruence].
    split; [congruence|].
    intros (k & sk & Hk & Hat & Hf). exfalso.
    apply second_pass_body_inr_iff in Hf. destruct Hf as (r & Hr).
    assert (Hex : for_ret 0 (ps_n_downdate s1) (second_pass_body dat) s1
                  = inr r).
    { apply for_ret_inr_iff. exists k, sk. unfold second_pass_at in Hat.
      destruct (for_ret 0 k (second_pass_body dat) s1); [|discriminate].
      injection Hat as ->. auto. }
    congruence.
  - simpl in Hinv. destruct Hinv as (-> & HL2 & Hx2).
    split.
    + split; [intros _ | discriminate].
      apply for_ret_inr_iff in Hrun. destruct Hrun as (k & sk & Hk & Hr & Hb).
      exists k, sk. repeat split; auto.
      * unfold second_pass_at. now rewrite Hr.
      * apply second_pass_body_inr_iff. eauto.
    + intros _. split; [reflexivity|]. simpl. split.
      * apply Memcpy_restore; congruence.
      * apply Memcpy_restore; congruence.
Qed.

Lemma update_chol_xty_rollback_witness :
  let s1 := first_pass dat_1x1 work_1x1 est_1x1 [1%Z] [0%Z] in
  let '(err, _, est') :=
    update_chol_xty dat_1x1 work_1x1 est_1x1 [1%Z] [0%Z] in
  (err <> WBACON_ERROR_OK <->
   exists k sk, (k < ps_n_downdate s1)%nat /\
                second_pass_at dat_1x1 s1 k = Some sk /\
                downdate_fails dat_1x1 sk k) /\
  (err <> WBACON_ERROR_OK ->
   err = WBACON_ERROR_RANK_DEFICIENT /\
   est_L est' = est_L est_1x1 /\ est_xty est' = est_xty est_1x1).
Proof.
  apply (update_chol_xty_rollback dat_1x1 work_1x1 est_1x1 [1%Z] [0%Z]);
    reflexivity.
Defined.

(** The transition that takes the only observation out fails on this
    data, and the estimate comes back as it was. *)
Example update_chol_xty_fails_example :
  let '(err, _, est') :=
    update_chol_xty dat_1x1 work_1x1 est_1x1 [1%Z] [0%Z] in
  err = WBACON_ERROR_RANK_DEFICIENT /\ est' = est_1x1.
Proof.
  unfold update_chol_xty, first_pass, second_pass, dat_1x1, work_1x1, est_1x1.
  simpl.
  unfold first_pass_body, second_pass_body, row_update, chol_downdate. simpl.
  unfold get; simpl. rewrite sqrt_1.
  assert (Hlt : Rltb (POWER2 1 - POWER2 (2 * 1)) 0 = true)
    by (apply Rltb_true_iff; unfold POWER2; lra).
  rewrite Hlt. simpl. auto.
Qed.

(** ** Discrepancies *)

(** A loop that writes cell [i] at turn [i] with a value that does not
    depend on the array. *)
Lemma for_loop_fill {A : Type} (f : nat -> A) (d : A) :
  forall cnt lo (a : list A),
    let r := for_loop lo cnt (fun i a => upd i (f i) a) a in
    length r = length a /\
    forall i, (i < length a)%nat ->
      nth i r d = if (lo <=? i)%nat && (i <? lo + cnt)%nat then f i
                  else nth i a d.
Proof.
  induction cnt as [|cnt IH]; intros lo a; simpl.
  - split; [reflexivity|]. intros i Hi.
    destruct (lo <=? i)%nat eqn:E1, (i <? lo + 0)%nat eqn:E2; simpl; auto.
    apply Nat.leb_le in E1. apply Nat.ltb_lt in E2. lia.
  - destruct (IH (S lo) (upd lo (f lo) a)) as (Hl & Hg).
    rewrite length_upd in Hl, Hg. split; [exact Hl|].
    intros i Hi. rewrite Hg by exact Hi.
    destruct (Nat.eq_dec i lo) as [->|Hne].
    + rewrite nth_upd_eq by exact Hi.
      replace (S lo <=? lo)%nat with false by (symmetry; apply Nat.leb_gt; lia).
      replace (lo <=? lo)%nat with true by (symmetry; apply Nat.leb_le; lia).
      replace (lo <? lo + S cnt)%nat with true
        by (symmetry; apply Nat.ltb_lt; lia).
      reflexivity.
    + rewrite nth_upd_neq by auto.
      destruct (S lo <=? i)%nat eqn:E1, (lo <=? i)%nat eqn:E2,
               (i <? S lo + cnt)%nat eqn:E3, (i <? lo + S cnt)%nat eqn:E4;
        simpl; auto;
        repeat match goal with
          | H : (_ <=? _)%nat = true |- _ => apply Nat.leb_le in H
          | H : (_ <=? _)%nat = false |- _ => apply Nat.leb_gt in H
          | H : (_ <? _)%nat = true |- _ => apply Nat.ltb_lt in H
          | H : (_ <? _)%nat = false |- _ => apply Nat.ltb_ge in H
          end; lia.
Qed.

Lemma for_loop_ext {St : Type} (f g : nat -> St -> St) :
  (forall i s, f i s = g i s) ->
  forall cnt lo s, for_loop lo cnt f s = for_loop lo cnt g s.
Proof.
  intros E; induction cnt as [|cnt IH]; intros lo s; simpl; auto.
  now rewrite E, IH.
Qed.

Lemma for_ret_ext {St T : Type} (f g : nat -> St -> St + T) :
  (forall i s, f i s = g i s) ->
  forall cnt lo s, for_ret lo cnt f s = for_ret lo cnt g s.
Proof.
  intros E; induction cnt as [|cnt IH]; intros lo s; simpl; auto.
  rewrite E. destruct (g lo s); auto.
Qed.

Lemma ti_loop_get (n : nat) (resid hat : list R) (sigma : R) (subset : list Z)
    (tis : list R) (i : nat) :
  (n <= length tis)%nat -> (i < n)%nat ->
  get (ti_loop n resid hat sigma subset tis) i =
  fabs (get resid i) /
  (sigma * sqrt (1 + IZR (1 - 2 * geti subset i) * get hat i)).
Proof.
  intros Hlen Hi. unfold ti_loop, get at 1.
  destruct (for_loop_fill
    (fun i => fabs (get resid i) /
              (sigma * sqrt (1 + IZR (1 - 2 * geti subset i) * get hat i)))
    0 n 0%nat tis) as (_ & Hg).
  rewrite Hg by lia.
  replace (0 <=? i)%nat with true by (symmetry; apply Nat.leb_le; lia).
  replace (i <? 0 + n)%nat with true by (symmetry; apply Nat.ltb_lt; lia).
  reflexivity.
Qed.

(** C1. When the leverages [h] have been computed, the score of every
    observation [i] is [|resid_i| / (sigma * sqrt (1 + h_i))] if [i] is
    outside the subset ([subset[i] = 0]) and
    [|resid_i| / (sigma * sqrt (1 - h_i))] if it is inside
    ([subset[i] = 1]): the sign applied to [h_i] is [+1] outside and [-1]
    inside.  When the leverages cannot be computed, that error is returned
    and no score is written. *)
Theorem compute_ti_sign {lapack : Lapack} (dat : regdata) (work : workarray)
    (est : estimate) (subset : list Z) (m : Z) (tis : list R) :
  (dat_n dat <= length tis)%nat ->
  let h := hat_matrix dat work (est_L est) (work_n work) in
  let r := compute_ti dat work est subset m tis in
  (fst (fst h) = WBACON_ERROR_OK ->
   fst (fst r) = WBACON_ERROR_OK /\
   forall i, (i < dat_n dat)%nat ->
     (geti subset i = 0%Z ->
      get (snd r) i =
      fabs (get (est_resid est) i) / (est_sigma est * sqrt (1 + get (snd h) i)))
     /\
     (geti subset i = 1%Z ->
      get (snd r) i =
      fabs (get (est_resid est) i) / (est_sigma est * sqrt (1 - get (snd h) i))))
  /\
  (fst (fst h) <> WBACON_ERROR_OK ->
   fst (fst r) = fst (fst h) /\ snd r = tis).
Proof.
  intros Hlen h r. subst h r. unfold compute_ti.
  destruct (hat_matrix dat work (est_L est) (work_n work)) as [[herr work1] hat].
  simpl fst; simpl snd. split.
  - intros ->. simpl. split; [reflexivity|].
    intros i Hi. rewrite ti_loop_get by assumption. split; intros ->.
    + simpl. now rewrite Rmult_1_l.
    + simpl. f_equal. f_equal. f_equal. lra.
  - intros Hne. destruct herr; simpl; auto. congruence.
Qed.
Lemma Reqb_false (a b : R) : a <> b -> Reqb a b = false.
Proof. intros Hne. unfold Reqb. destruct (Req_dec_T a b); congruence. Qed.

Lemma Reqb_true (a b : R) : a = b -> Reqb a b = true.
Proof. intros He. unfold Reqb. destruct (Req_dec_T a b); congruence. Qed.

Lemma hat_matrix_4x1_ok :
  fst (fst (hat_matrix (lapack := lapack_p1) dat_4x1 work_4x1 (est_L est_4x1)
                       (work_n work_4x1))) = WBACON_ERROR_OK.
Proof.
  unfold hat_matrix. simpl.
  unfold dtrtri_p1, Memcpy, get. simpl.
  rewrite (Reqb_false 3 0) by lra. reflexivity.
Qed.

Lemma compute_ti_sign_witness :
  let h := hat_matrix (lapack := lapack_p1) dat_4x1 work_4x1 (est_L est_4x1)
                      (work_n work_4x1) in
  let r := compute_ti (lapack := lapack_p1) dat_4x1 work_4x1 est_4x1 subset_4x1 3
                      [0; 0; 0; 0] in
  fst (fst r) = WBACON_ERROR_OK /\
  forall i, (i < dat_n dat_4x1)%nat ->
    (geti subset_4x1 i = 0%Z ->
     get (snd r) i =
     fabs (get (est_resid est_4x1) i) /
     (est_sigma est_4x1 * sqrt (1 + get (snd h) i)))
    /\
    (geti subset_4x1 i = 1%Z ->
     get (snd r) i =
     fabs (get (est_resid est_4x1) i) /
     (est_sigma est_4x1 * sqrt (1 - get (snd h) i))).
Proof.
  apply (@compute_ti_sign lapack_p1 dat_4x1 work_4x1 est_4x1 subset_4x1 3
                          [0; 0; 0; 0]).
  - simpl; lia.
  - exact hat_matrix_4x1_ok.
Defined.

(** ** The weighted solve *)

Lemma rank_check_spec (n p : nat) (wx : list R) :
  match rank_check n p wx with
  | inr r =>
      r = 1%Z /\
      exists i, (i < p)%nat /\ fabs (get wx ((n + 1) * i)) < sqrt DBL_EPSILON
  | inl _ =>
      forall i, (i < p)%nat -> sqrt DBL_EPSILON <= fabs (get wx ((n + 1) * i))
  end.
Proof.
  unfold rank_check.
  destruct (for_ret 0 p _ tt) as [[]|r] eqn:Hrun.
  - intros i Hi.
    destruct (Rle_dec (sqrt DBL_EPSILON) (fabs (get wx ((n + 1) * i))))
      as [Hle|Hgt]; [exact Hle|exfalso].
    assert (Hex : for_ret 0 p
              (fun i (_ : unit) =>
                 if Rltb (fabs (get wx ((n + 1) * i))) (sqrt DBL_EPSILON)
                 then inr 1%Z else inl tt) tt = inr 1%Z).
    { apply for_ret_inr_iff. exists i.
      destruct (for_ret 0 i
              (fun i (_ : unit) =>
                 if Rltb (fabs (get wx ((n + 1) * i))) (sqrt DBL_EPSILON)
                 then inr 1%Z else inl tt) tt) as [[]|r] eqn:Hi'.
      - exists tt. repeat split; auto. simpl.
        replace (Rltb (fabs (get wx ((n + 1) * i))) (sqrt DBL_EPSILON))
          with true; [reflexivity|].
        symmetry. apply Rltb_true_iff. lra.
      - exfalso.
        assert (Hsplit : p = (i + (p - i))%nat) by lia.
        rewrite Hsplit, for_ret_app, Hi' in Hrun. discriminate. }
    congruence.
  - apply for_ret_inr_iff in Hrun.
    destruct Hrun as (k & [] & Hk & _ & Hb). simpl in Hb.
    destruct (Rltb _ _) eqn:Hlt in Hb; [|discriminate].
    injection Hb as <-. split; [reflexivity|].
    exists k. split; [exact Hk|]. now apply Rltb_true_iff.
Qed.

(** C6. After the QR-based weighted solve ([lwork >= 0]), [fitwls]
    returns nonzero if and only if some diagonal entry of the triangular
    factor, which [dgels] has left in [wx], is smaller in absolute value
    than the square root of machine epsilon; it then returns 1 and leaves
    the coefficient and residual buffers as they were. *)
Theorem fitwls_rank_deficient_iff {lapack : Lapack} (dat : regdata)
    (weight work_dgels : list R) (lwork : Z) (beta resid : list R) :
  (0 <= lwork)%Z ->
  let '(ret, dat', (beta', resid')) :=
    fitwls dat weight work_dgels lwork beta resid in
  (ret <> 0%Z <->
   exists i, (i < dat_p dat)%nat /\
             fabs (get (dat_wx dat') ((dat_n dat + 1) * i)) < sqrt DBL_EPSILON)
  /\
  (ret <> 0%Z -> ret = 1%Z /\ beta' = beta /\ resid' = resid).
Proof.
  intros Hlw. unfold fitwls.
  replace (lwork <? 0)%Z with false by (symmetry; apply Z.ltb_ge; lia).
  destruct (for_loop 0 (dat_n dat) _ (dat_wy dat, dat_wx dat)) as [wy wx].
  destruct (dgels (dat_n dat) (dat_p dat) _ wy) as [[wx' wy'] info].
  pose proof (rank_check_spec (dat_n dat) (dat_p dat) wx') as Hrc.
  destruct (rank_check (dat_n dat) (dat_p dat) wx') as [[]|r]; simpl.
  - split; [|congruence].
    split; [congruence|].
    intros (i & Hi & Hlt). specialize (Hrc i Hi). lra.
  - destruct Hrc as (-> & Hex). split; [|auto].
    split; [intros _; exact Hex | intros _; discriminate].
Qed.

Lemma fitwls_rank_deficient_iff_witness :
  let '(ret, dat', (beta', resid')) :=
    fitwls (lapack := lapack_p1) dat_4x1 [1; 1; 1; 0] [0; 0] 2 [0]
           [0; 0; 0; 0] in
  (ret <> 0%Z <->
   exists i, (i < dat_p dat_4x1)%nat /\
             fabs (get (dat_wx dat') ((dat_n dat_4x1 + 1) * i))
             < sqrt DBL_EPSILON)
  /\
  (ret <> 0%Z -> ret = 1%Z /\ beta' = [0] /\ resid' = [0; 0; 0; 0]).
Proof.
  apply (@fitwls_rank_deficient_iff lapack_p1 dat_4x1 [1; 1; 1; 0] [0; 0] 2
                                    [0] [0; 0; 0; 0]).
  lia.
Defined.

(** ** Step 2 *)

(** A scan that stops at the first index that satisfies a test. *)
Lemma for_ret_scan {T : Type} (c : nat -> bool) (g : nat -> T) :
  forall cnt lo,
    match for_ret lo cnt (fun i (_ : unit) => if c i then inr (g i) else inl tt)
                  tt with
    | inl _ => forall i, (lo <= i < lo + cnt)%nat -> c i = false
    | inr t =>
        exists i, (lo <= i < lo + cnt)%nat /\ c i = true /\ t = g i /\
                  forall j, (lo <= j < i)%nat -> c j = false
    end.
Proof.
  induction cnt as [|cnt IH]; intros lo; simpl.
  - intros i Hi; lia.
  - destruct (c lo) eqn:Hc.
    + exists lo. repeat split; auto; try lia.
    + specialize (IH (S lo)).
      destruct (for_ret (S lo) cnt _ tt) as [u|t].
      * intros i Hi. destruct (Nat.eq_dec i lo) as [->|Hne]; auto.
        apply IH. lia.
      * destruct IH as (i & Hi & Hci & Ht & Hbefore).
        exists i. repeat split; auto; try lia.
        intros j Hj. destruct (Nat.eq_dec j lo) as [->|Hne]; auto.
        apply Hbefore. lia.
Qed.

Lemma first_difference_spec (n : nat) (subset0 subset1 : list Z) :
  first_difference n subset0 subset1 = n <->
  forall i, (i < n)%nat -> geti subset0 i = geti subset1 i.
Proof.
  unfold first_difference.
  pose proof (for_ret_scan
    (fun i => negb (Z.eqb (Z.lxor (geti subset0 i) (geti subset1 i)) 0))
    (fun i => i) n 0%nat) as Hscan.
  rewrite (for_ret_ext
    (fun i (_ : unit) =>
       if Z.eqb (Z.lxor (geti subset0 i) (geti subset1 i)) 0
       then inl tt else inr i)
    (fun i (_ : unit) =>
       if negb (Z.eqb (Z.lxor (geti subset0 i) (geti subset1 i)) 0)
       then inr i else inl tt)).
  2:{ intros i u. destruct u. now destruct (Z.eqb _ 0). }
  destruct (for_ret 0 n _ tt) as [u|t].
  - split; [intros _|reflexivity].
    intros i Hi. specialize (Hscan i ltac:(lia)).
    apply negb_false_iff in Hscan. apply Z.eqb_eq in Hscan.
    apply Z.lxor_eq. exact Hscan.
  - destruct Hscan as (i & Hi & Hci & -> & _).
    apply negb_true_iff in Hci. apply Z.eqb_neq in Hci.
    split; [intros ->; lia|].
    intros Hall. exfalso. apply Hci. apply Z.lxor_eq_0_iff. apply Hall. lia.
Qed.

(** The candidate subset does not depend on the running count. *)
Lemma cutoff_subset_fst (dist : list R) (cutoff : R) :
  forall cnt lo subset1 m,
    fst (for_loop lo cnt
           (fun i '(subset1, m) =>
              if Rltb (get dist i) cutoff then (upd i 1%Z subset1, (m + 1)%Z)
              else (upd i 0%Z subset1, m))
           (subset1, m)) =
    for_loop lo cnt
      (fun i a => upd i (if Rltb (get dist i) cutoff then 1%Z else 0%Z) a)
      subset1.
Proof.
  induction cnt as [|cnt IH]; intros lo subset1 m; simpl; auto.
  destruct (Rltb (get dist lo) cutoff); apply IH.
Qed.

Lemma cutoff_subset_snd (dist : list R) (cutoff : R) :
  forall cnt subset1,
    snd (for_loop 0 cnt
           (fun i '(subset1, m) =>
              if Rltb (get dist i) cutoff then (upd i 1%Z subset1, (m + 1)%Z)
              else (upd i 0%Z subset1, m))
           (subset1, 0%Z)) =
    count_upto (fun i => Rltb (get dist i) cutoff) cnt.
Proof.
  induction cnt as [|cnt IH]; intros subset1; [reflexivity|].
  rewrite for_loop_snoc. specialize (IH subset1).
  destruct (for_loop 0 cnt _ (subset1, 0%Z)) as [a m]. simpl in *.
  destruct (Rltb (get dist cnt) cutoff); simpl; lia.
Qed.

Lemma count_upto_shift (f : nat -> bool) (n : nat) :
  count_upto f (S n) =
  ((if f 0%nat then 1 else 0) + count_upto (fun i => f (S i)) n)%Z.
Proof.
  induction n as [|n IH]; [simpl; lia|].
  change (count_upto f (S (S n)))
    with (count_upto f (S n) + if f (S n) then 1 else 0)%Z.
  rewrite IH. simpl. lia.
Qed.

(** The members of a vector of indicator values are counted by its sum. *)
Lemma cardinality_indicator (f : nat -> bool) (l : list Z) :
  (forall i, (i < length l)%nat -> geti l i = if f i then 1%Z else 0%Z) ->
  cardinality l = count_upto f (length l).
Proof.
  revert f; induction l as [|h t IH]; intros f Hf; [reflexivity|].
  cbn [length]. rewrite count_upto_shift.
  change (cardinality (h :: t)) with (h + cardinality t)%Z.
  rewrite (IH (fun i => f (S i))).
  - pose proof (Hf 0%nat ltac:(simpl; lia)) as H0. simpl in H0.
    unfold geti in H0; simpl in H0. now rewrite H0.
  - intros i Hi. apply (Hf (S i)). simpl; lia.
Qed.

Lemma cutoff_subset_spec (n : nat) (dist : list R) (cutoff : R)
    (subset1 : list Z) :
  length subset1 = n ->
  let r := cutoff_subset n dist cutoff subset1 in
  length (fst r) = n /\
  (forall i, (i < n)%nat ->
     geti (fst r) i = if Rltb (get dist i) cutoff then 1%Z else 0%Z) /\
  snd r = cardinality (fst r).
Proof.
  intros Hlen r. subst r. unfold cutoff_subset.
  rewrite cutoff_subset_fst, cutoff_subset_snd.
  destruct (for_loop_fill
    (fun i => if Rltb (get dist i) cutoff then 1%Z else 0%Z) 0%Z n 0%nat
    subset1) as (Hl & Hg).
  assert (Hget : forall i, (i < n)%nat ->
    geti (for_loop 0 n
            (fun i a => upd i (if Rltb (get dist i) cutoff then 1%Z else 0%Z) a)
            subset1) i = if Rltb (get dist i) cutoff then 1%Z else 0%Z).
  { intros i Hi. unfold geti. rewrite Hg by lia.
    replace (0 <=? i)%nat with true by (symmetry; apply Nat.leb_le; lia).
    replace (i <? 0 + n)%nat with true by (symmetry; apply Nat.ltb_lt; lia).
    reflexivity. }
  split; [congruence|]. split; [exact Hget|].
  rewrite (cardinality_indicator (fun i => Rltb (get dist i) cutoff)).
  - f_equal. congruence.
  - intros i Hi. apply Hget. congruence.
Qed.

Lemma list_eq_geti (n : nat) (a b : list Z) :
  length a = n -> length b = n ->
  (a = b <-> forall i, (i < n)%nat -> geti a i = geti b i).
Proof.
  intros Ha Hb. split; [intros ->; auto|].
  intros Hall. apply (nth_ext a b 0%Z 0%Z); [congruence|].
  intros i Hi. apply Hall. lia.
Qed.

Lemma Memcpy_all {A : Type} (dst src : list A) (n : nat) :
  length dst = n -> length src = n -> Memcpy dst src n = src.
Proof.
  intros Hd Hs. unfold Memcpy.
  rewrite firstn_all2, skipn_all2 by lia. apply app_nil_r.
Qed.

(** What the second half of a turn does, by whether the candidate subset
    is the current one. *)
Lemma reselect_spec {rmath : Rmath} (n p : nat) (alpha : R) (iter : nat)
    (s : state) :
  length (st_subset0 s) = n -> length (st_subset1 s) = n ->
  let new := fst (candidate n p alpha s) in
  let m := snd (candidate n p alpha s) in
  (new = st_subset0 s ->
   reselect n p alpha iter s =
   inr (WBACON_ERROR_OK,
        set_maxiter (set_m (set_subset1 s new) m) (Z.of_nat iter))) /\
  (new <> st_subset0 s ->
   reselect n p alpha iter s =
   inl (set_subset0 (set_m (set_subset1 s new) m) new)).
Proof.
  intros H0 H1 new m. subst new m. unfold reselect.
  destruct (cutoff_subset_spec n (est_dist (st_est s))
              (cutoff_value alpha (st_m s) p) (st_subset1 s) H1)
    as (Hlen & _ & _).
  fold (candidate n p alpha s) in Hlen.
  destruct (candidate n p alpha s) as [new m]. simpl in *.
  pose proof (first_difference_spec n (st_subset0 s) new) as Hfd.
  pose proof (list_eq_geti n (st_subset0 s) new H0 Hlen) as Heq.
  destruct (Nat.eqb_spec (first_difference n (st_subset0 s) new) n) as [E|E].
  - split; [reflexivity|]. intros Hne. exfalso. apply Hne. symmetry.
    apply Heq, Hfd, E.
  - split.
    + intros Hsame. exfalso. apply E. apply Hfd. apply Heq. now symmetry.
    + intros _. rewrite Memcpy_all by assumption. reflexivity.
Qed.

(** The first half of a turn leaves the subsets, [m] and [maxiter]
    alone. *)
Lemma refit_frame {lapack : Lapack} {fit : FitDriver} (n p : nat)
    (s : state) :
  match refit n p s with
  | inl s1 | inr (_, s1) =>
      st_subset0 s1 = st_subset0 s /\ st_subset1 s1 = st_subset1 s /\
      st_m s1 = st_m s /\ st_maxiter s1 = st_maxiter s
  end.
Proof.
  unfold refit.
  destruct (fitwls_est _ _ _ _ _) as [[info dat] est].
  destruct (negb (Z.eqb info 0)); simpl; auto.
  destruct (compute_ti _ _ _ _ _ _) as [[err work] dist].
  destruct (negb (is_ok err)); simpl; auto.
Qed.

(** ** Running the model on concrete data *)

Lemma Rltb_true (a b : R) : a < b -> Rltb a b = true.
Proof. apply Rltb_true_iff. Qed.
Lemma Rltb_false (a b : R) : b <= a -> Rltb a b = false.
Proof. apply Rltb_false_iff. Qed.

Lemma sqrt_DBL_EPSILON_le_1 : sqrt DBL_EPSILON <= 1.
Proof.
  rewrite <- sqrt_1. apply sqrt_le_1_alt. unfold DBL_EPSILON.
  pose proof (Rinv_le_contravar 1 (2 ^ 52) ltac:(lra)
                (pow_R1_Rle 2 52 ltac:(lra))) as Hle.
  now rewrite Rinv_1 in Hle.
Qed.

(** Settles one comparison of concrete numbers in the goal. *)
Ltac test_step :=
  match goal with
  | |- context [Reqb ?a ?b] =>
      first [rewrite (Reqb_false a b) by lra | rewrite (Reqb_true a b) by lra]
  | |- context [Rltb ?a ?b] =>
      first [rewrite (Rltb_false a b) by lra | rewrite (Rltb_true a b) by lra]
  | |- context [Rleb ?a ?b] =>
      first [rewrite (proj2 (Rleb_false_iff a b)) by lra
            | rewrite (proj2 (Rleb_true_iff a b)) by lra]
  end.

Ltac sqrt_is v :=
  repeat match goal with
  | |- context [sqrt ?e] =>
      lazymatch e with
      | DBL_EPSILON => fail
      | _ => replace (sqrt e) with v by (symmetry; apply sqrt_lem_1; lra)
      end
  end.

(** Settles an equation between concrete numbers. *)
Ltac real_eq := first [lra | field | field; lra].

(** Settles an equation between concrete records, lists and numbers. *)
Ltac struct_eq :=
  lazymatch goal with
  | |- @eq R _ _ => first [real_eq | apply Rmult_0_l]
  | |- _ => first [reflexivity | f_equal; struct_eq]
  end.

Lemma fitwls_4x1 :
  fitwls (lapack := lapack_p1) dat_4x1 [1; 1; 1; 0] [0; 0] 2 [1] [0; 0; 0; 9] =
  (0%Z, set_wx_wy dat_4x1 [-3; 2; 1; 0] [1; 2; 1; 0], ([1], [0; 0; 0; 0])).
Proof.
  unfold fitwls. simpl.
  unfold get; simpl. rewrite ?sqrt_1, ?sqrt_0.
  unfold dgels_p1. simpl. unfold get; simpl.
  repeat test_step. sqrt_is 3. repeat test_step.
  unfold rank_check; simpl. unfold get; simpl. unfold fabs.
  rewrite (Rltb_false (Rabs (-3))).
  2:{ pose proof sqrt_DBL_EPSILON_le_1.
      unfold Rabs; destruct (Rcase_abs _); lra. }
  unfold dgemv_p1, Memcpy, set_wx_wy; simpl. unfold get; simpl.
  struct_eq.
Qed.

Lemma refit_4x1 :
  refit (lapack := lapack_p1) (fit := fit_subset (lapack := lapack_p1))
        4 1 s_4x1 = inl s1_4x1.
Proof.
  unfold refit, s_4x1. simpl.
  change (effective_weight 4 [1; 1; 1; 1] subset_4x1) with [1; 1; 1; 0].
  rewrite fitwls_4x1. simpl.
  unfold compute_ti, hat_matrix. simpl.
  unfold dtrtri_p1, extract_L, Memcpy. simpl. unfold get; simpl.
  repeat test_step. simpl.
  unfold s1_4x1, ti_loop, dtrmm_p1, set_wx_wy, fabs, POWER2; simpl.
  unfold get, geti; simpl. rewrite Rabs_R0.
  unfold set_est, set_work, set_dat, set_dist, set_L, set_resid, set_beta,
    set_work_n, set_work_np, set_work_pp, est_4x1, work_4x1. simpl.
  struct_eq.
Qed.



(** On the four observations, with [alpha = 8/9]: the cutoff is the
    [8/9] quantile with two degrees of freedom, that is [7/4]. *)
Lemma cutoff_4x1 :
  cutoff_value (rmath := rmath_2df) (8 / 9) 3 1 = 7 / 4.
Proof.
  unfold cutoff_value, qt. simpl.
  replace (2 * (1 - 8 / 9 / 8) * (1 - (1 - 8 / 9 / 8))) with (4 / 9 * (4 / 9))
    by field.
  rewrite sqrt_square by lra. field.
Qed.


(** All four scores are below the cutoff: the candidate subset is
    everything. *)
Lemma candidate_4x1 :
  candidate (rmath := rmath_2df) 4 1 (8 / 9) s1_4x1 =
  ([1%Z; 1%Z; 1%Z; 1%Z], 4%Z).
Proof.
  unfold candidate. change (st_m s1_4x1) with 3%Z. rewrite cutoff_4x1.
  unfold cutoff_subset. simpl. unfold get; simpl.
  repeat test_step. reflexivity.
Qed.

(** After one iteration the subset has changed from three members to
    four, so one allowed iteration is not enough. *)
Example algorithm_5_fails_example :
  algorithm_5 (lapack := lapack_p1) (rmath := rmath_2df)
              (fit := fit_subset (lapack := lapack_p1)) (8 / 9) s_4x1 =
  (WBACON_ERROR_CONVERGENCE_FAILURE,
   set_subset0
     (set_m (set_subset1 s1_4x1 [1%Z; 1%Z; 1%Z; 1%Z]) 4)
     [1%Z; 1%Z; 1%Z; 1%Z]).
Proof.
  unfold algorithm_5. simpl for_ret. unfold algorithm_5_body.
  change (dat_n (st_dat s_4x1)) with 4%nat.
  change (dat_p (st_dat s_4x1)) with 1%nat.
  rewrite refit_4x1. unfold reselect. rewrite candidate_4x1.
  reflexivity.
Qed.

Lemma iteration_at_S {lapack : Lapack} {rmath : Rmath} {fit : FitDriver}
    (n p : nat) (alpha : R) (s : state) (j : nat) :
  iteration_at n p alpha s (S j) =
  match iteration_at n p alpha s j with
  | Some sj =>
      match algorithm_5_body n p alpha (S j) sj with
      | inl s' => Some s'
      | inr _ => None
      end
  | None => None
  end.
Proof.
  unfold iteration_at. replace (S j) with (j + 1)%nat at 1 by lia.
  rewrite for_ret_app.
  destruct (for_ret 1 j (algorithm_5_body n p alpha) s) as [sj|r]; auto.
  simpl. destruct (algorithm_5_body n p alpha (S j) sj); auto.
Qed.

(** One turn that neither fails nor converges: the state it hands on. *)
Lemma algorithm_5_body_continue {lapack : Lapack} {rmath : Rmath}
    {fit : FitDriver} (n p : nat) (alpha : R) (iter : nat) (s s1 : state) :
  length (st_subset0 s) = n -> length (st_subset1 s) = n ->
  refit n p s = inl s1 ->
  fst (candidate n p alpha s1) <> st_subset0 s1 ->
  let new := fst (candidate n p alpha s1) in
  let m := snd (candidate n p alpha s1) in
  algorithm_5_body n p alpha iter s =
  inl (set_subset0 (set_m (set_subset1 s1 new) m) new) /\
  length new = n /\ m = cardinality new.
Proof.
  intros H0 H1 Hrefit Hne new m.
  pose proof (refit_frame n p s) as Hframe. rewrite Hrefit in Hframe.
  destruct Hframe as (F0 & F1 & _).
  destruct (reselect_spec n p alpha iter s1 ltac:(congruence)
              ltac:(congruence)) as (_ & Hcont).
  destruct (cutoff_subset_spec n (est_dist (st_est s1))
              (cutoff_value alpha (st_m s1) p) (st_subset1 s1)
              ltac:(congruence)) as (Hlen & _ & Hcard).
  unfold algorithm_5_body. rewrite Hrefit. split; [|split].
  - apply Hcont. exact Hne.
  - exact Hlen.
  - exact Hcard.
Qed.

(** While no turn converges, every turn is reached, with subset arrays of
    full length and [maxiter] untouched. *)
Lemma never_converges_reaches {lapack : Lapack} {rmath : Rmath}
    {fit : FitDriver} (n p : nat) (alpha : R) (s : state) (k : nat) :
  length (st_subset0 s) = n -> length (st_subset1 s) = n ->
  never_converges n p alpha s k ->
  forall j, (j <= k)%nat ->
    exists sj, iteration_at n p alpha s j = Some sj /\
               length (st_subset0 sj) = n /\ length (st_subset1 sj) = n /\
               st_maxiter sj = st_maxiter s.
Proof.
  intros H0 H1 Hnc. induction j as [|j IH]; intros Hj.
  - exists s. repeat split; auto.
  - destruct (IH ltac:(lia)) as (sj & Hat & L0 & L1 & Hmax).
    destruct (Hnc j ltac:(lia)) as (sj0 & sj' & Hat' & Hrefit & Hne).
    assert (sj0 = sj) by congruence. subst sj0.
    destruct (algorithm_5_body_continue n p alpha (S j) sj sj' L0 L1 Hrefit Hne)
      as (Hbody & Hlen & _).
    pose proof (refit_frame n p sj) as Hframe. rewrite Hrefit in Hframe.
    destruct Hframe as (_ & _ & _ & Fmax).
    eexists. rewrite iteration_at_S, Hat, Hbody.
    split; [reflexivity|]. simpl. repeat split; auto. congruence.
Qed.

(** C8. If each of the [maxiter] iterations of the refinement completes
    and ends with a candidate subset that differs from the current one,
    [algorithm_5] returns ConvergenceFailure and the call reports
    [success = 0] ([step_2] is step 2 and the rest of [wbacon_reg]); the
    output buffers hold what the last iteration computed: the candidate
    subset and its size, and the coefficients, residuals and scores of
    the last fit. *)
Theorem step_2_convergence_failure {lapack : Lapack} {rmath : Rmath}
    {fit : FitDriver} (alpha : R) (s : state) :
  let n := dat_n (st_dat s) in
  let p := dat_p (st_dat s) in
  let k := Z.to_nat (st_maxiter s) in
  length (st_subset0 s) = n -> length (st_subset1 s) = n ->
  never_converges n p alpha (swap_subsets s) k ->
  let r := step_2 alpha s in
  fst (algorithm_5 alpha (swap_subsets s)) = WBACON_ERROR_CONVERGENCE_FAILURE /\
  out_success r = 0%Z /\
  out_maxiter r = st_maxiter s /\
  ((1 <= k)%nat ->
   exists s_last s_fit,
     iteration_at n p alpha (swap_subsets s) (k - 1) = Some s_last /\
     refit n p s_last = inl s_fit /\
     out_subset0 r = fst (candidate n p alpha s_fit) /\
     out_m r = cardinality (out_subset0 r) /\
     out_beta r = est_beta (st_est s_fit) /\
     out_resid r = est_resid (st_est s_fit) /\
     out_dist r = est_dist (st_est s_fit)).
Proof.
  intros n p k H0 H1 Hnc r.
  assert (Hs0 : length (st_subset0 (swap_subsets s)) = n) by exact H1.
  assert (Hs1 : length (st_subset1 (swap_subsets s)) = n) by exact H0.
  destruct (never_converges_reaches n p alpha (swap_subsets s) k Hs0 Hs1 Hnc
              k (le_n k)) as (s_end & Hend & _ & _ & Hmax).
  assert (Halg : algorithm_5 alpha (swap_subsets s) =
                 (WBACON_ERROR_CONVERGENCE_FAILURE, s_end)).
  { unfold algorithm_5. unfold iteration_at in Hend.
    change (dat_n (st_dat (swap_subsets s))) with n.
    change (dat_p (st_dat (swap_subsets s))) with p.
    change (Z.to_nat (st_maxiter (swap_subsets s))) with k.
    destruct (for_ret 1 k (algorithm_5_body n p alpha) (swap_subsets s));
      [|discriminate].
    injection Hend as ->. reflexivity. }
  subst r. unfold step_2. rewrite Halg. simpl.
  split; [reflexivity|]. split; [reflexivity|]. split; [exact Hmax|].
  intros Hk.
  destruct (never_converges_reaches n p alpha (swap_subsets s) k Hs0 Hs1 Hnc
              (k - 1)%nat ltac:(lia)) as (s_last & Hlast & L0 & L1 & _).
  destruct (Hnc (k - 1)%nat ltac:(lia)) as (sj & s_fit & Hat & Hrefit & Hne).
  assert (sj = s_last) by congruence. subst sj.
  destruct (algorithm_5_body_continue n p alpha (S (k - 1)) s_last s_fit L0 L1
              Hrefit Hne) as (Hbody & _ & Hcard).
  assert (Hend' : iteration_at n p alpha (swap_subsets s) (S (k - 1))
                  = Some s_end).
  { replace (S (k - 1)) with k by lia. exact Hend. }
  rewrite iteration_at_S, Hlast, Hbody in Hend'. injection Hend' as <-.
  exists s_last, s_fit. simpl. repeat split; auto.
Qed.

Lemma never_converges_4x1 :
  never_converges (lapack := lapack_p1) (rmath := rmath_2df)
    (fit := fit_subset (lapack := lapack_p1)) 4 1 (8 / 9)
    (swap_subsets s_4x1) 1.
Proof.
  intros j Hj. assert (j = 0%nat) by lia. subst j.
  exists s_4x1, s1_4x1. split; [reflexivity|]. split; [exact refit_4x1|].
  rewrite candidate_4x1. simpl. unfold subset_4x1. discriminate.
Qed.

Lemma step_2_convergence_failure_witness :
  let alpha := 8 / 9 in
  let r :=
    step_2 (lapack := lapack_p1) (rmath := rmath_2df)
           (fit := fit_subset (lapack := lapack_p1)) alpha s_4x1 in
  fst (algorithm_5 (lapack := lapack_p1) (rmath := rmath_2df)
         (fit := fit_subset (lapack := lapack_p1)) alpha (swap_subsets s_4x1))
  = WBACON_ERROR_CONVERGENCE_FAILURE /\
  out_success r = 0%Z /\
  out_maxiter r = st_maxiter s_4x1 /\
  ((1 <= Z.to_nat (st_maxiter s_4x1))%nat ->
   exists s_last s_fit,
     iteration_at (lapack := lapack_p1) (rmath := rmath_2df)
       (fit := fit_subset (lapack := lapack_p1)) 4 1 alpha
       (swap_subsets s_4x1) (Z.to_nat (st_maxiter s_4x1) - 1) = Some s_last /\
     refit (lapack := lapack_p1) (fit := fit_subset (lapack := lapack_p1))
       4 1 s_last = inl s_fit /\
     out_subset0 r = fst (candidate (rmath := rmath_2df) 4 1 alpha s_fit) /\
     out_m r = cardinality (out_subset0 r) /\
     out_beta r = est_beta (st_est s_fit) /\
     out_resid r = est_resid (st_est s_fit) /\
     out_dist r = est_dist (st_est s_fit)).
Proof.
  apply (@step_2_convergence_failure lapack_p1 rmath_2df
           (fit_subset (lapack := lapack_p1)) (8 / 9) s_4x1).
  - reflexivity.
  - reflexivity.
  - exact never_converges_4x1.
Defined.

(** The same run seen from the caller: failure is reported, the subset
    buffer holds the four-member candidate and [m] its size, and the
    coefficient, residuals and scores are those of the last fit. *)
Example step_2_fails_example :
  let r :=
    step_2 (lapack := lapack_p1) (rmath := rmath_2df)
           (fit := fit_subset (lapack := lapack_p1)) (8 / 9) s_4x1 in
  out_success r = 0%Z /\
  out_subset0 r = [1%Z; 1%Z; 1%Z; 1%Z] /\ out_m r = 4%Z /\
  out_beta r = [1] /\ out_resid r = [0; 0; 0; 0] /\
  out_dist r = [0; 0; 0; 0] /\ out_maxiter r = 1%Z.
Proof.
  unfold step_2.
  change (swap_subsets s_4x1) with s_4x1.
  rewrite algorithm_5_fails_example. simpl. repeat split; reflexivity.
Qed.

(** ** The selector *)

Lemma insert_by_perm {A : Type} (key : A -> R) (a : A) (l : list A) :
  Permutation (a :: l) (insert_by key a l).
Proof.
  induction l as [|h t IH]; simpl; [apply Permutation_refl|].
  destruct (Rleb (key a) (key h)); [apply Permutation_refl|].
  eapply perm_trans; [apply perm_swap|]. now apply perm_skip.
Qed.

Lemma isort_by_perm {A : Type} (key : A -> R) (l : list A) :
  Permutation l (isort_by key l).
Proof.
  induction l as [|h t IH]; simpl; [apply perm_nil|].
  eapply perm_trans; [|apply insert_by_perm]. now apply perm_skip.
Qed.

Lemma insert_ascending (a : R) (l : list R) :
  ascending l -> ascending (insert_by (fun v => v) a l).
Proof.
  induction 1 as [|h t Hh Ht IH]; simpl.
  - constructor; [intros v []|constructor].
  - destruct (Rleb a h) eqn:Hle.
    + apply Rleb_true_iff in Hle. constructor.
      * intros v [<-|Hv]; [exact Hle|]. specialize (Hh v Hv). lra.
      * now constructor.
    + apply Rleb_false_iff in Hle. constructor; [|exact IH].
      intros v Hv.
      apply (Permutation_in v (Permutation_sym (insert_by_perm _ a t))) in Hv.
      destruct Hv as [<-|Hv]; [lra | now apply Hh].
Qed.

Lemma isort_ascending (l : list R) : ascending (isort_by (fun v => v) l).
Proof.
  induction l as [|h t IH]; simpl; [constructor|].
  now apply insert_ascending.
Qed.

Lemma ascending_get (l : list R) :
  ascending l ->
  forall i j, (i <= j < length l)%nat -> get l i <= get l j.
Proof.
  induction 1 as [|h t Hh Ht IH]; intros i j Hij; simpl in Hij; [lia|].
  destruct i as [|i], j as [|j]; unfold get in *; simpl; try lia.
  - lra.
  - apply Hh. apply nth_In. lia.
  - apply IH. lia.
Qed.

(** The reference routine meets the contract. *)
Lemma select_k_ref_contract : select_k_contract (psort := psort_ref).
Proof.
  intros x k Hk x'. subst x'. simpl. unfold select_k_ref.
  replace (Z.to_nat (Z.of_nat (length x) - 1 + 1)) with (length x) by lia.
  simpl. rewrite firstn_all, skipn_all, app_nil_r.
  pose proof (isort_by_perm (fun v => v) x) as Hperm.
  pose proof (Permutation_length Hperm) as Hlen.
  split; [exact Hperm|].
  split; intros i Hi; apply ascending_get;
    try apply isort_ascending; lia.
Qed.

(** Counting the cells that pass a test does not depend on their
    order. *)
Lemma filter_length_perm (f : R -> bool) (l l' : list R) :
  Permutation l l' -> length (filter f l) = length (filter f l').
Proof.
  induction 1 as [|v l l' _ IH|v v' l|l l' l'' _ IH1 _ IH2]; simpl; auto.
  - destruct (f v); simpl; congruence.
  - destruct (f v), (f v'); reflexivity.
  - congruence.
Qed.

Lemma filter_length_le_prefix (f : R -> bool) :
  forall (l : list R) (k : nat),
    (forall i, (k <= i < length l)%nat -> f (get l i) = false) ->
    (length (filter f l) <= k)%nat.
Proof.
  induction l as [|h t IH]; intros k Hk; simpl; [lia|].
  destruct k as [|k].
  - assert (Hh : f h = false) by (apply (Hk 0%nat); simpl; lia).
    rewrite Hh.
    apply (IH 0%nat). intros i Hi. apply (Hk (S i)). simpl; lia.
  - assert (Ht : (length (filter f t) <= k)%nat).
    { apply IH. intros i Hi. apply (Hk (S i)). simpl; lia. }
    destruct (f h); simpl; lia.
Qed.

Lemma filter_length_ge_prefix (f : R -> bool) :
  forall (l : list R) (k : nat),
    (k <= length l)%nat ->
    (forall i, (i < k)%nat -> f (get l i) = true) ->
    (k <= length (filter f l))%nat.
Proof.
  induction l as [|h t IH]; intros k Hlen Hk; simpl in *; [lia|].
  destruct k as [|k]; [lia|].
  assert (Hh : f h = true) by (apply (Hk 0%nat); lia).
  rewrite Hh. simpl.
  apply le_n_S. apply IH; [lia|]. intros i Hi. apply (Hk (S i)). lia.
Qed.

(** A cell that nothing to its left exceeds and nothing to its right is
    below holds the order statistic: the value a sorted copy has in the
    same cell. *)
Lemma order_statistic_unique (a b : list R) (k : nat) :
  Permutation a b -> ascending a -> (k < length b)%nat ->
  (forall i, (i <= k)%nat -> get b i <= get b k) ->
  (forall i, (k <= i < length b)%nat -> get b k <= get b i) ->
  get a k = get b k.
Proof.
  intros Hperm Hasc Hk Hlo Hhi.
  pose proof (Permutation_length Hperm) as Hlen.
  pose proof (ascending_get a Hasc) as Hmono.
  set (t := get b k).
  destruct (Rtotal_order (get a k) t) as [Hlt|[Heq|Hgt]]; [exfalso|exact Heq|exfalso].
  - (* too many cells of [a] are below [t] *)
    pose proof (filter_length_perm (fun v => Rltb v t) a b Hperm) as Hc.
    assert (Hb : (length (filter (fun v => Rltb v t) b) <= k)%nat).
    { apply filter_length_le_prefix. intros i Hi.
      apply Rltb_false_iff. apply Hhi. lia. }
    assert (Ha : (S k <= length (filter (fun v => Rltb v t) a))%nat).
    { apply filter_length_ge_prefix; [lia|]. intros i Hi.
      apply Rltb_true_iff. specialize (Hmono i k ltac:(lia)). lra. }
    lia.
  - (* too few cells of [a] are at most [t] *)
    pose proof (filter_length_perm (fun v => Rleb v t) a b Hperm) as Hc.
    assert (Hb : (S k <= length (filter (fun v => Rleb v t) b))%nat).
    { apply filter_length_ge_prefix; [lia|]. intros i Hi.
      apply Rleb_true_iff. apply Hlo. lia. }
    assert (Ha : (length (filter (fun v => Rleb v t) a) <= k)%nat).
    { apply filter_length_le_prefix. intros i Hi.
      apply Rleb_false_iff. specialize (Hmono k i ltac:(lia)). lra. }
    lia.
Qed.

(** What [select_subset] does when [select_k] keeps its contract: the
    array comes back rearranged, the cells marked are those whose value
    in the rearranged array is at most the threshold in cell [m - 1], at
    least [m] cells are marked, and the threshold is the [m]-th smallest
    score, as a sorted copy of the scores shows it. *)
Lemma select_subset_spec {psort : PartialSort} (x : list R) (subset : list Z)
    (m : Z) (n : nat) :
  select_k_contract ->
  length x = n -> length subset = n -> (1 <= m <= Z.of_nat n)%Z ->
  let x' := fst (select_subset x subset m n) in
  let subset' := snd (select_subset x subset m n) in
  let threshold := get x' (Z.to_nat (m - 1)) in
  Permutation x x' /\
  length subset' = n /\
  (forall i, (i < n)%nat ->
     geti subset' i = if Rleb (get x' i) threshold then 1%Z else 0%Z) /\
  (forall i, (i < Z.to_nat m)%nat -> geti subset' i = 1%Z) /\
  (m <= cardinality subset')%Z /\
  threshold = get (isort_by (fun v => v) x) (Z.to_nat (m - 1)).
Proof.
  intros Hc Hx Hs Hm x' subset' threshold.
  subst x' subset' threshold. unfold select_subset. simpl fst; simpl snd.
  destruct (Hc x (Z.to_nat (m - 1)) ltac:(lia)) as (Hperm & Hlo & Hhi).
  rewrite Hx in Hperm, Hlo, Hhi.
  replace (Z.of_nat (Z.to_nat (m - 1))) with (m - 1)%Z in * by lia.
  set (x' := select_k x 0 (Z.of_nat n - 1) (m - 1)) in *.
  set (f := fun i => Rleb (get x' i) (get x' (Z.to_nat (m - 1)))).
  rewrite (for_loop_ext _
             (fun i a => upd i (if f i then 1%Z else 0%Z) a)).
  2:{ intros i a. unfold f. now destruct (Rleb _ _). }
  destruct (for_loop_fill (fun i => if f i then 1%Z else 0%Z) 0%Z n 0%nat
              subset) as (Hl & Hg).
  set (subset' := for_loop 0 n _ subset) in *.
  assert (Hget : forall i, (i < n)%nat ->
            geti subset' i = if f i then 1%Z else 0%Z).
  { intros i Hi. unfold geti. rewrite Hg by lia.
    replace (0 <=? i)%nat with true by (symmetry; apply Nat.leb_le; lia).
    replace (i <? 0 + n)%nat with true by (symmetry; apply Nat.ltb_lt; lia).
    reflexivity. }
  assert (Hfirst : forall i, (i < Z.to_nat m)%nat -> f i = true).
  { intros i Hi. unfold f. apply Rleb_true_iff. apply Hlo. lia. }
  split; [exact Hperm|]. split; [congruence|]. split; [exact Hget|].
  split; [|split].
  - intros i Hi. rewrite Hget by lia. now rewrite Hfirst.
  - rewrite (cardinality_indicator f) by (intros i Hi; apply Hget; lia).
    rewrite Hl, Hs.
    assert (Hcount : forall k, (Z.to_nat m <= k)%nat ->
              (m <= count_upto f k)%Z).
    { induction k as [|k IHk]; intros Hk.
      - simpl. lia.
      - simpl. destruct (Nat.eq_dec (Z.to_nat m) (S k)) as [E|E].
        + assert (Hall : forall j, (j <= S k)%nat -> (j <= Z.to_nat m)%nat ->
                    count_upto f j = Z.of_nat j).
          { induction j as [|j IHj]; intros Hj1 Hj2; [reflexivity|].
            simpl. rewrite IHj by lia. rewrite Hfirst by lia. lia. }
          specialize (Hall (S k) (le_n _) ltac:(lia)). simpl in Hall. lia.
        + specialize (IHk ltac:(lia)). destruct (f k); lia. }
    apply Hcount. lia.
  - symmetry. apply order_statistic_unique.
    + eapply perm_trans; [apply Permutation_sym, isort_by_perm | exact Hperm].
    + apply isort_ascending.
    + rewrite <- (Permutation_length Hperm). lia.
    + intros i Hi. apply Hlo. exact Hi.
    + intros i Hi. apply Hhi. rewrite <- (Permutation_length Hperm) in Hi. lia.
Qed.

(** C5 (defect of the code).  On the scores 3, 1, 2 with target size 1 the
    selection procedure moves the smallest score, 1, into cell 0, and
    [select_subset] then marks cell 0 and nothing else: the observation
    marked is the one whose score was 3, the largest, and the observation
    whose score is the smallest is left out.  This holds for every
    [select_k] that keeps its contract. *)
Theorem select_subset_marks_moved_cells {psort : PartialSort} :
  select_k_contract ->
  let r := select_subset [3; 1; 2] [0%Z; 0%Z; 0%Z] 1 3 in
  get (fst r) 0 = 1 /\ snd r = [1%Z; 0%Z; 0%Z].
Proof.
  intros Hc r.
  destruct (select_subset_spec [3; 1; 2] [0%Z; 0%Z; 0%Z] 1 3 Hc eq_refl eq_refl
              ltac:(lia)) as (Hperm & Hlen & Hget & _).
  fold r in Hperm, Hlen, Hget.
  destruct (Hc [3; 1; 2] 0%nat ltac:(simpl; lia)) as (_ & _ & Hmin).
  assert (Hx' : fst r = select_k [3; 1; 2] 0 (Z.of_nat 3 - 1) (1 - 1))
    by reflexivity.
  simpl length in Hmin. simpl Z.of_nat in Hmin, Hx'.
  change (1 - 1)%Z with 0%Z in Hx'. rewrite <- Hx' in Hmin.
  simpl Z.to_nat in Hget.
  pose proof (Permutation_length Hperm) as Hl3.
  pose proof (Permutation_NoDup Hperm) as Hnd.
  destruct (fst r) as [|a [|b [|c [|d t]]]]; try discriminate Hl3.
  destruct (snd r) as [|s0 [|s1 [|s2 [|s3 t]]]]; try discriminate Hlen.
  clear r.
  assert (Ha : In a [3; 1; 2])
    by (apply (Permutation_in a (Permutation_sym Hperm)); simpl; auto).
  assert (Hb : In b [3; 1; 2])
    by (apply (Permutation_in b (Permutation_sym Hperm)); simpl; auto).
  assert (Hc' : In c [3; 1; 2])
    by (apply (Permutation_in c (Permutation_sym Hperm)); simpl; auto).
  assert (H1 : In 1 [a; b; c])
    by (apply (Permutation_in 1 Hperm); simpl; auto).
  assert (Hnd' : NoDup [a; b; c]).
  { apply Hnd. repeat constructor; simpl; intuition lra. }
  pose proof (Hmin 1%nat ltac:(lia)) as Hab.
  pose proof (Hmin 2%nat ltac:(lia)) as Hac.
  unfold get in Hab, Hac; simpl in Hab, Hac.
  assert (Ea : a = 1).
  { simpl in Ha, H1. destruct H1 as [E|[E|[E|[]]]]; subst;
      destruct Ha as [E|[E|[E|[]]]]; lra. }
  subst a.
  assert (Eb : 1 < b).
  { inversion Hnd' as [|? ? Hnotin _]; subst. simpl in Hnotin, Hb.
    destruct Hb as [E|[E|[E|[]]]]; subst; first [lra | tauto]. }
  assert (Ec : 1 < c).
  { inversion Hnd' as [|? ? Hnotin _]; subst. simpl in Hnotin, Hc'.
    destruct Hc' as [E|[E|[E|[]]]]; subst; first [lra | tauto]. }
  split; [reflexivity|].
  pose proof (Hget 0%nat ltac:(lia)) as G0.
  pose proof (Hget 1%nat ltac:(lia)) as G1.
  pose proof (Hget 2%nat ltac:(lia)) as G2.
  unfold get in G0, G1, G2; simpl in G0, G1, G2.
  rewrite (proj2 (Rleb_true_iff 1 1)) in G0 by lra.
  rewrite (proj2 (Rleb_false_iff b 1)) in G1 by lra.
  rewrite (proj2 (Rleb_false_iff c 1)) in G2 by lra.
  unfold geti in G0, G1, G2; simpl in G0, G1, G2. congruence.
Qed.

Lemma select_subset_marks_moved_cells_witness :
  let r :=
    select_subset (psort := psort_ref) [3; 1; 2] [0%Z; 0%Z; 0%Z] 1 3 in
  get (fst r) 0 = 1 /\ snd r = [1%Z; 0%Z; 0%Z].
Proof.
  apply (@select_subset_marks_moved_cells psort_ref).
  exact select_k_ref_contract.
Defined.

(** ** Step 1 *)

(** The run of [update_chol_xty], [grow] and the scalar routines on
    concrete data. *)
Ltac run_transition :=
  unfold update_chol_xty, first_pass, second_pass; simpl;
  unfold first_pass_body; simpl;
  unfold row_update, chol_update; simpl; unfold get; simpl;
  rewrite ?sqrt_1; unfold POWER2;
  sqrt_is 1;
  unfold second_pass_body, row_update; simpl; unfold get, geti; simpl;
  unfold chol_downdate; simpl; unfold get, POWER2; simpl;
  rewrite ?sqrt_1;
  repeat test_step; simpl.

(** C7 (defect of the code).  In the state [s_grow] the transition to
    the candidate subset [{2, 3}] fails.  The observations outside the
    candidate are 0, with score 9, and 1, with score 1: ascending order of
    the scores would add observation 1.  [algorithm_4] adds the
    observation that cell [m - 1] of the index array names, which is
    observation 0; the retry fails as well, and at [m = p * collect = 3]
    the error is returned with the candidate [{0, 2, 3}]. *)
Theorem algorithm_4_grows_by_index_array {lapack : Lapack}
    {psort : PartialSort} :
  exists s',
    algorithm_4 2 3 s_grow = Some (WBACON_ERROR_RANK_DEFICIENT, s') /\
    est_dist (st_est s') = [9; 1; 0; 0] /\
    st_subset0 s' = [1%Z; 1%Z; 0%Z; 0%Z] /\
    st_subset1 s' = [1%Z; 0%Z; 1%Z; 1%Z] /\
    st_m s' = 3%Z.
Proof.
  unfold algorithm_4, s_grow. cbn [st_dat st_work st_est st_subset0 st_subset1].
  run_transition.
  unfold grow. simpl. unfold geti; simpl.
  run_transition.
  eexists. split; [reflexivity|]. simpl. repeat split; reflexivity.
Qed.

(** The test against the ceiling is an equality made after the
    increment: a growth that begins with [m] at or above [p * collect]
    never returns the error, however long it runs. *)
Lemma grow_past_ceiling (fuel : nat) (collect : Z) :
  forall s,
    (Z.of_nat (dat_p (st_dat s)) * collect <= st_m s)%Z ->
    forall r, grow fuel collect s <> Some (inr r).
Proof.
  induction fuel as [|fuel IH]; intros s Hm r; [discriminate|].
  cbn [grow].
  destruct (update_chol_xty _ _ _ _ _) as [[err work] est].
  destruct (is_ok err); [discriminate|].
  cbn [st_dat set_est set_work set_m set_subset1 st_m].
  destruct (Z.eqb_spec (st_m s + 1) (Z.of_nat (dat_p (st_dat s)) * collect))
    as [E|E]; [lia|].
  apply IH. cbn. lia.
Qed.

(** ** Rescaling the weights *)

Lemma length_scale (c : R) (a : list R) : length (scale c a) = length a.
Proof. apply length_map. Qed.

Lemma get_scale (c : R) (a : list R) (i : nat) :
  get (scale c a) i = c * get a i.
Proof.
  unfold get, scale. revert i; induction a as [|h t IH]; intros [|i]; simpl;
    try lra; auto.
Qed.

Lemma scale_upd (c v : R) (a : list R) (i : nat) :
  scale c (upd i v a) = upd i (c * v) (scale c a).
Proof.
  unfold scale.
  revert i; induction a as [|h t IH]; intros [|i]; simpl; auto.
  now rewrite IH.
Qed.

Lemma scale_firstn (c : R) (a : list R) (k : nat) :
  scale c (firstn k a) = firstn k (scale c a).
Proof. unfold scale. symmetry. apply firstn_map. Qed.

Lemma scale_skipn (c : R) (a : list R) (k : nat) :
  scale c (skipn k a) = skipn k (scale c a).
Proof. unfold scale. symmetry. apply skipn_map. Qed.

Lemma scale_Memcpy (c : R) (dst src : list R) (k : nat) :
  scale c (Memcpy dst src k) = Memcpy (scale c dst) (scale c src) k.
Proof.
  unfold Memcpy. unfold scale at 1. rewrite map_app.
  fold (scale c (firstn k src)). fold (scale c (skipn k dst)).
  now rewrite scale_firstn, scale_skipn.
Qed.

Lemma scale_scale (c d : R) (a : list R) :
  scale c (scale d a) = scale (c * d) a.
Proof.
  unfold scale. rewrite map_map. apply map_ext. intros v. ring.
Qed.

Lemma scale_1 (a : list R) : scale 1 a = a.
Proof.
  unfold scale. rewrite <- (map_id a) at 2. apply map_ext. intros v. ring.
Qed.

Lemma scale_repeat_0 (c : R) (k : nat) : scale c (repeat 0 k) = repeat 0 k.
Proof.
  unfold scale.
  induction k as [|k IH]; simpl; [reflexivity|].
  rewrite IH. f_equal. ring.
Qed.

(** A loop whose body commutes with a map of the state commutes with
    it. *)
Lemma for_loop_map {St St' : Type} (f : St -> St') (body : nat -> St -> St)
    (body' : nat -> St' -> St') :
  (forall i x, body' i (f x) = f (body i x)) ->
  forall cnt lo x, for_loop lo cnt body' (f x) = f (for_loop lo cnt body x).
Proof.
  intros Hb; induction cnt as [|cnt IH]; intros lo x; simpl; auto.
  now rewrite Hb, IH.
Qed.


Lemma scale2_pair (s : R) (a b : list R) :
  (scale s a, scale s b) = scale2 s (a, b).
Proof. reflexivity. Qed.

Lemma for_ret_map {St St' T T' : Type} (f : St -> St') (g : T -> T')
    (body : nat -> St -> St + T) (body' : nat -> St' -> St' + T') :
  (forall i x, body' i (f x) =
     match body i x with inl y => inl (f y) | inr t => inr (g t) end) ->
  forall cnt lo x,
    for_ret lo cnt body' (f x) =
    match for_ret lo cnt body x with
    | inl y => inl (f y)
    | inr t => inr (g t)
    end.
Proof.
  intros Hb; induction cnt as [|cnt IH]; intros lo x; simpl; auto.
  rewrite Hb. destruct (body lo x); auto.
Qed.

Lemma div_scale (s a t : R) : s <> 0 -> (s * a) / (s * t) = a / t.
Proof.
  intros Hs. destruct (Req_dec t 0) as [->|Ht].
  - rewrite Rmult_0_r. unfold Rdiv. rewrite Rinv_0. ring.
  - field. split; assumption.
Qed.

Lemma sqrt_scale (s a : R) : 0 <= s -> sqrt (s * s * a) = s * sqrt a.
Proof.
  intros Hs. rewrite sqrt_mult_alt by nra. now rewrite sqrt_square.
Qed.

Lemma hypot_scale (s a b : R) :
  0 <= s -> hypot (s * a) (s * b) = s * hypot a b.
Proof.
  intros Hs. unfold hypot. rewrite <- sqrt_scale by assumption.
  f_equal. ring.
Qed.

Lemma Rltb_scale (s a : R) : 0 < s -> Rltb (s * a) 0 = Rltb a 0.
Proof.
  intros Hs. unfold Rltb.
  destruct (Rlt_dec (s * a) 0), (Rlt_dec a 0); auto; exfalso; nra.
Qed.

(** *** The factor under a rescaling of its inputs *)

Lemma offdiag_body_scale (op : R -> R -> R) (s : R) (p i : nat) (b c : R)
    (j : nat) (st : list R * list R) :
  op = Rplus \/ op = Rminus ->
  offdiag_body op p i b c j (scale2 s st)
  = scale2 s (offdiag_body op p i b c j st).
Proof.
  intros Hop. destruct st as [L u]. unfold offdiag_body, scale2.
  cbn [fst snd]. set (k := (p * i + j)%nat).
  assert (E1 : upd k (op (get (scale s L) k) (c * get (scale s u) j))
                   (scale s L)
               = scale s (upd k (op (get L k) (c * get u j)) L)).
  { rewrite scale_upd, !get_scale. f_equal.
    destruct Hop as [-> | ->]; ring. }
  rewrite E1. set (L1 := upd k (op (get L k) (c * get u j)) L).
  assert (E2 : upd k (get (scale s L1) k / b) (scale s L1)
               = scale s (upd k (get L1 k / b) L1)).
  { rewrite scale_upd, get_scale. f_equal. unfold Rdiv. ring. }
  rewrite E2. set (L2 := upd k (get L1 k / b) L1).
  apply f_equal2; [reflexivity|].
  rewrite scale_upd, !get_scale.
  apply (f_equal (fun v => upd j v (scale s u))). ring.
Qed.

Lemma update_col_scale (s : R) (p i : nat) (st : list R * list R) :
  0 < s ->
  update_col p i (scale2 s st) = scale2 s (update_col p i st).
Proof.
  intros Hs. destruct st as [L u]. unfold update_col, scale2 at 1.
  cbn [fst snd]. rewrite !get_scale.
  rewrite hypot_scale by lra. rewrite !div_scale by lra.
  rewrite <- scale_upd, scale2_pair.
  apply (for_loop_map (scale2 s)
           (offdiag_body Rplus p i _ _) (offdiag_body Rplus p i _ _)).
  intros j x. apply offdiag_body_scale. now left.
Qed.

Lemma chol_update_scale (s : R) (L u : list R) (p : nat) :
  0 < s ->
  chol_update (scale s L) (scale s u) p = scale2 s (chol_update L u p).
Proof.
  intros Hs. unfold chol_update.
  change (scale s L, scale s u) with (scale2 s (L, u)).
  rewrite (for_loop_map (scale2 s) (update_col p) (update_col p))
    by (intros; now apply update_col_scale).
  destruct (for_loop 0 (p - 1) (update_col p) (L, u)) as [L1 u1].
  unfold scale2; cbn [fst snd]. f_equal.
  rewrite scale_upd, !get_scale. f_equal.
  unfold POWER2. rewrite <- sqrt_scale by lra. f_equal. ring.
Qed.

Lemma downdate_col_scale (s : R) (p i : nat) (st : list R * list R) :
  0 < s ->
  downdate_col p i (scale2 s st) =
  match downdate_col p i st with
  | inl y => inl (scale2 s y)
  | inr t => inr (scale2 s t)
  end.
Proof.
  intros Hs. destruct st as [L u]. unfold downdate_col, scale2 at 1.
  cbn [fst snd]. rewrite !get_scale.
  replace (POWER2 (s * get L (i * (p + 1))) - POWER2 (s * get u i))
    with (s * s * (POWER2 (get L (i * (p + 1))) - POWER2 (get u i)))
    by (unfold POWER2; ring).
  rewrite Rltb_scale by nra.
  destruct (Rltb _ 0); [reflexivity|].
  f_equal. rewrite sqrt_scale by lra. rewrite !div_scale by lra.
  rewrite <- scale_upd, scale2_pair.
  apply (for_loop_map (scale2 s)
           (offdiag_body Rminus p i _ _) (offdiag_body Rminus p i _ _)).
  intros j x. apply offdiag_body_scale. now right.
Qed.

Lemma chol_downdate_scale (s : R) (L u : list R) (p : nat) :
  0 < s ->
  chol_downdate (scale s L) (scale s u) p =
  (fst (chol_downdate L u p), scale2 s (snd (chol_downdate L u p))).
Proof.
  intros Hs. unfold chol_downdate.
  change (scale s L, scale s u) with (scale2 s (L, u)).
  rewrite (for_ret_map (scale2 s) (scale2 s) (downdate_col p) (downdate_col p))
    by (intros; now apply downdate_col_scale).
  destruct (for_ret 0 (p - 1) (downdate_col p) (L, u)) as [[L1 u1]|t];
    [|reflexivity].
  unfold scale2 at 1; cbn [fst snd]. rewrite !get_scale.
  replace (POWER2 (s * get L1 (p * p - 1)) - POWER2 (s * get u1 (p - 1)))
    with (s * s * (POWER2 (get L1 (p * p - 1)) - POWER2 (get u1 (p - 1))))
    by (unfold POWER2; ring).
  rewrite Rltb_scale by nra.
  destruct (Rltb _ 0); [reflexivity|].
  cbn [fst snd]. f_equal. unfold scale2; cbn [fst snd].
  rewrite scale_upd. rewrite sqrt_scale by lra. reflexivity.
Qed.

(** *** The transition of the factor under rescaled weights *)

Lemma sqrt_mult_pos (c v : R) : 0 < c -> sqrt (c * v) = sqrt c * sqrt v.
Proof. intros Hc. apply sqrt_mult_alt. lra. Qed.

Lemma row_update_scale (op : R -> R -> R) (c : R) (n p : nat)
    (dat dat' : regdata) (i : nat) (u xty : list R) :
  0 < c -> op = Rplus \/ op = Rminus -> scaled_dat c n p dat dat' ->
  row_update op dat' i (scale (sqrt c) u, scale c xty) =
  (scale (sqrt c) (fst (row_update op dat i (u, xty))),
   scale c (snd (row_update op dat i (u, xty)))).
Proof.
  intros Hc Hop [[Hn Hn'] [Hp Hp'] [Hx _] Hy Hw _ _]. unfold row_update.
  rewrite Hn, Hn', Hp, Hp', Hx, Hy, Hw.
  refine (for_loop_map
            (fun x : list R * list R =>
               (scale (sqrt c) (fst x), scale c (snd x)))
            _ _ _ p 0%nat (u, xty)).
  intros j [u1 x1]. cbn [fst snd]. rewrite !get_scale, !scale_upd.
  rewrite sqrt_mult_pos by assumption.
  f_equal.
  - apply (f_equal (fun v => upd j v (scale (sqrt c) u1))). ring.
  - apply (f_equal (fun v => upd j v (scale c x1))).
    destruct Hop as [-> | ->]; ring.
Qed.

Lemma sqrt_pos_lt (c : R) : 0 < c -> 0 < sqrt c.
Proof. apply sqrt_lt_R0. Qed.

Lemma first_pass_body_scale (c : R) (n p : nat) (dat dat' : regdata)
    (subset0 subset1 : list Z) (i : nat) (s : pass_state) :
  0 < c -> scaled_dat c n p dat dat' ->
  first_pass_body dat' subset0 subset1 i (scale_pass c s)
  = scale_pass c (first_pass_body dat subset0 subset1 i s).
Proof.
  intros Hc Hd. unfold first_pass_body.
  destruct (Z.gtb _ _).
  - cbn [scale_pass ps_u ps_xty ps_L ps_stack ps_n_update ps_n_downdate].
    rewrite (row_update_scale Rplus c n p dat dat') by auto.
    destruct (row_update Rplus dat i (ps_u s, ps_xty s)) as [u1 x1].
    cbn [fst snd].
    destruct Hd as [_ [Hp Hp'] _ _ _ _ _]. rewrite Hp, Hp'.
    rewrite chol_update_scale by now apply sqrt_pos_lt.
    destruct (chol_update (ps_L s) u1 p) as [L2 u2]. reflexivity.
  - destruct (Z.ltb _ _); reflexivity.
Qed.

Lemma second_pass_body_scale (c : R) (n p : nat) (dat dat' : regdata)
    (i : nat) (s : pass_state) :
  0 < c -> scaled_dat c n p dat dat' ->
  second_pass_body dat' i (scale_pass c s) =
  match second_pass_body dat i s with
  | inl y => inl (scale_pass c y)
  | inr r => inr (fst r, scale_pass c (snd r))
  end.
Proof.
  intros Hc Hd. unfold second_pass_body.
  cbn [scale_pass ps_u ps_xty ps_L ps_stack ps_n_update ps_n_downdate].
  rewrite (row_update_scale Rminus c n p dat dat') by auto.
  destruct (row_update Rminus dat _ (ps_u s, ps_xty s)) as [u1 x1].
  cbn [fst snd].
  destruct Hd as [_ [Hp Hp'] _ _ _ _ _]. rewrite Hp, Hp'.
  rewrite chol_downdate_scale by now apply sqrt_pos_lt.
  destruct (chol_downdate (ps_L s) u1 p) as [err [L2 u2]].
  cbn [fst snd scale2]. destruct (is_ok err); reflexivity.
Qed.

Lemma second_pass_length (dat : regdata) (s : pass_state) :
  match second_pass dat s with
  | inl s' =>
      length (ps_L s') = length (ps_L s) /\
      length (ps_xty s') = length (ps_xty s)
  | inr r =>
      length (ps_L (snd r)) = length (ps_L s) /\
      length (ps_xty (snd r)) = length (ps_xty s)
  end.
Proof.
  unfold second_pass.
  apply (for_ret_inv
    (fun s' => length (ps_L s') = length (ps_L s) /\
               length (ps_xty s') = length (ps_xty s))
    (fun r : wbacon_error_type * pass_state =>
       length (ps_L (snd r)) = length (ps_L s) /\
       length (ps_xty (snd r)) = length (ps_xty s))
    (second_pass_body dat)); [|auto].
  intros i s0 [Ha Hb]. pose proof (second_pass_body_spec dat i s0) as Hs.
  destruct (second_pass_body dat i s0) as [s'|[e s']]; simpl;
    intuition congruence.
Qed.

Lemma first_pass_scale (c : R) (n p : nat) (dat dat' : regdata)
    (work work' : workarray) (est est' : estimate)
    (subset0 subset1 : list Z) :
  0 < c -> scaled_dat c n p dat dat' ->
  work_p work' = scale (sqrt c) (work_p work) ->
  iarray work' = iarray work ->
  est_L est' = scale (sqrt c) (est_L est) ->
  est_xty est' = scale c (est_xty est) ->
  first_pass dat' work' est' subset0 subset1
  = scale_pass c (first_pass dat work est subset0 subset1).
Proof.
  intros Hc Hd Hu Hi HL Hx. unfold first_pass.
  rewrite Hu, Hi, HL, Hx.
  destruct Hd as [[Hn Hn'] Hp Hx' Hy Hw Hwx Hwy]. rewrite Hn, Hn'.
  refine (for_loop_map (scale_pass c) _ _ _ n 0%nat
            (mk_pass (est_L est) (est_xty est) (work_p work) (iarray work)
                     0%Z 0%nat)).
  intros i s. apply (first_pass_body_scale c n p); auto.
  constructor; auto.
Qed.

Lemma second_pass_scale (c : R) (n p : nat) (dat dat' : regdata)
    (s : pass_state) :
  0 < c -> scaled_dat c n p dat dat' ->
  second_pass dat' (scale_pass c s) =
  match second_pass dat s with
  | inl y => inl (scale_pass c y)
  | inr r => inr (fst r, scale_pass c (snd r))
  end.
Proof.
  intros Hc Hd. unfold second_pass.
  change (ps_n_downdate (scale_pass c s)) with (ps_n_downdate s).
  refine (for_ret_map (scale_pass c)
            (fun r : wbacon_error_type * pass_state =>
               (fst r, scale_pass c (snd r)))
            _ _ _ (ps_n_downdate s) 0%nat s).
  intros i x. now apply (second_pass_body_scale c n p).
Qed.

Lemma update_chol_xty_scale (c : R) (n p : nat) (dat dat' : regdata)
    (work work' : workarray) (est est' : estimate)
    (subset0 subset1 : list Z) :
  0 < c -> (1 <= n)%nat ->
  scaled_dat c n p dat dat' -> scaled_work c n p work work' ->
  scaled_est c p est est' ->
  let r := update_chol_xty dat work est subset0 subset1 in
  let r' := update_chol_xty dat' work' est' subset0 subset1 in
  fst (fst r') = fst (fst r) /\
  scaled_work c n p (snd (fst r)) (snd (fst r')) /\
  scaled_est c p (snd r) (snd r').
Proof.
  intros Hc Hn1 Hd Hk He.
  pose proof Hd as [[Hn Hn'] [Hp Hp'] _ _ _ _ _].
  destruct Hk as [Hlw Hia Hwp Hwn [Hnp Hnp'] [Hpp Hpp']].
  destruct He as [Hr [Hb Hbl] Hdi [HL HLl] [Hx Hxl] Hsg].
  assert (HLl' : length (est_L est') = (p * p)%nat)
    by (rewrite HL, length_scale; exact HLl).
  assert (Hxl' : length (est_xty est') = p)
    by (rewrite Hx, length_scale; exact Hxl).
  assert (Hpn : (p <= n * p)%nat) by nia.
  unfold update_chol_xty. rewrite Hp, Hp'.
  set (w1 := set_work_np (set_work_pp work _) _).
  set (w1' := set_work_np (set_work_pp work' _) _).
  rewrite (first_pass_scale c n p dat dat' w1 w1' est est') by assumption.
  pose proof (first_pass_length dat w1 est subset0 subset1) as [HL1 Hx1].
  set (s1 := first_pass dat w1 est subset0 subset1) in *.
  rewrite (second_pass_scale c n p dat dat' s1) by assumption.
  pose proof (second_pass_length dat s1) as Hlen.
  assert (E1 : Memcpy (work_pp work) (est_L est) (p * p) = est_L est)
    by (apply Memcpy_all; assumption).
  assert (E1' : Memcpy (work_pp work') (est_L est') (p * p) = est_L est')
    by (apply Memcpy_all; assumption).
  assert (E2 : forall (a b : list R),
             length a = (n * p)%nat -> length b = p ->
             length (Memcpy a b p) = (n * p)%nat /\
             firstn p (Memcpy a b p) = b).
  { intros a b Ha Hb'. split; [rewrite length_Memcpy; lia|].
    unfold Memcpy. rewrite firstn_app, firstn_firstn, Nat.min_id.
    rewrite length_firstn, Hb', Nat.min_id, Nat.sub_diag, firstn_O.
    rewrite app_nil_r. apply firstn_all2. lia. }
  destruct (E2 _ _ Hnp Hxl) as [E3 E4].
  destruct (E2 _ _ Hnp' Hxl') as [E3' E4'].
  destruct (second_pass dat s1) as [s2|[err s2]]; cbn [fst snd] in *.
  - split; [reflexivity|]. split.
    + subst w1 w1'. constructor; cbn; auto.
      rewrite E1, E1'. split; assumption.
    + constructor; cbn; auto.
      * split; [reflexivity|]. destruct Hlen; congruence.
      * split; [reflexivity|]. destruct Hlen; congruence.
  - split; [reflexivity|]. split.
    + subst w1 w1'. constructor; cbn; auto.
      rewrite E1, E1'. split; assumption.
    + destruct Hlen as [Hl2 Hx2].
      subst w1 w1'. constructor; cbn; auto.
      * rewrite E1, E1', HL, scale_Memcpy. split; [reflexivity|].
        rewrite length_Memcpy; lia.
      * assert (F : forall a b orig : list R,
                  firstn p b = orig -> Memcpy a b p = orig ++ skipn p a)
          by (unfold Memcpy; intros a b orig <-; reflexivity).
        rewrite (F _ _ _ E4), (F _ _ _ E4'), Hx.
        split.
        -- unfold scale. rewrite map_app. f_equal.
           apply skipn_map.
        -- rewrite length_app, length_skipn. lia.
Qed.

(** *** Loops that rewrite one cell per turn *)

Lemma upd_ge {A : Type} (i : nat) (v : A) (a : list A) :
  (length a <= i)%nat -> upd i v a = a.
Proof.
  revert i; induction a as [|h t IH]; intros [|i] Hi; simpl in *;
    try lia; auto.
  f_equal. apply IH. lia.
Qed.

Lemma get_upd (i j : nat) (v : R) (a : list R) :
  get (upd i v a) j =
  if (i =? j)%nat && (j <? length a)%nat then v else get a j.
Proof.
  destruct (Nat.eqb_spec i j) as [->|Hij]; cbn [andb].
  - destruct (Nat.ltb_spec j (length a)).
    + now apply get_upd_eq.
    + now rewrite upd_ge.
  - now apply get_upd_neq.
Qed.

Lemma for_loop_pointwise (phi : nat -> R -> R) :
  forall cnt lo (a : list R),
    let r := for_loop lo cnt (fun i a => upd i (phi i (get a i)) a) a in
    length r = length a /\
    forall i, get r i =
      if (lo <=? i)%nat && (i <? lo + cnt)%nat && (i <? length a)%nat
      then phi i (get a i) else get a i.
Proof.
  induction cnt as [|cnt IH]; intros lo a; cbn zeta.
  - split; [reflexivity|]. intros i. cbn [for_loop].
    destruct (Nat.leb_spec lo i), (Nat.ltb_spec i (lo + 0));
      cbn [andb]; try reflexivity; lia.
  - cbn [for_loop].
    destruct (IH (S lo) (upd lo (phi lo (get a lo)) a)) as [Hl Hg].
    split; [now rewrite Hl, length_upd|].
    intros i. rewrite Hg, length_upd, get_upd.
    destruct (Nat.eqb_spec lo i) as [->|Hne].
    + destruct (Nat.leb_spec (S i) i); [lia|].
      destruct (Nat.leb_spec i i); [|lia].
      destruct (Nat.ltb_spec i (i + S cnt)); [|lia].
      cbn [andb]. reflexivity.
    + cbn [andb].
      destruct (Nat.leb_spec (S lo) i), (Nat.leb_spec lo i),
        (Nat.ltb_spec i (S lo + cnt)), (Nat.ltb_spec i (lo + S cnt));
        cbn [andb]; try reflexivity; lia.
Qed.

Lemma cells_refl (n : nat) (a : list R) : cells 1 n a a.
Proof.
  split; [reflexivity|]. intros i. destruct (i <? n)%nat; ring.
Qed.

Lemma cells_eq (n : nat) (a a' : list R) : cells 1 n a a' -> a' = a.
Proof.
  intros [Hl Hg]. apply (nth_ext _ _ 0 0); [exact Hl|].
  intros i _. specialize (Hg i). unfold get in Hg. rewrite Hg.
  destruct (i <? n)%nat; ring.
Qed.

Lemma pointwise_loop_cells (k k' : R) (n : nat) (phi phi' : nat -> R -> R)
    (a a' : list R) :
  cells k n a a' ->
  (forall i v, (i < n)%nat -> phi' i (k * v) = k' * phi i v) ->
  cells k' n
    (for_loop 0 n (fun i a => upd i (phi i (get a i)) a) a)
    (for_loop 0 n (fun i a => upd i (phi' i (get a i)) a) a').
Proof.
  intros [Hl Hg] Hphi.
  destruct (for_loop_pointwise phi n 0%nat a) as [Hl1 Hg1].
  destruct (for_loop_pointwise phi' n 0%nat a') as [Hl2 Hg2].
  split; [congruence|].
  intros i. rewrite Hg1, Hg2, Hl, Hg. cbn [Nat.leb Nat.add andb].
  destruct (Nat.ltb_spec i n) as [Hi|Hi]; cbn [andb]; [|reflexivity].
  destruct (Nat.ltb_spec i (length a)) as [Hia|Hia]; [now apply Hphi|].
  unfold get. rewrite nth_overflow by lia. ring.
Qed.

(** Two loops whose bodies keep a relation between their states keep
    it. *)
Lemma for_loop_rel {St St' : Type} (Rel : St -> St' -> Prop)
    (body : nat -> St -> St) (body' : nat -> St' -> St') :
  forall cnt lo x x',
    (forall i y y', (lo <= i < lo + cnt)%nat -> Rel y y' ->
                    Rel (body i y) (body' i y')) ->
    Rel x x' -> Rel (for_loop lo cnt body x) (for_loop lo cnt body' x').
Proof.
  induction cnt as [|cnt IH]; intros lo x x' Hb Hx; cbn [for_loop]; auto.
  apply IH.
  - intros i y y' Hi. apply Hb. lia.
  - apply Hb; [lia|assumption].
Qed.

(** *** Leverages, scores and coefficients under rescaled weights *)

Lemma inv_sqrt_sq (c : R) : 0 < c -> / sqrt c * / sqrt c = / c.
Proof.
  intros Hc. pose proof (sqrt_pos_lt c Hc) as Hs.
  rewrite <- Rinv_mult. now rewrite sqrt_sqrt by lra.
Qed.

Lemma hat_matrix_scale {lapack : Lapack} (c : R) (n p : nat)
    (dat dat' : regdata) (work work' : workarray) (L hat : list R) :
  0 < c -> lapack_homogeneous n p ->
  scaled_dat c n p dat dat' -> scaled_work c n p work work' ->
  length L = (p * p)%nat ->
  let r := hat_matrix dat work L hat in
  let r' := hat_matrix dat' work' (scale (sqrt c) L) hat in
  fst (fst r') = fst (fst r) /\
  scaled_work c n p (snd (fst r)) (snd (fst r')) /\
  snd r' = snd r.
Proof.
  intros Hc Hlap [[Hn Hn'] [Hp Hp'] [Hx Hxl] _ Hw _ _]
         [Hlw Hia Hwp Hwn [Hnp Hnp'] [Hpp Hpp']] HLl.
  pose proof (sqrt_pos_lt c Hc) as Hs.
  unfold hat_matrix. rewrite Hn, Hn', Hp, Hp', Hx, Hw.
  rewrite (Memcpy_all (work_pp work) L) by assumption.
  rewrite (Memcpy_all (work_pp work') (scale (sqrt c) L))
    by (rewrite ?length_scale; assumption).
  destruct (dtrtri_scale n p Hlap L (sqrt c) Hs HLl) as [Hinfo Hinv].
  pose proof (dtrtri_length n p Hlap L HLl) as Hil.
  pose proof (dtrtri_length n p Hlap (scale (sqrt c) L)) as Hil'.
  rewrite length_scale in Hil'. specialize (Hil' HLl).
  destruct (dtrtri p L) as [inv info].
  destruct (dtrtri p (scale (sqrt c) L)) as [inv' info'].
  cbn [fst snd] in *. subst info'.
  destruct (Z.eqb_spec info 0) as [E|E]; cbn [negb].
  - specialize (Hinv E). subst inv'.
    cbn [work_np set_work_pp].
    rewrite !Memcpy_all by assumption.
    rewrite (dtrmm_scale n p Hlap) by assumption.
    pose proof (dtrmm_length n p Hlap inv (dat_x dat) Hil Hxl) as Hxll.
    set (xl := dtrmm n p 1 inv (dat_x dat)) in *.
    cbn [fst snd]. split; [reflexivity|]. split.
    + constructor; cbn; auto. rewrite length_scale. auto.
    + apply cells_eq with (n := n).
      apply (pointwise_loop_cells (/ c) 1 n
               (fun i v => v * get (dat_w dat) i)
               (fun i v => v * get (scale c (dat_w dat)) i)).
      * apply (for_loop_rel (cells (/ c) n)).
        -- intros j y y' _ Hy.
           apply (pointwise_loop_cells (/ c) (/ c) n
                    (fun i v => v + POWER2 (get xl (i + j * n)))
                    (fun i v =>
                       v + POWER2 (get (scale (/ sqrt c) xl) (i + j * n))));
             [exact Hy|].
           intros i v Hi. rewrite get_scale. unfold POWER2.
           rewrite <- (inv_sqrt_sq c Hc). ring.
        -- apply (pointwise_loop_cells 1 (/ c) n
                    (fun i _ => POWER2 (get xl i))
                    (fun i _ => POWER2 (get (scale (/ sqrt c) xl) i)));
             [apply cells_refl|].
           intros i v Hi. rewrite get_scale. unfold POWER2.
           rewrite <- (inv_sqrt_sq c Hc). ring.
      * intros i v Hi. rewrite get_scale. field. lra.
  - cbn [fst snd]. split; [reflexivity|]. split; [|reflexivity].
    constructor; cbn; auto.
Qed.

Lemma compute_ti_scale {lapack : Lapack} (c : R) (n p : nat)
    (dat dat' : regdata) (work work' : workarray) (est est' : estimate)
    (subset : list Z) (m : Z) (tis : list R) :
  0 < c -> lapack_homogeneous n p ->
  scaled_dat c n p dat dat' -> scaled_work c n p work work' ->
  scaled_est c p est est' ->
  let r := compute_ti dat work est subset m tis in
  let r' := compute_ti dat' work' est' subset m tis in
  fst (fst r') = fst (fst r) /\
  scaled_work c n p (snd (fst r)) (snd (fst r')) /\
  snd r' = snd r.
Proof.
  intros Hc Hlap Hd Hk [Hr _ _ [HL HLl] _ Hsg].
  unfold compute_ti. rewrite HL, Hr, Hsg.
  destruct Hk as [Hlw Hia Hwp Hwn Hnp Hpp]. rewrite Hwn.
  pose proof (hat_matrix_scale c n p dat dat' work work' (est_L est)
                (work_n work) Hc Hlap Hd
                (Build_scaled_work c n p work work' Hlw Hia Hwp Hwn Hnp Hpp)
                HLl) as H.
  cbn zeta in H.
  destruct (hat_matrix dat work (est_L est) (work_n work))
    as [[err k1] hat1].
  destruct (hat_matrix dat' work' (scale (sqrt c) (est_L est)) (work_n work))
    as [[err' k1'] hat1'].
  cbn [fst snd] in H. destruct H as (-> & [H1 H2 H3 H4 H5 H6] & ->).
  destruct Hd as [[Hn Hn'] _ _ _ _ _ _]. rewrite Hn, Hn'.
  assert (Hk' : scaled_work c n p (set_work_n k1 hat1) (set_work_n k1' hat1))
    by (constructor; cbn; auto).
  destruct (is_ok err); cbn [negb fst snd]; auto.
Qed.

Lemma sqrt_div_self (c : R) : 0 < c -> c / sqrt c = sqrt c.
Proof.
  intros Hc. pose proof (sqrt_pos_lt c Hc) as Hs.
  rewrite <- (sqrt_sqrt c) at 1 by lra. field. lra.
Qed.

Lemma cholesky_reg_scale {lapack : Lapack} (c : R) (n p : nat)
    (L x xty beta : list R) :
  0 < c -> lapack_homogeneous n p ->
  length L = (p * p)%nat -> length xty = p -> (length beta <= p)%nat ->
  cholesky_reg (scale (sqrt c) L) x (scale c xty) beta n p
  = cholesky_reg L x xty beta n p /\
  length (cholesky_reg L x xty beta n p) = p.
Proof.
  intros Hc Hlap HL Hx Hb. pose proof (sqrt_pos_lt c Hc) as Hs.
  unfold cholesky_reg.
  assert (E : forall v : list R, length v = p -> Memcpy beta v p = v).
  { intros v Hv. unfold Memcpy.
    rewrite firstn_all2, skipn_all2 by lia. apply app_nil_r. }
  rewrite (E xty Hx), (E (scale c xty)) by (now rewrite length_scale).
  rewrite (dtrsm_scale n p Hlap false L xty (sqrt c) c) by assumption.
  pose proof (dtrsm_length n p Hlap false L xty HL Hx) as Hl1.
  rewrite sqrt_div_self by assumption.
  rewrite (dtrsm_scale n p Hlap true L _ (sqrt c) (sqrt c)) by assumption.
  replace (sqrt c / sqrt c) with 1 by (field; lra).
  rewrite scale_1. split; [reflexivity|].
  now apply (dtrsm_length n p Hlap).
Qed.

(** *** The solver under rescaled weights *)

Lemma fitwls_premultiply {lapack : Lapack} (dat : regdata)
    (weight work_dgels : list R) (lwork : Z) (beta resid : list R) :
  fitwls dat weight work_dgels lwork beta resid =
  let n := dat_n dat in
  let p := dat_p dat in
  if Z.ltb lwork 0 then (dgels_lwork n p, dat, (beta, resid))
  else
    let '(wy, wx) :=
      premultiply n p (dat_x dat) (dat_y dat) weight (dat_wy dat)
                  (dat_wx dat) in
    let '(wx, wy, info_dgels) := dgels n p wx wy in
    let dat := set_wx_wy dat wx wy in
    match rank_check n p wx with
    | inr r => (r, dat, (beta, resid))
    | inl _ =>
        let beta := Memcpy beta wy p in
        let resid := Memcpy resid (dat_y dat) n in
        let resid := dgemv n p (-1) (dat_x dat) beta 1 resid in
        (0%Z, dat, (beta, resid))
    end.
Proof.
  unfold fitwls, premultiply. cbn zeta.
  destruct (Z.ltb lwork 0); [reflexivity|].
  destruct (for_loop 0 (dat_n dat) _ (dat_wy dat, dat_wx dat)) as [wy wx].
  reflexivity.
Qed.

(** Two loops whose bodies keep a relation that depends on the counter
    keep it. *)
Lemma for_loop_rel_idx {St St' : Type} (Rel : nat -> St -> St' -> Prop)
    (body : nat -> St -> St) (body' : nat -> St' -> St') :
  forall cnt lo x x',
    (forall i y y', (lo <= i < lo + cnt)%nat -> Rel i y y' ->
                    Rel (S i) (body i y) (body' i y')) ->
    Rel lo x x' ->
    Rel (lo + cnt)%nat (for_loop lo cnt body x) (for_loop lo cnt body' x').
Proof.
  induction cnt as [|cnt IH]; intros lo x x' Hb Hx; cbn [for_loop].
  - now rewrite Nat.add_0_r.
  - replace (lo + S cnt)%nat with (S lo + cnt)%nat by lia. apply IH.
    + intros i y y' Hi. apply Hb. lia.
    + apply Hb; [lia|assumption].
Qed.

Lemma premultiply_scale (c : R) (n p : nat) (x y e wy wy' wx : list R) :
  0 < c -> length wx = (n * p)%nat -> length wy = n -> length wy' = n ->
  let r := premultiply n p x y e wy wx in
  let r' := premultiply n p x y (scale c e) wy' (scale (sqrt c) wx) in
  fst r' = scale (sqrt c) (fst r) /\ snd r' = scale (sqrt c) (snd r) /\
  length (fst r) = n /\ length (snd r) = (n * p)%nat.
Proof.
  intros Hc Hwx Hwy Hwy'. unfold premultiply.
  pose proof (for_loop_rel_idx
    (fun i (a a' : list R * list R) =>
       snd a' = scale (sqrt c) (snd a) /\ length (snd a) = (n * p)%nat /\
       length (fst a) = n /\ length (fst a') = n /\
       forall j, (j < i)%nat -> get (fst a') j = sqrt c * get (fst a) j)
    (fun i '(wy, wx) =>
       let tmp := sqrt (get e i) in
       (upd i (tmp * get y i) wy, upd i (tmp * get x i) wx))
    (fun i '(wy, wx) =>
       let tmp := sqrt (get (scale c e) i) in
       (upd i (tmp * get y i) wy, upd i (tmp * get x i) wx))
    n 0%nat (wy, wx) (wy', scale (sqrt c) wx)) as H.
  cbn [Nat.add] in H.
  destruct (for_loop 0 n _ (wy, wx)) as [wy1 wx1].
  destruct (for_loop 0 n _ (wy', scale (sqrt c) wx)) as [wy1' wx1'].
  cbn [fst snd] in *.
  destruct H as (E1 & L1 & L2 & L3 & G).
  - intros i [a b] [a' b'] Hi (E & La & Lb & Lc & Hg). cbn [fst snd] in *.
    subst b'. rewrite get_scale, sqrt_mult_pos by assumption.
    rewrite !length_upd. repeat split; auto.
    + rewrite scale_upd. apply (f_equal (fun v => upd i v _)). ring.
    + intros j Hj. rewrite !get_upd, Lb, Lc.
      destruct (Nat.eqb_spec i j) as [->|Hne]; cbn [andb].
      * destruct (Nat.ltb_spec j n); [ring|lia].
      * apply Hg. lia.
  - cbn [fst snd]. repeat split; auto. intros j Hj. lia.
  - subst wx1'. split; [|split; [|split]]; auto.
    + apply (nth_ext _ _ 0 0); [now rewrite length_scale; congruence|].
      intros j Hj. fold (get wy1' j). fold (get (scale (sqrt c) wy1) j).
      rewrite get_scale. apply G. lia.
    + refine (for_loop_map (scale (sqrt c)) _ _ _ (p - 1) 1%nat wx1).
      intros j a.
      refine (for_loop_map (scale (sqrt c)) _ _ _ n 0%nat a).
      intros i b. rewrite get_scale, sqrt_mult_pos, scale_upd by assumption.
      apply (f_equal (fun v => upd _ v _)). ring.
    + apply (for_loop_inv (fun a => length a = (n * p)%nat)); [|assumption].
      intros j a Ha.
      apply (for_loop_inv (fun a => length a = (n * p)%nat)); [|assumption].
      intros i b Hb. now rewrite length_upd.
Qed.

Lemma effective_weight_scale (c : R) (n : nat) (w : list R)
    (subset : list Z) :
  effective_weight n (scale c w) subset
  = scale c (effective_weight n w subset).
Proof.
  unfold effective_weight.
  rewrite <- (scale_repeat_0 c n) at 1.
  refine (for_loop_map (scale c) _ _ _ n 0%nat (repeat 0 n)).
  intros i a. rewrite scale_upd, get_scale.
  apply (f_equal (fun v => upd i v _)).
  destruct (Z.eqb _ 0); ring.
Qed.

Lemma rank_check_nonzero (n p : nat) (wx : list R) (r : Z) :
  rank_check n p wx = inr r -> r <> 0%Z.
Proof.
  intros H. pose proof (rank_check_spec n p wx) as Hs.
  rewrite H in Hs. destruct Hs as [-> _]. discriminate.
Qed.

Lemma sqrt_DBL_EPSILON_pos : 0 < sqrt DBL_EPSILON.
Proof.
  apply sqrt_lt_R0. unfold DBL_EPSILON. apply Rinv_0_lt_compat.
  apply pow_lt. lra.
Qed.

Lemma scaled_est_fit (c : R) (p : nat) (est est' : estimate)
    (beta resid : list R) :
  scaled_est c p est est' -> (length beta <= p)%nat ->
  scaled_est c p (set_resid (set_beta est beta) resid)
             (set_resid (set_beta est' beta) resid).
Proof.
  intros [Hr Hb Hdi HL Hxt Hsg] Hl. constructor; cbn; auto.
Qed.

Lemma length_Memcpy_le {A : Type} (dst src : list A) (k : nat) :
  (length dst <= k)%nat -> (length (Memcpy dst src k) <= k)%nat.
Proof.
  intros Hb. unfold Memcpy.
  rewrite length_app, length_firstn, length_skipn. lia.
Qed.

Lemma fitwls_scale {lapack : Lapack} (c : R) (n p : nat)
    (dat dat' : regdata) (weight work work' : list R) (lw : Z)
    (beta resid : list R) :
  0 < c -> lapack_homogeneous n p -> scaled_dat c n p dat dat' ->
  let r := fitwls dat weight work lw beta resid in
  let r' := fitwls dat' (scale c weight) work' lw beta resid in
  scaled_dat c n p (snd (fst r)) (snd (fst r')) /\
  (dat_x (snd (fst r)) = dat_x dat /\ dat_y (snd (fst r)) = dat_y dat /\
   dat_w (snd (fst r)) = dat_w dat) /\
  (fst (fst r') = fst (fst r) -> snd r' = snd r) /\
  ((length beta <= p)%nat -> (length (fst (snd r)) <= p)%nat).
Proof.
  intros Hc Hlap Hd.
  pose proof Hd as [[Hn Hn'] [Hp Hp'] [Hx Hxl] Hy Hw [Hwx Hwxl] [Hwy Hwy']].
  rewrite !fitwls_premultiply. cbn zeta.
  rewrite Hn, Hn', Hp, Hp', Hx, Hy, Hwx.
  destruct (Z.ltb lw 0).
  { cbn [fst snd]. auto 10. }
  destruct (premultiply_scale c n p (dat_x dat) (dat_y dat) weight
              (dat_wy dat) (dat_wy dat') (dat_wx dat) Hc Hwxl Hwy Hwy')
    as (E1 & E2 & L1 & L2).
  destruct (premultiply n p (dat_x dat) (dat_y dat) weight (dat_wy dat)
              (dat_wx dat)) as [wy1 wx1].
  destruct (premultiply n p (dat_x dat) (dat_y dat) (scale c weight)
              (dat_wy dat') (scale (sqrt c) (dat_wx dat))) as [wy1' wx1'].
  cbn [fst snd] in E1, E2, L1, L2. subst wy1' wx1'.
  destruct (dgels_scale n p Hlap wx1 wy1 (sqrt c) (sqrt_pos_lt c Hc) L2 L1)
    as [D1 D2].
  destruct (dgels_length n p Hlap wx1 wy1 L2 L1) as [D3 D4].
  destruct (dgels_length n p Hlap (scale (sqrt c) wx1) (scale (sqrt c) wy1))
    as [D3' D4']; rewrite ?length_scale; auto.
  destruct (dgels n p wx1 wy1) as [[wx2 wy2] info].
  destruct (dgels n p (scale (sqrt c) wx1) (scale (sqrt c) wy1))
    as [[wx2' wy2'] info'].
  cbn [fst snd] in D1, D2, D3, D4, D3', D4'. subst wx2'.
  assert (Hdat : scaled_dat c n p (set_wx_wy dat wx2 wy2)
                   (set_wx_wy dat' (scale (sqrt c) wx2) wy2'))
    by (constructor; cbn; auto).
  destruct (rank_check n p wx2) as [[]|r] eqn:R1;
    destruct (rank_check n p (scale (sqrt c) wx2)) as [[]|r'] eqn:R2;
    cbn [fst snd dat_x dat_y dat_w set_wx_wy];
    (split; [exact Hdat|]); (split; [auto|]).
  - split.
    + intros _.
      assert (Hnz : forall i, (i < p)%nat -> get wx2 ((n + 1) * i) <> 0).
      { intros i Hi. pose proof (rank_check_spec n p wx2) as Hs.
        rewrite R1 in Hs. specialize (Hs i Hi).
        pose proof sqrt_DBL_EPSILON_pos. unfold fabs in Hs.
        intros E. rewrite E, Rabs_R0 in Hs. lra. }
      specialize (D2 Hnz).
      assert (Eb : Memcpy beta wy2' p = Memcpy beta wy2 p)
        by (unfold Memcpy; now rewrite D2).
      now rewrite Eb, Hx, Hy.
    + apply length_Memcpy_le.
  - split; [|apply length_Memcpy_le].
    intros E. apply rank_check_nonzero in R2. congruence.
  - split; [|auto]. intros E. apply rank_check_nonzero in R1. congruence.
  - split; auto.
Qed.

(** What [fitwls] returns when it is not a workspace query: the verdict
    of the rank check on the factor that it leaves in [wx]. *)
Lemma fitwls_ret {lapack : Lapack} (dat : regdata)
    (weight work : list R) (lw : Z) (beta resid : list R) :
  (0 <= lw)%Z ->
  let r := fitwls dat weight work lw beta resid in
  fst (fst r) =
  match rank_check (dat_n dat) (dat_p dat) (dat_wx (snd (fst r))) with
  | inl _ => 0%Z
  | inr v => v
  end.
Proof.
  intros Hlw. rewrite fitwls_premultiply. cbn zeta.
  destruct (Z.ltb_spec lw 0); [lia|].
  destruct (premultiply _ _ _ _ _ _ _) as [wy1 wx1].
  destruct (dgels _ _ wx1 wy1) as [[wx2 wy2] info].
  destruct (rank_check _ _ wx2) as [[]|r] eqn:R1; cbn; now rewrite R1.
Qed.

Lemma fit_subset_scale {lapack : Lapack} (c : R) (n p : nat)
    (dat dat' : regdata) (est est' : estimate) (subset : list Z)
    (work work' : list R) (lw : Z) :
  0 < c -> lapack_homogeneous n p ->
  scaled_dat c n p dat dat' -> scaled_est c p est est' ->
  let r := @fitwls_est fit_subset dat est subset work lw in
  let r' := @fitwls_est fit_subset dat' est' subset work' lw in
  fst (fst r') = fst (fst r) ->
  scaled_dat c n p (snd (fst r)) (snd (fst r')) /\
  scaled_est c p (snd r) (snd r') /\
  dat_x (snd (fst r)) = dat_x dat /\ dat_y (snd (fst r)) = dat_y dat /\
  dat_w (snd (fst r)) = dat_w dat.
Proof.
  intros Hc Hlap Hd He.
  pose proof Hd as [[Hn Hn'] _ _ _ Hw _ _].
  pose proof He as [Hr [Hb Hbl] _ _ _ _].
  cbn [fitwls_est fit_subset].
  rewrite Hn, Hn', Hw, Hb, Hr, effective_weight_scale.
  pose proof (fitwls_scale c n p dat dat'
                (effective_weight n (dat_w dat) subset) work work' lw
                (est_beta est) (est_resid est) Hc Hlap Hd) as H.
  cbv zeta in H.
  destruct (fitwls dat _ work lw _ _) as [[i1 d1] [b1 r1]].
  destruct (fitwls dat' _ work' lw _ _) as [[i2 d2] [b2 r2]].
  cbn [fst snd] in *. destruct H as (H1 & H2 & H3 & H4).
  intros E. specialize (H3 E). injection H3 as -> ->.
  split; [exact H1|]. split; [|exact H2].
  apply scaled_est_fit; auto.
Qed.

Lemma rank_agree_ret {lapack : Lapack} (c : R) (n p : nat) (x y w : list R)
    (dat dat' : regdata) (est est' : estimate) (subset : list Z)
    (work work' : list R) (lw : Z) :
  rank_agree n p x y w c ->
  scaled_dat c n p dat dat' -> scaled_est c p est est' ->
  dat_x dat = x -> dat_y dat = y -> dat_w dat = w ->
  fst (fst (@fitwls_est fit_subset dat' est' subset work' lw))
  = fst (fst (@fitwls_est fit_subset dat est subset work lw)).
Proof.
  intros Hrank [[Hn Hn'] [Hp Hp'] [Hx _] Hy Hw [Hwx Hwxl] [Hwy Hwy']]
         [Hr [Hb _] _ _ _ _] Ex Ey Ew.
  cbn [fitwls_est fit_subset].
  specialize (Hrank subset (dat_wx dat) (dat_wy dat) (dat_wy dat')
                (dat_w_sqrt dat) (dat_w_sqrt dat') work work'
                (est_beta est) (est_resid est) lw Hwxl Hwy Hwy').
  destruct dat as [dn dp dx dy dw dwx dwy dws].
  destruct dat' as [dn' dp' dx' dy' dw' dwx' dwy' dws'].
  cbn in *. subst. rewrite Hb, Hr.
  destruct (fitwls _ _ work lw _ _) as [[i1 d1] [b1 r1]].
  destruct (fitwls _ _ work' lw _ _) as [[i2 d2] [b2 r2]].
  cbn in *. congruence.
Qed.

Lemma extract_L_scale (s : R) (n p : nat) (wx L : list R) :
  extract_L n p (scale s wx) (scale s L) = scale s (extract_L n p wx L) /\
  length (extract_L n p wx L) = length L.
Proof.
  unfold extract_L. split.
  - refine (for_loop_map (scale s) _ _ _ p 0%nat L).
    intros i a.
    refine (for_loop_map (scale s) _ _ _ (p - i) i a).
    intros j b. now rewrite get_scale, scale_upd.
  - apply (for_loop_inv (fun a => length a = length L)); [|reflexivity].
    intros i a Ha.
    apply (for_loop_inv (fun a => length a = length L)); [|assumption].
    intros j b Hb. now rewrite length_upd.
Qed.

Lemma accumulate_xty_scale (c : R) (n p : nat) (dat dat' : regdata)
    (subset : list Z) (xty : list R) :
  scaled_dat c n p dat dat' ->
  accumulate_xty dat' subset (scale c xty)
  = scale c (accumulate_xty dat subset xty) /\
  length (accumulate_xty dat subset xty) = length xty.
Proof.
  intros [[Hn Hn'] [Hp Hp'] [Hx _] Hy Hw _ _].
  unfold accumulate_xty. rewrite Hn, Hn', Hp, Hp', Hx, Hy, Hw. split.
  - refine (for_loop_map (scale c) _ _ _ p 0%nat xty).
    intros i a.
    refine (for_loop_map (scale c) _ _ _ n 0%nat a).
    intros j b. destruct (negb _); [|reflexivity].
    rewrite !get_scale, scale_upd.
    apply (f_equal (fun v => upd i v _)). ring.
  - apply (for_loop_inv (fun a => length a = length xty)); [|reflexivity].
    intros i a Ha.
    apply (for_loop_inv (fun a => length a = length xty)); [|assumption].
    intros j b Hb. destruct (negb _); [|assumption]. now rewrite length_upd.
Qed.

Lemma for_ret_rel {St St' T T' : Type} (RS : St -> St' -> Prop)
    (RT : T -> T' -> Prop) (body : nat -> St -> St + T)
    (body' : nat -> St' -> St' + T') :
  (forall i a a', RS a a' -> rel_sum RS RT (body i a) (body' i a')) ->
  forall cnt lo a a', RS a a' ->
    rel_sum RS RT (for_ret lo cnt body a) (for_ret lo cnt body' a').
Proof.
  intros Hb; induction cnt as [|cnt IH]; intros lo a a' Ha; cbn [for_ret].
  - exact Ha.
  - specialize (Hb lo a a' Ha).
    destruct (body lo a), (body' lo a'); cbn [rel_sum] in *;
      try contradiction; auto.
Qed.

(** *** The driver under rescaled weights *)

Lemma scaled_est_set_L (c : R) (p : nat) (e e' : estimate) (L : list R) :
  scaled_est c p e e' -> length L = (p * p)%nat ->
  scaled_est c p (set_L e L) (set_L e' (scale (sqrt c) L)).
Proof. intros [Hr Hb Hdi HL Hxt Hsg] Hl. constructor; cbn; auto. Qed.

Lemma scaled_est_set_dist (c : R) (p : nat) (e e' : estimate) (d : list R) :
  scaled_est c p e e' -> scaled_est c p (set_dist e d) (set_dist e' d).
Proof. intros [Hr Hb Hdi HL Hxt Hsg]. constructor; cbn; auto. Qed.

Lemma scaled_est_set_xty (c : R) (p : nat) (e e' : estimate) (v : list R) :
  scaled_est c p e e' -> length v = p ->
  scaled_est c p (set_xty e v) (set_xty e' (scale c v)).
Proof. intros [Hr Hb Hdi HL Hxt Hsg] Hl. constructor; cbn; auto. Qed.

Lemma scaled_est_set_beta (c : R) (p : nat) (e e' : estimate) (v : list R) :
  scaled_est c p e e' -> (length v <= p)%nat ->
  scaled_est c p (set_beta e v) (set_beta e' v).
Proof. intros [Hr Hb Hdi HL Hxt Hsg] Hl. constructor; cbn; auto. Qed.

Lemma scaled_est_set_resid (c : R) (p : nat) (e e' : estimate) (v : list R) :
  scaled_est c p e e' -> scaled_est c p (set_resid e v) (set_resid e' v).
Proof. intros [Hr Hb Hdi HL Hxt Hsg]. constructor; cbn; auto. Qed.

Section Rescaling.
Context {lapack : Lapack} {rmath : Rmath} {psort : PartialSort}
        {fit : FitDriver}.
Variables (c : R) (n p : nat) (x y w : list R).
Hypothesis Hc : 0 < c.
Hypothesis Hn1 : (1 <= n)%nat.
Hypothesis Hlap : lapack_homogeneous n p.
Hypothesis Hfit : fit_rescales c n p x y w.

Lemma refit_scale (s s' : state) :
  scaled c n p x y w s s' ->
  rel_sum (scaled c n p x y w) (rel_ret c n p x y w)
          (refit n p s) (refit n p s').
Proof.
  intros [Hd (Ex & Ey & Ew) Hk He H0 H1 Hm Hmx]. unfold refit.
  rewrite H0, (sc_lwork _ _ _ _ _ Hk).
  pose proof (Hfit _ _ _ _ (st_subset0 s) (dgels_work (st_work s)) (dgels_work (st_work s'))
                (lwork (st_work s)) Hd He Ex Ey Ew)
    as (Hret & Hd1 & He1 & Ex1 & Ey1 & Ew1).
  destruct (fitwls_est (st_dat s) _ _ _ _) as [[info d1] e1].
  destruct (fitwls_est (st_dat s') _ _ _ _) as [[info' d1'] e1'].
  cbn [fst snd] in *. subst info'.
  destruct (Z.eqb info 0); cbn [negb].
  - destruct (extract_L_scale (sqrt c) n p (dat_wx d1) (est_L e1))
      as [EL LL].
    pose proof (sc_wx _ _ _ _ _ Hd1) as [Hwx _].
    pose proof (sc_L _ _ _ _ He1) as [HL HLl].
    pose proof (sc_dist _ _ _ _ He1) as Hdi.
    rewrite Hwx, HL, EL.
    cbn [st_work st_m st_subset0 set_est set_dat est_dist set_L].
    rewrite Hdi, H0, Hm.
    assert (He2 : scaled_est c p
                    (set_L e1 (extract_L n p (dat_wx d1) (est_L e1)))
                    (set_L e1' (scale (sqrt c)
                                  (extract_L n p (dat_wx d1) (est_L e1)))))
      by (apply scaled_est_set_L; [assumption|congruence]).
    pose proof (compute_ti_scale c n p d1 d1' (st_work s) (st_work s')
                  _ _ (st_subset0 s) (st_m s) (est_dist e1)
                  Hc Hlap Hd1 Hk He2) as H.
    cbn zeta in H.
    destruct (compute_ti d1 _ _ _ _ _) as [[err k2] dist2].
    destruct (compute_ti d1' _ _ _ _ _) as [[err' k2'] dist2'].
    cbn [fst snd] in H. destruct H as (-> & Hk2 & ->).
    assert (Hs2 : scaled c n p x y w
              (set_est (set_work (set_est (set_dat s d1) e1) k2)
                 (set_dist (set_L e1 (extract_L n p (dat_wx d1) (est_L e1)))
                           dist2))
              (set_est (set_work (set_est (set_dat s' d1') e1') k2')
                 (set_dist
                    (set_L e1' (scale (sqrt c)
                                  (extract_L n p (dat_wx d1) (est_L e1))))
                    dist2))).
    { constructor; cbn; auto.
      now apply scaled_est_set_dist. }
    destruct (is_ok err); cbn [negb rel_sum]; [exact Hs2|].
    split; [reflexivity|exact Hs2].
  - cbn [rel_sum]. split; [reflexivity|]. cbn [snd].
    constructor; cbn; auto.
Qed.


Lemma reselect_scale (alpha : R) (iter : nat) (s s' : state) :
  scaled c n p x y w s s' ->
  rel_sum (scaled c n p x y w) (rel_ret c n p x y w)
          (reselect n p alpha iter s) (reselect n p alpha iter s').
Proof.
  intros [Hd Hxyw Hk He H0 H1 Hm Hmx]. unfold reselect, candidate.
  rewrite (sc_dist _ _ _ _ He), Hm, H1.
  destruct (cutoff_subset n _ _ _) as [subset1 m1].
  cbn [st_subset0 set_m set_subset1]. rewrite H0.
  destruct (Nat.eqb _ n); cbn [rel_sum].
  - split; [reflexivity|]. cbn [snd]. constructor; cbn; auto.
  - constructor; cbn; auto.
Qed.

Lemma algorithm_5_body_scale (alpha : R) (iter : nat) (s s' : state) :
  scaled c n p x y w s s' ->
  rel_sum (scaled c n p x y w) (rel_ret c n p x y w)
          (algorithm_5_body n p alpha iter s)
          (algorithm_5_body n p alpha iter s').
Proof.
  intros Hs. unfold algorithm_5_body.
  pose proof (refit_scale s s' Hs) as H.
  destruct (refit n p s) as [s1|r1], (refit n p s') as [s1'|r1'];
    cbn [rel_sum] in *; try contradiction; auto.
  now apply reselect_scale.
Qed.

Lemma algorithm_5_scale (alpha : R) (s s' : state) :
  scaled c n p x y w s s' ->
  rel_ret c n p x y w (algorithm_5 alpha s) (algorithm_5 alpha s').
Proof.
  intros Hs. unfold algorithm_5.
  pose proof (sc_dat _ _ _ _ _ _ _ _ Hs) as [[Hn Hn'] [Hp Hp'] _ _ _ _ _].
  rewrite Hn, Hn', Hp, Hp', (sc_maxiter _ _ _ _ _ _ _ _ Hs).
  pose proof (for_ret_rel (scaled c n p x y w) (rel_ret c n p x y w)
                (algorithm_5_body n p alpha) (algorithm_5_body n p alpha)
                (fun i a a' => algorithm_5_body_scale alpha i a a')
                (Z.to_nat (st_maxiter s)) 1%nat s s' Hs) as H.
  destruct (for_ret 1 _ _ s) as [s1|r1], (for_ret 1 _ _ s') as [s1'|r1'];
    cbn [rel_sum] in H; try contradiction; auto.
  split; [reflexivity|exact H].
Qed.

Lemma grow_scale (collect : Z) :
  forall (fuel : nat) (s s' : state),
    scaled c n p x y w s s' ->
    rel_option (rel_sum (scaled c n p x y w) (rel_ret c n p x y w))
               (grow fuel collect s) (grow fuel collect s').
Proof.
  induction fuel as [|fuel IH]; intros s s' Hs; cbn [grow rel_option];
    [exact I|].
  pose proof Hs as [Hd Hxyw Hk He H0 H1 Hm Hmx].
  rewrite Hm, H1, H0, (sc_iarray _ _ _ _ _ Hk).
  set (subset1 := upd _ 1%Z (st_subset1 s)).
  pose proof (update_chol_xty_scale c n p _ _ _ _ _ _ (st_subset0 s) subset1
                Hc Hn1 Hd Hk He) as H.
  cbn zeta in H.
  destruct (update_chol_xty (st_dat s) _ _ _ _) as [[err k1] e1].
  destruct (update_chol_xty (st_dat s') _ _ _ _) as [[err' k1'] e1'].
  cbn [fst snd] in H. destruct H as (-> & Hk1 & He1).
  assert (Hs1 : scaled c n p x y w
            (set_est (set_work (set_m (set_subset1 s subset1) (st_m s + 1))
                               k1) e1)
            (set_est (set_work (set_m (set_subset1 s' subset1) (st_m s + 1))
                               k1') e1'))
    by (constructor; cbn; auto).
  destruct (is_ok err); [exact Hs1|].
  cbn [st_dat set_est set_work set_m set_subset1].
  destruct Hd as [_ [Hp Hp'] _ _ _ _ _]. rewrite Hp, Hp'.
  destruct (Z.eqb _ _).
  - cbn [rel_option rel_sum]. split; [reflexivity|exact Hs1].
  - now apply IH.
Qed.

Lemma algorithm_4_rest_scale (collect : Z) (s s' : state) :
  scaled c n p x y w s s' ->
  rel_sum (scaled c n p x y w) (rel_ret c n p x y w)
          (algorithm_4_rest collect s) (algorithm_4_rest collect s').
Proof.
  intros [Hd Hxyw Hk He H0 H1 Hm Hmx]. unfold algorithm_4_rest.
  pose proof Hd as [[Hn Hn'] [Hp Hp'] [Hx Hxl] Hy Hw _ _].
  pose proof He as [Hr [Hb Hbl] Hdi [HL HLl] [Hxt Hxtl] Hsg].
  cbn [st_est st_dat st_work st_subset0 st_subset1 st_m set_subset0
       est_beta est_resid est_dist set_beta set_resid].
  rewrite Hn, Hn', Hp, Hp', Hx, Hy, H0, H1, Hm, Hb, HL, Hxt, Hr, Hdi.
  destruct (cholesky_reg_scale c n p (est_L (st_est s)) (dat_x (st_dat s))
              (est_xty (st_est s)) (est_beta (st_est s))
              Hc Hlap HLl Hxtl Hbl) as [Eb Lb].
  rewrite Eb. clear Eb.
  set (beta1 := cholesky_reg (est_L (st_est s)) (dat_x (st_dat s))
                  (est_xty (st_est s)) (est_beta (st_est s)) n p) in *.
  set (resid1 := dgemv n p (-1) _ beta1 1 _).
  assert (He1 : scaled_est c p
                  (set_resid (set_beta (st_est s) beta1) resid1)
                  (set_resid (set_beta (st_est s') beta1) resid1)).
  { apply scaled_est_set_resid, scaled_est_set_beta; [exact He|lia]. }
  pose proof (compute_ti_scale c n p _ _ _ _ _ _ (st_subset1 s) (st_m s)
                (est_dist (st_est s)) Hc Hlap Hd Hk He1) as H.
  cbn zeta in H.
  destruct (compute_ti (st_dat s) _ _ _ _ _) as [[err k2] dist2].
  destruct (compute_ti (st_dat s') _ _ _ _ _) as [[err' k2'] dist2'].
  cbn [fst snd] in H. destruct H as (-> & Hk2 & ->).
  set (t := set_est (set_work
                       (set_subset0 s (Memcpy (st_subset0 s) (st_subset1 s) n))
                       k2)
              (set_dist (set_resid (set_beta (st_est s) beta1) resid1) dist2)).
  set (t' := set_est (set_work
                        (set_subset0 s'
                           (Memcpy (st_subset0 s) (st_subset1 s) n)) k2')
               (set_dist (set_resid (set_beta (st_est s') beta1) resid1)
                         dist2)).
  assert (Ht : scaled c n p x y w t t').
  { constructor; cbn; auto. now apply scaled_est_set_dist. }
  destruct (is_ok err); cbn [negb rel_sum]; [|split; [reflexivity|exact Ht]].
  assert (Ht1 : scaled c n p x y w (set_m t (st_m t + 1))
                       (set_m t' (st_m t' + 1))).
  { destruct Ht as [A1 A2 A3 A4 A5 A6 A7 A8].
    constructor; cbn; auto. cbn in A7. now rewrite A7. }
  assert (Em : st_m (set_m t' (st_m t' + 1)) = st_m (set_m t (st_m t + 1)))
    by (apply (sc_m _ _ _ _ _ _ _ _ Ht1)).
  rewrite Em. destruct (Z.eqb _ _); cbn [rel_sum].
  { split; [reflexivity|exact Ht1]. }
  change (st_subset1 (set_m t' (st_m t' + 1))) with (st_subset1 s').
  change (st_subset1 (set_m t (st_m t + 1))) with (st_subset1 s).
  rewrite H1.
  destruct (select_subset dist2 (st_subset1 s) _ n) as [dist3 subset3].
  destruct Ht1 as [A1 A2 A3 A4 A5 A6 A7 A8].
  constructor; cbn; auto.
  apply scaled_est_set_dist. exact A4.
Qed.

Lemma algorithm_4_scale (collect : Z) :
  forall (fuel : nat) (s s' : state),
    scaled c n p x y w s s' ->
    rel_option (rel_ret c n p x y w)
               (algorithm_4 fuel collect s) (algorithm_4 fuel collect s').
Proof.
  induction fuel as [|fuel IH]; intros s s' Hs;
    cbn [algorithm_4 rel_option]; [exact I|].
  pose proof Hs as [Hd Hxyw Hk He H0 H1 Hm Hmx].
  rewrite H0, H1.
  pose proof (update_chol_xty_scale c n p _ _ _ _ _ _ (st_subset0 s)
                (st_subset1 s) Hc Hn1 Hd Hk He) as H.
  cbn zeta in H.
  destruct (update_chol_xty (st_dat s) _ _ _ _) as [[err k1] e1].
  destruct (update_chol_xty (st_dat s') _ _ _ _) as [[err' k1'] e1'].
  cbn [fst snd] in H. destruct H as (-> & Hk1 & He1).
  assert (Hs1 : scaled c n p x y w (set_est (set_work s k1) e1)
                       (set_est (set_work s' k1') e1'))
    by (constructor; cbn; auto).
  assert (Hg : rel_option
                 (rel_sum (scaled c n p x y w) (rel_ret c n p x y w))
                 (if is_ok err then Some (inl (set_est (set_work s k1) e1))
                  else grow fuel collect (set_est (set_work s k1) e1))
                 (if is_ok err then Some (inl (set_est (set_work s' k1') e1'))
                  else grow fuel collect (set_est (set_work s' k1') e1'))).
  { destruct (is_ok err); [exact Hs1|]. now apply grow_scale. }
  destruct (if is_ok err then Some _ else grow fuel collect _)
    as [[s2|r2]|];
    destruct (if is_ok err then Some _ else grow fuel collect _)
      as [[s2'|r2']|];
    cbn [rel_option rel_sum] in Hg; try contradiction; auto.
  pose proof (algorithm_4_rest_scale collect s2 s2' Hg) as Hr.
  destruct (algorithm_4_rest collect s2) as [s3|r3],
           (algorithm_4_rest collect s2') as [s3'|r3'];
    cbn [rel_sum rel_option] in *; try contradiction; auto.
Qed.

Lemma enlarge_body_scale (k k' : workarray) (i : nat)
    (a a' : regdata * estimate * list Z * Z) :
  iarray k' = iarray k -> lwork k' = lwork k ->
  rel_enlarge c n p x y w a a' ->
  rel_sum (rel_enlarge c n p x y w) (rel_enlarge c n p x y w)
          (enlarge_body k i a) (enlarge_body k' i a').
Proof.
  destruct a as [[[dat est] subset] m], a' as [[[dat' est'] subset'] m'].
  intros Hi Hl (Hd & He & (Ex & Ey & Ew) & -> & ->). unfold enlarge_body.
  rewrite Hi, Hl.
  set (subset1 := upd _ 1%Z subset).
  pose proof (Hfit _ _ _ _ subset1 (dgels_work k) (dgels_work k')
                (lwork k) Hd He Ex Ey Ew)
    as (Hret & Hd1 & He1 & Ex1 & Ey1 & Ew1).
  destruct (fitwls_est dat _ _ _ _) as [[info d1] e1].
  destruct (fitwls_est dat' _ _ _ _) as [[info' d1'] e1'].
  cbn [fst snd] in *. subst info'.
  assert (HR : rel_enlarge c n p x y w (d1, e1, subset1, (m + 1)%Z)
                           (d1', e1', subset1, (m + 1)%Z)).
  { cbn [rel_enlarge].
    split; [exact Hd1|]. split; [exact He1|].
    split; [|split; reflexivity].
    split; [congruence|split; congruence]. }
  destruct (Z.eqb info 0); exact HR.
Qed.

Lemma initial_reg_scale (s s' : state) :
  scaled c n p x y w s s' ->
  rel_ret c n p x y w (initial_reg s) (initial_reg s').
Proof.
  intros [Hd (Ex & Ey & Ew) Hk He H0 H1 Hm Hmx]. unfold initial_reg.
  pose proof Hd as [[Hn Hn'] [Hp Hp'] _ _ _ _ _].
  pose proof Hk as [Hlw Hia _ _ _ _].
  rewrite Hn, Hn', Hp, Hp', H0, H1, Hm, Hmx, Hlw.
  pose proof (Hfit _ _ _ _ (st_subset0 s) (dgels_work (st_work s)) (dgels_work (st_work s'))
                (lwork (st_work s)) Hd He Ex Ey Ew)
    as (Hret & Hd1 & He1 & Ex1 & Ey1 & Ew1).
  destruct (fitwls_est (st_dat s) _ _ _ _) as [[info d1] e1].
  destruct (fitwls_est (st_dat s') _ _ _ _) as [[info' d1'] e1'].
  cbn [fst snd] in *. subst info'.
  rewrite (sc_dist _ _ _ _ He1), Hia.
  set (T := if negb (Z.eqb info 0) then _ else (d1, st_work s, e1, _, _)).
  set (T' := if negb (Z.eqb info 0) then _ else (d1', st_work s', e1', _, _)).
  assert (HT : rel_enlarge c n p x y w
                 (fst (fst (fst (fst T))), snd (fst (fst T)), snd (fst T),
                  snd T)
                 (fst (fst (fst (fst T'))), snd (fst (fst T')), snd (fst T'),
                  snd T') /\
               scaled_work c n p (snd (fst (fst (fst T))))
                           (snd (fst (fst (fst T'))))).
  { subst T T'. destruct (negb (Z.eqb info 0)).
    - destruct (psort_array (est_dist e1) (iarray (st_work s)) _ _)
        as [dist idx].
      assert (Hk2 : scaled_work c n p (set_iarray (st_work s) idx)
                                (set_iarray (st_work s') idx))
        by (destruct Hk; constructor; cbn; auto).
      pose proof (for_ret_rel (rel_enlarge c n p x y w)
                    (rel_enlarge c n p x y w)
                    (enlarge_body (set_iarray (st_work s) idx))
                    (enlarge_body (set_iarray (st_work s') idx))
                    (fun i a a' =>
                       enlarge_body_scale (set_iarray (st_work s) idx)
                         (set_iarray (st_work s') idx) i a a' eq_refl Hlw)
                    (Z.to_nat (Z.of_nat n - st_m s)) 0%nat
                    (d1, set_dist e1 dist, st_subset0 s, st_m s)
                    (d1', set_dist e1' dist, st_subset0 s, st_m s)) as H.
      destruct (for_ret 0 _ (enlarge_body (set_iarray (st_work s) idx)) _)
        as [[[[a1 a2] a3] a4]|[[[a1 a2] a3] a4]];
        destruct (for_ret 0 _ (enlarge_body (set_iarray (st_work s') idx)) _)
          as [[[[b1 b2] b3] b4]|[[[b1 b2] b3] b4]];
        cbn [fst snd rel_sum] in *;
        (split; [|exact Hk2]); try (exfalso; apply H); try apply H;
        (cbn [rel_enlarge];
         split; [exact Hd1|]; split; [now apply scaled_est_set_dist|];
         split; [|split; reflexivity];
         split; [congruence|split; congruence]).
    - cbn [fst snd]. split; [|exact Hk].
      cbn [rel_enlarge].
      split; [exact Hd1|]. split; [exact He1|].
      split; [|split; reflexivity].
      split; [congruence|split; congruence]. }
  destruct T as [[[[d2 k2] e2] sub2] m2], T' as [[[[d2' k2'] e2'] sub2'] m2'].
  cbn [fst snd rel_enlarge] in HT.
  destruct HT as ((Hd2 & He2 & (Ex2 & Ey2 & Ew2) & -> & ->) & Hk2).
  destruct (extract_L_scale (sqrt c) n p (dat_wx d2) (est_L e2)) as [EL LL].
  pose proof (sc_wx _ _ _ _ _ Hd2) as [Hwx _].
  pose proof (sc_L _ _ _ _ He2) as [HL HLl].
  pose proof (sc_xty _ _ _ _ He2) as [Hxt Hxtl].
  rewrite Hwx, HL, EL.
  cbn [est_xty set_L est_dist set_xty].
  rewrite Hxt, (sc_dist _ _ _ _ He2).
  destruct (accumulate_xty_scale c n p d2 d2' sub2 (est_xty e2) Hd2)
    as [EA LA].
  rewrite EA.
  set (L3 := extract_L n p (dat_wx d2) (est_L e2)) in *.
  set (xty3 := accumulate_xty d2 sub2 (est_xty e2)) in *.
  assert (He3 : scaled_est c p (set_xty (set_L e2 L3) xty3)
                  (set_xty (set_L e2' (scale (sqrt c) L3)) (scale c xty3))).
  { apply scaled_est_set_xty; [|congruence].
    apply scaled_est_set_L; [assumption|congruence]. }
  pose proof (compute_ti_scale c n p d2 d2' k2 k2' _ _ sub2 m2 (est_dist e2)
                Hc Hlap Hd2 Hk2 He3) as H.
  cbn zeta in H.
  destruct (compute_ti d2 _ _ _ _ _) as [[err k4] dist4].
  destruct (compute_ti d2' _ _ _ _ _) as [[err' k4'] dist4'].
  cbn [fst snd] in H. destruct H as (-> & Hk4 & ->).
  split; [reflexivity|]. cbn [snd].
  constructor; cbn; auto.
  now apply scaled_est_set_dist.
Qed.

End Rescaling.

(** *** The reference routines for one regressor are homogeneous *)

Lemma dot_scale (s : R) (a b : list R) :
  dot (scale s a) (scale s b) = s * s * dot a b.
Proof.
  unfold scale. revert b; induction a as [|h t IH]; intros [|h' t'];
    cbn [map dot]; try ring.
  rewrite IH. ring.
Qed.

Lemma Reqb_scale (s v : R) : s <> 0 -> Reqb (s * v) 0 = Reqb v 0.
Proof.
  intros Hs. unfold Reqb.
  destruct (Req_dec_T (s * v) 0) as [E|E], (Req_dec_T v 0) as [E'|E'];
    auto; exfalso.
  - apply Rmult_integral in E. tauto.
  - apply E. rewrite E'. ring.
Qed.

Lemma Rltb_scale_l (s a : R) : 0 < s -> Rltb (s * a) 0 = Rltb a 0.
Proof. apply Rltb_scale. Qed.

Lemma dgels_p1_scale (n : nat) (A B : list R) (s : R) :
  0 < s ->
  fst (fst (dgels_p1 n 1 (scale s A) (scale s B)))
  = scale s (fst (fst (dgels_p1 n 1 A B))) /\
  ((forall i, (i < 1)%nat ->
      get (fst (fst (dgels_p1 n 1 A B))) ((n + 1) * i) <> 0) ->
   firstn 1 (snd (fst (dgels_p1 n 1 (scale s A) (scale s B))))
   = firstn 1 (snd (fst (dgels_p1 n 1 A B)))).
Proof.
  intros Hs. unfold dgels_p1. cbv zeta.
  rewrite <- !scale_firstn, <- !scale_skipn, !dot_scale, !get_scale.
  set (a := firstn n A). set (b := firstn n B).
  set (r11 := if Reqb (dot (skipn 1 a) (skipn 1 a)) 0 then get A 0
              else if Rltb (get A 0) 0 then sqrt (dot a a)
                   else - sqrt (dot a a)).
  assert (Er : (if Reqb (s * s * dot (skipn 1 a) (skipn 1 a)) 0
                then s * get A 0
                else if Rltb (s * get A 0) 0 then sqrt (s * s * dot a a)
                     else - sqrt (s * s * dot a a)) = s * r11).
  { subst r11. rewrite Reqb_scale by nra. rewrite Rltb_scale by assumption.
    rewrite sqrt_scale by lra.
    destruct (Reqb _ 0); [reflexivity|]. destruct (Rltb _ 0); ring. }
  rewrite Er, Reqb_scale by lra.
  destruct (Reqb r11 0) eqn:E0; cbn [fst snd].
  - split; [now rewrite scale_upd|].
    intros Hnz. exfalso. apply (Hnz 0%nat); [lia|].
    rewrite Nat.mul_0_r, get_upd.
    unfold Reqb in E0. destruct (Req_dec_T r11 0) as [E|E]; [|discriminate].
    destruct A as [|h t]; cbn; [reflexivity|exact E].
  - split; [now rewrite scale_upd|].
    intros _. rewrite div_scale by nra.
    destruct B as [|h t]; reflexivity.
Qed.

Lemma list_eq_get (a b : list R) :
  length a = length b ->
  (forall i, (i < length a)%nat -> get a i = get b i) -> a = b.
Proof.
  intros Hl Hg. apply (nth_ext _ _ 0 0); [exact Hl|]. exact Hg.
Qed.

Lemma dtrmm_p1_scale (n : nat) (A B : list R) (t : R) :
  length B = n ->
  dtrmm_p1 n 1 1 (scale t A) B = scale t (dtrmm_p1 n 1 1 A B).
Proof.
  intros HB. unfold dtrmm_p1.
  destruct (for_loop_pointwise (fun i v => 1 * (v * get (scale t A) 0))
              n 0%nat B) as [L1 G1].
  destruct (for_loop_pointwise (fun i v => 1 * (v * get A 0)) n 0%nat B)
    as [L2 G2].
  apply list_eq_get.
  - rewrite length_scale. congruence.
  - intros i Hi. rewrite L1 in Hi.
    rewrite G1, !get_scale, G2. cbn [Nat.leb Nat.add andb].
    destruct (Nat.ltb_spec i n); [|lia].
    destruct (Nat.ltb_spec i (length B)); [|lia].
    cbn [andb]. ring.
Qed.

Lemma lapack_p1_homogeneous (n : nat) :
  lapack_homogeneous (lapack := lapack_p1) n 1.
Proof.
  constructor; cbn [dgels dtrtri dtrmm dtrsm lapack_p1].
  - intros A B s Hs _ _. now apply dgels_p1_scale.
  - intros A B HA HB. unfold dgels_p1. cbv zeta.
    destruct (Reqb _ 0); cbn [fst snd]; rewrite ?length_upd; auto.
  - intros A s Hs HA. unfold dtrtri_p1. rewrite get_scale.
    rewrite Reqb_scale by lra.
    destruct (Reqb (get A 0) 0); cbn [fst snd]; split; auto;
      try discriminate.
    intros _. destruct A as [|a0 [|a1 t]]; try discriminate.
    cbn. unfold scale, get; cbn. f_equal. apply Rinv_mult.
  - intros A HA. unfold dtrtri_p1.
    destruct (Reqb _ 0); cbn [fst]; rewrite ?length_upd; auto.
  - intros A B t _ HB. apply dtrmm_p1_scale. lia.
  - intros A B _ HB. unfold dtrmm_p1.
    apply (for_loop_inv (fun b => length b = (n * 1)%nat)); [|assumption].
    intros i b Hb. now rewrite length_upd.
  - intros tr A B s t Hs HA HB. unfold dtrsm_p1. rewrite !get_scale.
    destruct B as [|b0 [|b1 tl]]; try discriminate.
    unfold scale, get; cbn. f_equal. unfold Rdiv.
    rewrite Rinv_mult. ring.
  - intros tr A B HA HB. unfold dtrsm_p1. now rewrite length_upd.
Qed.

(** * Further properties of the routines *)

Lemma rescale_scaled (c : R) (dat : regdata) (work : workarray)
    (est : estimate) :
  well_sized dat work est ->
  scaled_dat c (dat_n dat) (dat_p dat) dat (rescale_dat c dat) /\
  scaled_work c (dat_n dat) (dat_p dat) work (rescale_work c work) /\
  scaled_est c (dat_p dat) est (rescale_est c est).
Proof.
  intros (H1 & H2 & H3 & H4 & H5 & H6 & H7 & H8).
  split; [|split]; constructor; cbn; auto.
Qed.

Lemma rescale_state_scaled (c : R) (s : state) :
  well_sized (st_dat s) (st_work s) (st_est s) ->
  scaled c (dat_n (st_dat s)) (dat_p (st_dat s)) (dat_x (st_dat s))
         (dat_y (st_dat s)) (dat_w (st_dat s)) s (rescale_state c s).
Proof.
  intros Hw. destruct (rescale_scaled c _ _ _ Hw) as (A & B & C).
  constructor; cbn; auto.
Qed.

(** ** The rank-one routines are homogeneous *)

(** X1. [chol_update] is homogeneous of degree one: when the factor and
    the update vector are both multiplied by a positive number [s], both
    arrays on return are those of the unscaled call multiplied by [s]. *)
Theorem chol_update_homogeneous (s : R) (L u : list R) (p : nat) :
  0 < s ->
  chol_update (scale s L) (scale s u) p =
  (scale s (fst (chol_update L u p)), scale s (snd (chol_update L u p))).
Proof.
  intros Hs. now rewrite chol_update_scale.
Qed.

Lemma chol_update_homogeneous_witness :
  chol_update (scale 2 [3; 1; 0; 2]) (scale 2 [4; 1]) 2 =
  (scale 2 (fst (chol_update [3; 1; 0; 2] [4; 1] 2)),
   scale 2 (snd (chol_update [3; 1; 0; 2] [4; 1] 2))).
Proof.
  apply (chol_update_homogeneous 2 [3; 1; 0; 2] [4; 1] 2). lra.
Defined.

(** X2. [chol_downdate] decides alike on scaled arguments: when the
    factor and the vector are both multiplied by a positive number [s],
    the status returned is the same, and both arrays are left as the
    unscaled call leaves them, multiplied by [s], whether the downdate
    succeeds or stops at a negative pivot. *)
Theorem chol_downdate_homogeneous (s : R) (L u : list R) (p : nat) :
  0 < s ->
  chol_downdate (scale s L) (scale s u) p =
  (fst (chol_downdate L u p),
   (scale s (fst (snd (chol_downdate L u p))),
    scale s (snd (snd (chol_downdate L u p))))).
Proof.
  intros Hs. now rewrite chol_downdate_scale.
Qed.

Lemma chol_downdate_homogeneous_witness :
  chol_downdate (scale 3 [5; 1; 0; 2]) (scale 3 [3; 1]) 2 =
  (fst (chol_downdate [5; 1; 0; 2] [3; 1] 2),
   (scale 3 (fst (snd (chol_downdate [5; 1; 0; 2] [3; 1] 2))),
    scale 3 (snd (snd (chol_downdate [5; 1; 0; 2] [3; 1] 2))))).
Proof.
  apply (chol_downdate_homogeneous 3 [5; 1; 0; 2] [3; 1] 2). lra.
Defined.

(** ** Uniformly rescaled weights *)

(** X3. The transition of the factor under uniformly rescaled weights:
    started from a factor scaled by [sqrt c] and cross-products scaled by
    [c], with every weight multiplied by [c > 0], [update_chol_xty]
    returns the same status, and leaves the factor of the unscaled run
    multiplied by [sqrt c] and its cross-products multiplied by [c], be
    it after a successful transition or after a rollback. *)
Theorem update_chol_xty_rescaled (c : R) (dat : regdata) (work : workarray)
    (est : estimate) (subset0 subset1 : list Z) :
  0 < c -> (1 <= dat_n dat)%nat -> well_sized dat work est ->
  let r := update_chol_xty dat work est subset0 subset1 in
  let r' := update_chol_xty (rescale_dat c dat) (rescale_work c work)
                            (rescale_est c est) subset0 subset1 in
  fst (fst r') = fst (fst r) /\
  est_L (snd r') = scale (sqrt c) (est_L (snd r)) /\
  est_xty (snd r') = scale c (est_xty (snd r)).
Proof.
  intros Hc Hn Hw. destruct (rescale_scaled c _ _ _ Hw) as (A & B & C).
  destruct (update_chol_xty_scale c _ _ _ _ _ _ _ _ subset0 subset1
              Hc Hn A B C) as (E & _ & He).
  cbv zeta. split; [exact E|].
  split; [apply (sc_L _ _ _ _ He) | apply (sc_xty _ _ _ _ He)].
Qed.

Lemma update_chol_xty_rescaled_witness :
  let r := update_chol_xty dat_4x1 work_4x1 est_4x1 subset_4x1
                           [1%Z; 0%Z; 1%Z; 1%Z] in
  let r' := update_chol_xty (rescale_dat 4 dat_4x1) (rescale_work 4 work_4x1)
                            (rescale_est 4 est_4x1) subset_4x1
                            [1%Z; 0%Z; 1%Z; 1%Z] in
  fst (fst r') = fst (fst r) /\
  est_L (snd r') = scale (sqrt 4) (est_L (snd r)) /\
  est_xty (snd r') = scale 4 (est_xty (snd r)).
Proof.
  apply (update_chol_xty_rescaled 4 dat_4x1 work_4x1 est_4x1);
    [lra | simpl; lia | unfold well_sized; simpl; lia].
Defined.

(** X4. The leverages do not depend on the scale of the weights: with
    every weight multiplied by [c > 0] and the factor by [sqrt c],
    [hat_matrix] returns the same status and writes the same array
    [hat], provided the triangular inverse and product of LAPACK and BLAS
    scale with their arguments. *)
Theorem hat_matrix_rescaled {lapack : Lapack} (c : R) (dat : regdata)
    (work : workarray) (est : estimate) (hat : list R) :
  0 < c -> lapack_homogeneous (dat_n dat) (dat_p dat) ->
  well_sized dat work est ->
  let r := hat_matrix dat work (est_L est) hat in
  let r' := hat_matrix (rescale_dat c dat) (rescale_work c work)
                       (scale (sqrt c) (est_L est)) hat in
  fst (fst r') = fst (fst r) /\ snd r' = snd r.
Proof.
  intros Hc Hlap Hw. destruct (rescale_scaled c _ _ _ Hw) as (A & B & C).
  destruct Hw as (_ & _ & _ & _ & HL & _).
  destruct (hat_matrix_scale c _ _ _ _ _ _ (est_L est) hat Hc Hlap A B HL)
    as (E & _ & Eh).
  cbv zeta. auto.
Qed.

Lemma hat_matrix_rescaled_witness :
  let r := hat_matrix (lapack := lapack_p1) dat_4x1 work_4x1 (est_L est_4x1)
                      [0; 0; 0; 0] in
  let r' := hat_matrix (lapack := lapack_p1) (rescale_dat 4 dat_4x1)
                       (rescale_work 4 work_4x1)
                       (scale (sqrt 4) (est_L est_4x1)) [0; 0; 0; 0] in
  fst (fst r') = fst (fst r) /\ snd r' = snd r.
Proof.
  apply (hat_matrix_rescaled (lapack := lapack_p1) 4 dat_4x1 work_4x1
           est_4x1);
    [lra | apply lapack_p1_homogeneous | unfold well_sized; simpl; lia].
Defined.

(** X5. The scores do not depend on the scale of the weights: with the
    same residuals and scale [sigma], every weight multiplied by [c > 0]
    and the factor by [sqrt c], [compute_ti] returns the same status and
    the same scores. *)
Theorem compute_ti_rescaled {lapack : Lapack} (c : R) (dat : regdata)
    (work : workarray) (est : estimate) (subset : list Z) (m : Z)
    (tis : list R) :
  0 < c -> lapack_homogeneous (dat_n dat) (dat_p dat) ->
  well_sized dat work est ->
  let r := compute_ti dat work est subset m tis in
  let r' := compute_ti (rescale_dat c dat) (rescale_work c work)
                       (rescale_est c est) subset m tis in
  fst (fst r') = fst (fst r) /\ snd r' = snd r.
Proof.
  intros Hc Hlap Hw. destruct (rescale_scaled c _ _ _ Hw) as (A & B & C).
  destruct (compute_ti_scale c _ _ _ _ _ _ _ _ subset m tis Hc Hlap A B C)
    as (E & _ & Et).
  cbv zeta. auto.
Qed.

Lemma compute_ti_rescaled_witness :
  let r := compute_ti (lapack := lapack_p1) dat_4x1 work_4x1 est_4x1
                      subset_4x1 3 [0; 0; 0; 0] in
  let r' := compute_ti (lapack := lapack_p1) (rescale_dat 4 dat_4x1)
                       (rescale_work 4 work_4x1) (rescale_est 4 est_4x1)
                       subset_4x1 3 [0; 0; 0; 0] in
  fst (fst r') = fst (fst r) /\ snd r' = snd r.
Proof.
  apply (compute_ti_rescaled (lapack := lapack_p1) 4 dat_4x1 work_4x1
           est_4x1);
    [lra | apply lapack_p1_homogeneous | unfold well_sized; simpl; lia].
Defined.

(** X6. The coefficients that [cholesky_reg] computes from the factor
    and the cross-products do not depend on the scale of the weights:
    a factor multiplied by [sqrt c] and cross-products multiplied by
    [c > 0] give the same [beta], provided the triangular solve of BLAS
    scales with its arguments. *)
Theorem cholesky_reg_rescaled {lapack : Lapack} (c : R) (n p : nat)
    (L x xty beta : list R) :
  0 < c -> lapack_homogeneous n p ->
  length L = (p * p)%nat -> length xty = p -> (length beta <= p)%nat ->
  cholesky_reg (scale (sqrt c) L) x (scale c xty) beta n p
  = cholesky_reg L x xty beta n p.
Proof.
  intros Hc Hlap HL Hx Hb.
  now destruct (cholesky_reg_scale c n p L x xty beta Hc Hlap HL Hx Hb).
Qed.

Lemma cholesky_reg_rescaled_witness :
  cholesky_reg (lapack := lapack_p1) (scale (sqrt 4) [3]) [2; 2; 1; 1]
               (scale 4 [9]) [0] 4 1
  = cholesky_reg (lapack := lapack_p1) [3] [2; 2; 1; 1] [9] [0] 4 1.
Proof.
  apply (cholesky_reg_rescaled (lapack := lapack_p1) 4 4 1 [3] [2; 2; 1; 1]
           [9] [0]);
    [lra | apply lapack_p1_homogeneous | reflexivity | reflexivity
    | simpl; lia].
Defined.

(** X7. Step 1 of the algorithm does not depend on the scale of the
    weights: from a state with every weight multiplied by [c > 0], the
    factor by [sqrt c] and the cross-products by [c], [algorithm_4] runs
    out of fuel or returns exactly when the unscaled run does, with the
    same status, the same two subsets, the same size [m] and the same
    coefficients, residuals and scores. *)
Theorem algorithm_4_rescaled {lapack : Lapack} {psort : PartialSort}
    (c : R) (fuel : nat) (collect : Z) (s : state) :
  0 < c -> (1 <= dat_n (st_dat s))%nat ->
  lapack_homogeneous (dat_n (st_dat s)) (dat_p (st_dat s)) ->
  well_sized (st_dat s) (st_work s) (st_est s) ->
  match algorithm_4 fuel collect s,
        algorithm_4 fuel collect (rescale_state c s) with
  | Some (err, t), Some (err', t') =>
      err' = err /\
      st_subset0 t' = st_subset0 t /\ st_subset1 t' = st_subset1 t /\
      st_m t' = st_m t /\
      est_beta (st_est t') = est_beta (st_est t) /\
      est_resid (st_est t') = est_resid (st_est t) /\
      est_dist (st_est t') = est_dist (st_est t)
  | None, None => True
  | _, _ => False
  end.
Proof.
  intros Hc Hn Hlap Hw.
  pose proof (algorithm_4_scale c _ _ _ _ _ Hc Hn Hlap collect fuel s
                (rescale_state c s) (rescale_state_scaled c s Hw)) as H.
  destruct (algorithm_4 fuel collect s) as [[err t]|],
           (algorithm_4 fuel collect (rescale_state c s)) as [[err' t']|];
    cbn [rel_option] in H; auto.
  destruct H as [E Hs]. cbn [fst snd] in *.
  destruct Hs as [_ _ _ He H0 H1 Hm _].
  destruct He as [Hr [Hb _] Hd _ _ _]. auto 10.
Qed.

Lemma algorithm_4_rescaled_witness :
  match algorithm_4 (lapack := lapack_p1) (psort := psort_ref) 2 3 s_grow,
        algorithm_4 (lapack := lapack_p1) (psort := psort_ref) 2 3
                    (rescale_state 4 s_grow) with
  | Some (err, t), Some (err', t') =>
      err' = err /\
      st_subset0 t' = st_subset0 t /\ st_subset1 t' = st_subset1 t /\
      st_m t' = st_m t /\
      est_beta (st_est t') = est_beta (st_est t) /\
      est_resid (st_est t') = est_resid (st_est t) /\
      est_dist (st_est t') = est_dist (st_est t)
  | None, None => True
  | _, _ => False
  end.
Proof.
  apply (algorithm_4_rescaled (lapack := lapack_p1) (psort := psort_ref)
           4 2 3 s_grow);
    [lra | simpl; lia | apply lapack_p1_homogeneous
    | unfold well_sized; simpl; lia].
Defined.

(** ** The solver of [fitwls.c] *)

(** X8. [fitwls] under uniformly rescaled weights: with every weight
    multiplied by [c > 0], the factor that the call leaves in [wx] is
    the one of the unscaled call multiplied by [sqrt c]; and whenever the
    two calls return the same value, they write the same coefficients
    and the same residuals. *)
Theorem fitwls_rescaled {lapack : Lapack} (c : R) (dat : regdata)
    (weight work_dgels : list R) (lwork : Z) (beta resid : list R) :
  0 < c -> lapack_homogeneous (dat_n dat) (dat_p dat) ->
  length (dat_x dat) = (dat_n dat * dat_p dat)%nat ->
  length (dat_wx dat) = (dat_n dat * dat_p dat)%nat ->
  length (dat_wy dat) = dat_n dat ->
  let r := fitwls dat weight work_dgels lwork beta resid in
  let r' := fitwls (rescale_dat c dat) (scale c weight) work_dgels lwork
                   beta resid in
  dat_wx (snd (fst r')) = scale (sqrt c) (dat_wx (snd (fst r))) /\
  (fst (fst r') = fst (fst r) -> snd r' = snd r).
Proof.
  intros Hc Hlap Hx Hwx Hwy.
  assert (Hd : scaled_dat c (dat_n dat) (dat_p dat) dat (rescale_dat c dat))
    by (constructor; cbn; auto).
  destruct (fitwls_scale c _ _ dat (rescale_dat c dat) weight work_dgels
              work_dgels lwork beta resid Hc Hlap Hd) as (H1 & _ & H3 & _).
  cbv zeta. split; [apply (sc_wx _ _ _ _ _ H1)|exact H3].
Qed.

Lemma fitwls_rescaled_witness :
  let r := fitwls (lapack := lapack_p1) dat_4x1 [1; 1; 1; 0] [0; 0] 2 [1]
                  [0; 0; 0; 9] in
  let r' := fitwls (lapack := lapack_p1) (rescale_dat 4 dat_4x1)
                   (scale 4 [1; 1; 1; 0]) [0; 0] 2 [1] [0; 0; 0; 9] in
  dat_wx (snd (fst r')) = scale (sqrt 4) (dat_wx (snd (fst r))) /\
  (fst (fst r') = fst (fst r) -> snd r' = snd r).
Proof.
  apply (fitwls_rescaled (lapack := lapack_p1) 4 dat_4x1 [1; 1; 1; 0]
           [0; 0] 2 [1] [0; 0; 0; 9]);
    [lra | apply lapack_p1_homogeneous | reflexivity | reflexivity
    | reflexivity].
Defined.

(** X9. Larger weights never lose rank: if [fitwls] returns 0 (the rank
    check passes on every diagonal entry of the factor), then with every
    weight multiplied by the same [c >= 1] it returns 0 as well, with
    the same coefficients and the same residuals. *)
Theorem fitwls_full_rank_kept {lapack : Lapack} (c : R) (dat : regdata)
    (weight work_dgels : list R) (lwork : Z) (beta resid : list R) :
  1 <= c -> (0 <= lwork)%Z ->
  lapack_homogeneous (dat_n dat) (dat_p dat) ->
  length (dat_x dat) = (dat_n dat * dat_p dat)%nat ->
  length (dat_wx dat) = (dat_n dat * dat_p dat)%nat ->
  length (dat_wy dat) = dat_n dat ->
  let r := fitwls dat weight work_dgels lwork beta resid in
  let r' := fitwls (rescale_dat c dat) (scale c weight) work_dgels lwork
                   beta resid in
  fst (fst r) = 0%Z -> fst (fst r') = 0%Z /\ snd r' = snd r.
Proof.
  intros Hc Hlw Hlap Hx Hwx Hwy.
  assert (Hc0 : 0 < c) by lra.
  assert (Hd : scaled_dat c (dat_n dat) (dat_p dat) dat (rescale_dat c dat))
    by (constructor; cbn; auto).
  destruct (fitwls_scale c _ _ dat (rescale_dat c dat) weight work_dgels
              work_dgels lwork beta resid Hc0 Hlap Hd) as (H1 & _ & H3 & _).
  pose proof (fitwls_ret dat weight work_dgels lwork beta resid Hlw) as R1.
  pose proof (fitwls_ret (rescale_dat c dat) (scale c weight) work_dgels
                lwork beta resid Hlw) as R2.
  cbv zeta in *.
  set (r := fitwls dat weight work_dgels lwork beta resid) in *.
  set (r' := fitwls (rescale_dat c dat) (scale c weight) work_dgels lwork
                    beta resid) in *.
  intros E.
  assert (E' : fst (fst r') = 0%Z).
  { rewrite R2. cbn [dat_n dat_p rescale_dat].
    destruct (sc_wx _ _ _ _ _ H1) as [Ewx _]. rewrite Ewx.
    pose proof (rank_check_spec (dat_n dat) (dat_p dat)
                  (dat_wx (snd (fst r)))) as S1.
    pose proof (rank_check_spec (dat_n dat) (dat_p dat)
                  (scale (sqrt c) (dat_wx (snd (fst r))))) as S2.
    rewrite E in R1.
    destruct (rank_check _ _ (dat_wx (snd (fst r)))) as [[]|v].
    2:{ destruct S1 as [-> _]. discriminate. }
    destruct (rank_check _ _ (scale (sqrt c) _)) as [[]|v]; [reflexivity|].
    exfalso. destruct S2 as (_ & i & Hi & Hlt). specialize (S1 i Hi).
    rewrite get_scale in Hlt. unfold fabs in *.
    rewrite Rabs_mult in Hlt.
    assert (Hs : 1 <= sqrt c)
      by (rewrite <- sqrt_1; apply sqrt_le_1_alt; exact Hc).
    rewrite (Rabs_right (sqrt c)) in Hlt by lra.
    pose proof (Rabs_pos (get (dat_wx (snd (fst r)))
                              ((dat_n dat + 1) * i))).
    nra. }
  split; [exact E'|]. apply H3. congruence.
Qed.

Lemma fitwls_full_rank_kept_witness :
  let r := fitwls (lapack := lapack_p1) dat_4x1 [1; 1; 1; 0] [0; 0] 2 [1]
                  [0; 0; 0; 9] in
  let r' := fitwls (lapack := lapack_p1) (rescale_dat 4 dat_4x1)
                   (scale 4 [1; 1; 1; 0]) [0; 0] 2 [1] [0; 0; 0; 9] in
  fst (fst r') = 0%Z /\ snd r' = snd r.
Proof.
  apply (fitwls_full_rank_kept (lapack := lapack_p1) 4 dat_4x1 [1; 1; 1; 0]
           [0; 0] 2 [1] [0; 0; 0; 9]);
    [lra | lia | apply lapack_p1_homogeneous | reflexivity | reflexivity
    | reflexivity | now rewrite fitwls_4x1].
Defined.

(** ** The transition of the factor *)

Lemma first_pass_no_downdate (dat : regdata) (work : workarray)
    (est : estimate) (subset0 subset1 : list Z) :
  (forall i, (i < dat_n dat)%nat ->
             (geti subset0 i <= geti subset1 i)%Z) ->
  ps_n_downdate (first_pass dat work est subset0 subset1) = 0%nat.
Proof.
  intros Hle. unfold first_pass.
  pose proof (for_loop_inv_idx
    (fun (_ : nat) s => ps_n_downdate s = 0%nat)
    (first_pass_body dat subset0 subset1) (dat_n dat) 0%nat
    (mk_pass (est_L est) (est_xty est) (work_p work) (iarray work) 0%Z
             0%nat)) as H.
  apply H; [|reflexivity].
  intros i s Hi Hs. unfold first_pass_body.
  destruct (Z.gtb_spec (geti subset1 i) (geti subset0 i)).
  - destruct (row_update Rplus dat i (ps_u s, ps_xty s)) as [u1 x1].
    destruct (chol_update (ps_L s) u1 (dat_p dat)) as [L1 u2]. exact Hs.
  - destruct (Z.ltb_spec (geti subset1 i) (geti subset0 i)); [|exact Hs].
    specialize (Hle i ltac:(lia)). lia.
Qed.

(** X10. A transition that takes no observation out of the subset cannot
    fail: if no cell of [subset1] is below the cell of [subset0], nothing
    is put on the stack of downdates, and [update_chol_xty] returns
    [WBACON_ERROR_OK]. *)
Theorem update_chol_xty_additions_only (dat : regdata) (work : workarray)
    (est : estimate) (subset0 subset1 : list Z) :
  (forall i, (i < dat_n dat)%nat ->
             (geti subset0 i <= geti subset1 i)%Z) ->
  fst (fst (update_chol_xty dat work est subset0 subset1)) = WBACON_ERROR_OK.
Proof.
  intros Hle. unfold update_chol_xty.
  set (w1 := set_work_np _ _).
  pose proof (first_pass_no_downdate dat w1 est subset0 subset1 Hle) as H0.
  unfold second_pass. rewrite H0. reflexivity.
Qed.

Lemma update_chol_xty_additions_only_witness :
  fst (fst (update_chol_xty dat_4x1 work_4x1 est_4x1
              [1%Z; 1%Z; 0%Z; 0%Z] [1%Z; 1%Z; 0%Z; 1%Z]))
  = WBACON_ERROR_OK.
Proof.
  apply (update_chol_xty_additions_only dat_4x1 work_4x1 est_4x1).
  intros [|[|[|[|i]]]] Hi; cbn in *; lia.
Defined.

(** X11. A transition between equal subsets changes nothing: if the two
    subsets agree on every observation, [update_chol_xty] returns
    [WBACON_ERROR_OK] and the factor [L] and the cross-products [xty]
    are those of entry. *)
Theorem update_chol_xty_same_subset (dat : regdata) (work : workarray)
    (est : estimate) (subset0 subset1 : list Z) :
  (forall i, (i < dat_n dat)%nat -> geti subset1 i = geti subset0 i) ->
  let r := update_chol_xty dat work est subset0 subset1 in
  fst (fst r) = WBACON_ERROR_OK /\
  est_L (snd r) = est_L est /\ est_xty (snd r) = est_xty est.
Proof.
  intros Heq. cbv zeta. unfold update_chol_xty.
  set (w1 := set_work_np _ _).
  assert (Hfp : first_pass dat w1 est subset0 subset1 =
                mk_pass (est_L est) (est_xty est) (work_p w1) (iarray w1)
                        0%Z 0%nat).
  { unfold first_pass.
    pose proof (for_loop_inv_idx
      (fun (_ : nat) s =>
         s = mk_pass (est_L est) (est_xty est) (work_p w1) (iarray w1)
                     0%Z 0%nat)
      (first_pass_body dat subset0 subset1) (dat_n dat) 0%nat
      (mk_pass (est_L est) (est_xty est) (work_p w1) (iarray w1) 0%Z
               0%nat)) as H.
    apply H; [|reflexivity].
    intros i s Hi ->. unfold first_pass_body.
    specialize (Heq i ltac:(lia)). rewrite Heq.
    destruct (Z.gtb_spec (geti subset0 i) (geti subset0 i)); [lia|].
    destruct (Z.ltb_spec (geti subset0 i) (geti subset0 i)); [lia|].
    reflexivity. }
  rewrite Hfp. unfold second_pass. cbn. auto.
Qed.

Lemma update_chol_xty_same_subset_witness :
  let r := update_chol_xty dat_4x1 work_4x1 est_4x1 subset_4x1 subset_4x1 in
  fst (fst r) = WBACON_ERROR_OK /\
  est_L (snd r) = est_L est_4x1 /\ est_xty (snd r) = est_xty est_4x1.
Proof.
  apply (update_chol_xty_same_subset dat_4x1 work_4x1 est_4x1).
  reflexivity.
Defined.

(** The cross-products after the inner loop of one observation, without
    the update vector. *)
Lemma row_update_snd (op : R -> R -> R) (dat : regdata) (i : nat)
    (u xty : list R) :
  snd (row_update op dat i (u, xty)) =
  for_loop 0 (dat_p dat)
    (fun j a =>
       upd j (op (get a j)
                 (get (dat_x dat) (i + j * dat_n dat) * get (dat_y dat) i
                  * get (dat_w dat) i)) a)
    xty.
Proof.
  unfold row_update. symmetry.
  refine (for_loop_map (@snd (list R) (list R)) _ _ _ (dat_p dat) 0%nat
            (u, xty)).
  intros j [u1 x1]. reflexivity.
Qed.

Lemma row_update_round_trip (dat : regdata) (i : nat) (u u' xty : list R) :
  snd (row_update Rminus dat i
         (u', snd (row_update Rplus dat i (u, xty)))) = xty.
Proof.
  rewrite !row_update_snd.
  set (v := fun j => get (dat_x dat) (i + j * dat_n dat) * get (dat_y dat) i
                     * get (dat_w dat) i).
  change (for_loop 0 (dat_p dat) (fun j a => upd j (get a j - v j) a)
            (for_loop 0 (dat_p dat) (fun j a => upd j (get a j + v j) a) xty)
          = xty).
  pose proof (for_loop_pointwise (fun j a => Rplus a (v j)) (dat_p dat)
                0%nat xty) as H1.
  cbv beta zeta in H1. destruct H1 as [L1 G1].
  set (x1 := for_loop 0 (dat_p dat) _ xty) in *.
  pose proof (for_loop_pointwise (fun j a => Rminus a (v j)) (dat_p dat)
                0%nat x1) as H2.
  cbv beta zeta in H2. destruct H2 as [L2 G2].
  apply list_eq_get; [now rewrite L2, L1|].
  intros j Hj. rewrite G2, G1, L1.
  destruct ((0 <=? j)%nat && (j <? 0 + dat_p dat)%nat
            && (j <? length xty)%nat); [ring|reflexivity].
Qed.

(** X12. Taking an observation out of the cross-products undoes putting
    it in: the [-=] loop of [update_chol_xty] for observation [i], run
    after the [+=] loop for the same observation, gives back [xty]
    whatever the two loops find in the update vector. *)
Theorem row_update_add_remove (dat : regdata) (i : nat) (u u' xty : list R) :
  snd (row_update Rminus dat i
         (u', snd (row_update Rplus dat i (u, xty)))) = xty.
Proof.
  apply row_update_round_trip.
Qed.

(** ** The downdate undoes the update *)

(** The off-diagonal loop of a column, cell by cell. *)
Lemma offdiag_loop_cells (op : R -> R -> R) (p i : nat) (b c : R) :
  forall cnt lo L u,
    (p * i + lo + cnt <= length L)%nat -> (lo + cnt <= length u)%nat ->
    let s := for_loop lo cnt (offdiag_body op p i b c) (L, u) in
    length (fst s) = length L /\ length (snd s) = length u /\
    (forall idx,
       get (fst s) idx =
       if (p * i + lo <=? idx)%nat && (idx <? p * i + lo + cnt)%nat
       then op (get L idx) (c * get u (idx - p * i)) / b
       else get L idx) /\
    (forall j,
       get (snd s) j =
       if (lo <=? j)%nat && (j <? lo + cnt)%nat
       then b * get u j - c * (op (get L (p * i + j)) (c * get u j) / b)
       else get u j).
Proof.
  induction cnt as [|cnt IH]; intros lo L u HL Hu; cbn zeta.
  - cbn [for_loop fst snd]. repeat split; auto.
    + intros idx.
      destruct (Nat.leb_spec (p * i + lo) idx),
               (Nat.ltb_spec idx (p * i + lo + 0));
        cbn [andb]; try reflexivity; lia.
    + intros j.
      destruct (Nat.leb_spec lo j), (Nat.ltb_spec j (lo + 0));
        cbn [andb]; try reflexivity; lia.
  - cbn [for_loop].
    set (k := (p * i + lo)%nat).
    set (v := op (get L k) (c * get u lo)).
    assert (Eb : offdiag_body op p i b c lo (L, u) =
                 (upd k (v / b) L, upd lo (b * get u lo - c * (v / b)) u)).
    { unfold offdiag_body. fold k. fold v.
      assert (E1 : get (upd k v L) k = v) by (apply get_upd_eq; lia).
      rewrite E1.
      assert (E2 : upd k (v / b) (upd k v L) = upd k (v / b) L).
      { apply list_eq_get; [now rewrite !length_upd|].
        intros idx _. rewrite !get_upd, !length_upd.
        destruct ((k =? idx)%nat && (idx <? length L)%nat); reflexivity. }
      rewrite E2.
      assert (E3 : get (upd k (v / b) L) k = v / b)
        by (apply get_upd_eq; lia).
      now rewrite E3. }
    rewrite Eb.
    destruct (IH (S lo) (upd k (v / b) L) (upd lo (b * get u lo - c * (v / b)) u))
      as (H1 & H2 & H3 & H4); rewrite ?length_upd; try lia.
    cbn zeta in H1, H2, H3, H4.
    split; [now rewrite H1, length_upd|].
    split; [now rewrite H2, length_upd|].
    split.
    + intros idx. rewrite H3, !get_upd.
      destruct (Nat.eqb_spec k idx) as [<-|Hne].
      * destruct (Nat.leb_spec (p * i + S lo) k); [lia|].
        destruct (Nat.leb_spec k k); [|lia].
        destruct (Nat.ltb_spec k (k + S cnt)); [|lia].
        destruct (Nat.ltb_spec k (length L)); [|lia].
        cbn [andb]. subst v.
        replace (k - p * i)%nat with lo by (unfold k; lia). reflexivity.
      * destruct (Nat.eqb_spec lo (idx - p * i)) as [E|E];
          destruct (Nat.leb_spec (p * i + S lo) idx),
                   (Nat.leb_spec k idx),
                   (Nat.ltb_spec idx (p * i + S lo + cnt)),
                   (Nat.ltb_spec idx (k + S cnt));
          cbn [andb]; try reflexivity; try (unfold k in *; lia).
    + intros j. rewrite H4, !get_upd.
      destruct (Nat.eqb_spec lo j) as [<-|Hne].
      * destruct (Nat.leb_spec (S lo) lo); [lia|].
        destruct (Nat.leb_spec lo lo); [|lia].
        destruct (Nat.ltb_spec lo (lo + S cnt)); [|lia].
        destruct (Nat.ltb_spec lo (length u)); [|lia].
        cbn [andb]. reflexivity.
      * destruct (Nat.eqb_spec k (p * i + j)) as [E|E];
          [unfold k in E; lia|].
        destruct (Nat.leb_spec (S lo) j), (Nat.leb_spec lo j),
                 (Nat.ltb_spec j (S lo + cnt)), (Nat.ltb_spec j (lo + S cnt));
          cbn [andb]; try reflexivity; lia.
Qed.

(** A column step, cell by cell: the diagonal cell, the cells below it,
    and the entries of the vector after the column's. *)
Lemma col_step_cells (op : R -> R -> R) (p i : nat) (a b c : R)
    (L u : list R) :
  (i < p)%nat -> (p * p <= length L)%nat -> (p <= length u)%nat ->
  let s := col_step op p i a b c (L, u) in
  length (fst s) = length L /\ length (snd s) = length u /\
  (forall idx,
     get (fst s) idx =
     if (idx =? p * i + i)%nat then a
     else if (p * i + i + 1 <=? idx)%nat && (idx <? p * i + p)%nat
          then op (get L idx) (c * get u (idx - p * i)) / b
          else get L idx) /\
  (forall j,
     get (snd s) j =
     if (i + 1 <=? j)%nat && (j <? p)%nat
     then b * get u j - c * (op (get L (p * i + j)) (c * get u j) / b)
     else get u j).
Proof.
  intros Hi HL Hu. unfold col_step. cbn [fst snd].
  assert (Hd : (i * (p + 1))%nat = (p * i + i)%nat) by lia.
  assert (Hr : (p * i + p <= p * p)%nat) by nia.
  rewrite Hd.
  destruct (offdiag_loop_cells op p i b c (p - (i + 1)) (i + 1)
              (upd (p * i + i) a L) u) as (H1 & H2 & H3 & H4);
    rewrite ?length_upd; try lia.
  cbn zeta in *.
  split; [now rewrite H1, length_upd|]. split; [exact H2|]. split.
  - intros idx. rewrite H3, !get_upd.
    replace (p * i + (i + 1) + (p - (i + 1)))%nat with (p * i + p)%nat by lia.
    replace (p * i + (i + 1))%nat with (p * i + i + 1)%nat by lia.
    destruct (Nat.eqb_spec idx (p * i + i)) as [->|Hne].
    + destruct (Nat.leb_spec (p * i + i + 1) (p * i + i)); [lia|].
      cbn [andb]. rewrite Nat.eqb_refl.
      destruct (Nat.ltb_spec (p * i + i) (length L)); [reflexivity|lia].
    + destruct (Nat.eqb_spec (p * i + i) idx); [lia|]. reflexivity.
  - intros j. rewrite H4, get_upd.
    replace (i + 1 + (p - (i + 1)))%nat with p by lia.
    destruct (Nat.eqb_spec (p * i + i) (p * i + j)); [|reflexivity].
    destruct (Nat.leb_spec (i + 1) j); [lia|]. reflexivity.
Qed.

Lemma update_col_step (p i : nat) (L u : list R) :
  update_col p i (L, u) =
  col_step Rplus p i (hypot (get L (i * (p + 1))) (get u i))
           (hypot (get L (i * (p + 1))) (get u i) / get L (i * (p + 1)))
           (get u i / get L (i * (p + 1))) (L, u).
Proof. reflexivity. Qed.

Lemma downdate_col_step (p i : nat) (L u : list R) :
  0 <= POWER2 (get L (i * (p + 1))) - POWER2 (get u i) ->
  downdate_col p i (L, u) =
  inl (col_step Rminus p i
         (sqrt (POWER2 (get L (i * (p + 1))) - POWER2 (get u i)))
         (sqrt (POWER2 (get L (i * (p + 1))) - POWER2 (get u i))
          / get L (i * (p + 1)))
         (get u i / get L (i * (p + 1))) (L, u)).
Proof.
  intros H. unfold downdate_col. rewrite Rltb_false by exact H. reflexivity.
Qed.

Lemma undo_cell (t u a uj l : R) :
  0 < t -> 0 < a ->
  ((l + (u / t) * uj) / (a / t) - (u / a) * uj) / (t / a) = l.
Proof. intros. field. lra. Qed.

Lemma same_vector_cell (t u a uj l : R) :
  0 < t -> 0 < a -> a * a = t * t + u * u ->
  (a / t) * uj - (u / t) * ((l + (u / t) * uj) / (a / t))
  = (t / a) * uj - (u / a) * l.
Proof.
  intros Ht Ha E.
  assert (Hu : u * u = a * a - t * t) by lra.
  replace ((a / t) * uj - (u / t) * ((l + (u / t) * uj) / (a / t)))
    with ((a * a * uj - u * l * t - (u * u) * uj) / (a * t)) by (field; lra).
  rewrite Hu. field. lra.
Qed.

(** One column: the downdate step, run on the column that the update
    step has written and on the vector that the update step started
    from, gives back the column and the vector the update step ended
    with. *)
Lemma col_round_trip (p i : nat) (L u M : list R) :
  (i < p)%nat -> (p * p <= length L)%nat -> length M = length L ->
  (p <= length u)%nat -> 0 < get L (p * i + i) ->
  (forall j, (i <= j < p)%nat ->
             get M (p * i + j) = get (fst (update_col p i (L, u))) (p * i + j)) ->
  exists M1,
    downdate_col p i (M, u) = inl (M1, snd (update_col p i (L, u))) /\
    length M1 = length M /\
    (forall j, (i <= j < p)%nat -> get M1 (p * i + j) = get L (p * i + j)) /\
    (forall idx, ~ (p * i + i <= idx < p * i + p)%nat ->
                 get M1 idx = get M idx).
Proof.
  intros Hi HL HM Hu Ht HMcol.
  assert (Hd : (i * (p + 1))%nat = (p * i + i)%nat) by lia.
  rewrite update_col_step in *. rewrite Hd in *.
  set (t := get L (p * i + i)) in *. set (ui := get u i) in *.
  set (a := hypot t ui) in *.
  assert (Ha2 : a * a = t * t + ui * ui)
    by (unfold a, hypot; apply sqrt_sqrt; nra).
  assert (Ha : 0 < a) by (unfold a, hypot; apply sqrt_lt_R0; nra).
  destruct (col_step_cells Rplus p i a (a / t) (ui / t) L u Hi HL Hu)
    as (U1 & U2 & U3 & U4).
  cbn zeta in U1, U2, U3, U4.
  set (s1 := col_step Rplus p i a (a / t) (ui / t) (L, u)) in *.
  assert (HMd : get M (p * i + i) = a).
  { rewrite (HMcol i) by lia. rewrite U3, Nat.eqb_refl. reflexivity. }
  assert (Hpiv : POWER2 (get M (i * (p + 1))) - POWER2 (get u i) = t * t).
  { rewrite Hd, HMd. fold ui. unfold POWER2. lra. }
  rewrite downdate_col_step by (rewrite Hpiv; nra).
  rewrite Hpiv, Hd, HMd. fold ui.
  rewrite sqrt_square by lra.
  assert (HL' : (p * p <= length M)%nat) by lia.
  destruct (col_step_cells Rminus p i t (t / a) (ui / a) M u Hi HL' Hu)
    as (D1 & D2 & D3 & D4).
  cbn zeta in D1, D2, D3, D4.
  set (s2 := col_step Rminus p i t (t / a) (ui / a) (M, u)) in *.
  assert (Hoff : forall j, (i + 1 <= j < p)%nat ->
            get M (p * i + j)
            = (get L (p * i + j) + ui / t * get u j) / (a / t)).
  { intros j Hj. rewrite (HMcol j) by lia. rewrite U3.
    destruct (Nat.eqb_spec (p * i + j) (p * i + i)); [lia|].
    destruct (Nat.leb_spec (p * i + i + 1) (p * i + j)); [|lia].
    destruct (Nat.ltb_spec (p * i + j) (p * i + p)); [|lia].
    cbn [andb]. replace (p * i + j - p * i)%nat with j by lia. reflexivity. }
  exists (fst s2). split; [|split; [exact D1|split]].
  - f_equal. rewrite (surjective_pairing s2). f_equal.
    apply list_eq_get; [congruence|].
    intros j _. rewrite D4, U4.
    destruct ((i + 1 <=? j)%nat && (j <? p)%nat) eqn:E; [|reflexivity].
    apply andb_true_iff in E. destruct E as [E1 E2].
    apply Nat.leb_le in E1. apply Nat.ltb_lt in E2.
    rewrite (Hoff j) by lia.
    unfold Rminus at 2.
    change ((get L (p * i + j) + ui / t * get u j) / (a / t)
            + - (ui / a * get u j))
      with ((get L (p * i + j) + ui / t * get u j) / (a / t)
            - ui / a * get u j).
    rewrite undo_cell by assumption.
    symmetry. apply same_vector_cell; assumption.
  - intros j Hj. rewrite D3.
    destruct (Nat.eqb_spec (p * i + j) (p * i + i)) as [E|E].
    + replace j with i by lia. reflexivity.
    + destruct (Nat.leb_spec (p * i + i + 1) (p * i + j)); [|lia].
      destruct (Nat.ltb_spec (p * i + j) (p * i + p)); [|lia].
      cbn [andb]. replace (p * i + j - p * i)%nat with j by lia.
      rewrite (Hoff j) by lia. apply undo_cell; assumption.
  - intros idx Hout. rewrite D3.
    destruct (Nat.eqb_spec idx (p * i + i)); [lia|].
    destruct (Nat.leb_spec (p * i + i + 1) idx),
             (Nat.ltb_spec idx (p * i + p)); cbn [andb];
      try reflexivity; lia.
Qed.

(** What the column step of the update changes: nothing outside the
    column, and the sizes of neither array. *)
Lemma update_col_frame (p i : nat) (L u : list R) :
  (i < p)%nat -> (p * p <= length L)%nat -> (p <= length u)%nat ->
  let s := update_col p i (L, u) in
  length (fst s) = length L /\ length (snd s) = length u /\
  forall idx, ~ (p * i + i <= idx < p * i + p)%nat ->
              get (fst s) idx = get L idx.
Proof.
  intros Hi HL Hu. cbn zeta. rewrite update_col_step.
  match goal with
  | |- context [col_step Rplus p i ?a ?b ?c (L, u)] =>
      destruct (col_step_cells Rplus p i a b c L u Hi HL Hu)
        as (U1 & U2 & U3 & _)
  end.
  cbn zeta in U1, U2, U3. split; [exact U1|]. split; [exact U2|].
  intros idx Hc. rewrite U3.
  destruct (Nat.eqb_spec idx (p * i + i)); [lia|].
  destruct (Nat.leb_spec (p * i + i + 1) idx),
           (Nat.ltb_spec idx (p * i + p)); cbn [andb];
    try reflexivity; lia.
Qed.

Lemma tri_col (p lo j : nat) :
  (lo <= j < p)%nat -> tri p lo (p * lo + j).
Proof. intros Hj. exists lo, j. lia. Qed.

Lemma tri_S (p lo idx : nat) : tri p (S lo) idx -> tri p lo idx.
Proof. intros (i & j & H). exists i, j. lia. Qed.

Lemma tri_inv (p lo idx : nat) :
  tri p lo idx ->
  (exists j, (lo <= j < p)%nat /\ idx = (p * lo + j)%nat) \/ tri p (S lo) idx.
Proof.
  intros (i & j & Hi & Hij & Hj & ->).
  destruct (Nat.eq_dec i lo) as [->|Hne].
  - left. exists j. lia.
  - right. exists i, j. lia.
Qed.

Lemma tri_S_not_col (p lo idx : nat) :
  tri p (S lo) idx -> ~ (p * lo + lo <= idx < p * lo + p)%nat.
Proof. intros (i & j & Hi & Hij & Hj & ->). nia. Qed.

Lemma not_tri_not_col (p lo idx : nat) :
  ~ tri p lo idx -> ~ (p * lo + lo <= idx < p * lo + p)%nat.
Proof.
  intros Hn Hc. apply Hn. exists lo, (idx - p * lo)%nat. lia.
Qed.

Lemma chol_update_from_S (p lo cnt : nat) (s : list R * list R) :
  chol_update_from p lo (S cnt) s
  = chol_update_from p (S lo) cnt (update_col p lo s).
Proof. reflexivity. Qed.

Lemma chol_downdate_from_S (p lo cnt : nat) (s s' : list R * list R) :
  downdate_col p lo s = inl s' ->
  chol_downdate_from p lo (S cnt) s = chol_downdate_from p (S lo) cnt s'.
Proof.
  intros H. unfold chol_downdate_from. cbn [for_ret]. now rewrite H.
Qed.

(** The update from column [lo] on writes nowhere but in the lower
    triangle of these columns. *)
Lemma chol_update_from_frame (p : nat) :
  forall cnt lo L u,
    (lo + cnt = p - 1)%nat -> (1 <= p)%nat ->
    (p * p <= length L)%nat -> (p <= length u)%nat ->
    let s := chol_update_from p lo cnt (L, u) in
    length (fst s) = length L /\ length (snd s) = length u /\
    forall idx, ~ tri p lo idx -> get (fst s) idx = get L idx.
Proof.
  induction cnt as [|cnt IH]; intros lo L u Hlo Hp HL Hu; cbn zeta.
  - unfold chol_update_from. cbn [for_loop fst snd].
    rewrite length_upd. repeat split; auto.
    intros idx Hn. apply get_upd_neq. intros E. apply Hn.
    exists (p - 1)%nat, (p - 1)%nat. nia.
  - rewrite chol_update_from_S.
    assert (Hi : (lo < p)%nat) by lia.
    destruct (update_col_frame p lo L u Hi HL Hu) as (U1 & U2 & U3).
    cbn zeta in U1, U2, U3.
    destruct (update_col p lo (L, u)) as [L1 u1].
    cbn [fst snd] in *.
    destruct (IH (S lo) L1 u1) as (I1 & I2 & I3); try lia.
    cbn zeta in I1, I2, I3.
    split; [congruence|]. split; [congruence|].
    intros idx Hn. rewrite I3 by (intros Ht; apply Hn; now apply tri_S).
    apply U3. now apply not_tri_not_col.
Qed.

(** The downdate from column [lo] on, run on what the update from that
    column has written and on the vector the update started from, gives
    back the columns, and succeeds, when the diagonal is positive. *)
Lemma chol_round_trip_from (p : nat) :
  forall cnt lo L u M,
    (lo + cnt = p - 1)%nat -> (1 <= p)%nat ->
    (p * p <= length L)%nat -> length M = length L ->
    (p <= length u)%nat ->
    (forall i, (lo <= i < p)%nat -> 0 < get L (p * i + i)) ->
    (forall idx, tri p lo idx ->
       get M idx = get (fst (chol_update_from p lo cnt (L, u))) idx) ->
    exists M',
      chol_downdate_from p lo cnt (M, u)
      = (WBACON_ERROR_OK, (M', snd (chol_update_from p lo cnt (L, u)))) /\
      length M' = length M /\
      (forall idx, tri p lo idx -> get M' idx = get L idx) /\
      (forall idx, ~ tri p lo idx -> get M' idx = get M idx).
Proof.
  induction cnt as [|cnt IH]; intros lo L u M Hlo Hp HL HM Hu Hpos Hagree.
  - assert (Elo : lo = (p - 1)%nat) by lia. subst lo.
    assert (Ecell : (p * (p - 1) + (p - 1))%nat = (p * p - 1)%nat) by nia.
    assert (Hlast : tri p (p - 1) (p * p - 1)).
    { exists (p - 1)%nat, (p - 1)%nat. lia. }
    specialize (Hagree _ Hlast).
    specialize (Hpos (p - 1)%nat ltac:(lia)). rewrite Ecell in Hpos.
    unfold chol_update_from in *. cbn [for_loop fst snd] in *.
    rewrite get_upd_eq in Hagree by nia.
    set (l := get L (p * p - 1)) in *. set (v := get u (p - 1)) in *.
    assert (Ea : POWER2 (get M (p * p - 1)) - POWER2 v = l * l).
    { rewrite Hagree. unfold POWER2. rewrite sqrt_sqrt by nra. ring. }
    unfold chol_downdate_from. cbn [for_ret]. fold v.
    rewrite Ea, Rltb_false by nra. rewrite sqrt_square by lra.
    exists (upd (p * p - 1) l M).
    split; [reflexivity|]. split; [apply length_upd|]. split.
    + intros idx (i & j & Hi & Hij & Hj & ->).
      assert (i = (p - 1)%nat) by lia. assert (j = (p - 1)%nat) by lia.
      subst i j. rewrite Ecell. apply get_upd_eq. nia.
    + intros idx Hn. apply get_upd_neq. intros E. apply Hn.
      now rewrite <- E.
  - assert (Hi : (lo < p)%nat) by lia.
    rewrite chol_update_from_S in *.
    destruct (update_col_frame p lo L u Hi HL Hu) as (U1 & U2 & U3).
    cbn zeta in U1, U2, U3.
    destruct (chol_update_from_frame p cnt (S lo)
                (fst (update_col p lo (L, u))) (snd (update_col p lo (L, u))))
      as (F1 & F2 & F3); try lia.
    cbn zeta in F1, F2, F3. rewrite <- surjective_pairing in F1, F2, F3.
    destruct (col_round_trip p lo L u M Hi HL HM Hu (Hpos lo ltac:(lia)))
      as (M1 & D1 & D2 & D3 & D4).
    { intros j Hj. rewrite (Hagree _ (tri_col p lo j Hj)).
      apply F3. intros Ht. apply (tri_S_not_col p lo _ Ht). lia. }
    destruct (update_col p lo (L, u)) as [L1 u1]. cbn [fst snd] in *.
    rewrite (chol_downdate_from_S p lo cnt (M, u) (M1, u1) D1).
    destruct (IH (S lo) L1 u1 M1) as (M' & E1 & E2 & E3 & E4); try lia.
    + intros i Hi'. rewrite U3 by nia. apply Hpos. lia.
    + intros idx Ht.
      rewrite D4 by (now apply tri_S_not_col).
      apply Hagree. now apply tri_S.
    + exists M'. split; [exact E1|]. split; [congruence|]. split.
      * intros idx Ht. destruct (tri_inv p lo idx Ht) as [(j & Hj & ->)|Ht'].
        -- rewrite E4. { now apply D3. }
           intros Ht'. apply (tri_S_not_col p lo _ Ht'). lia.
        -- rewrite (E3 _ Ht'). apply U3. now apply tri_S_not_col.
      * intros idx Hn.
        rewrite E4 by (intros Ht; apply Hn; now apply tri_S).
        apply D4. now apply not_tri_not_col.
Qed.

Lemma chol_round_trip (p : nat) (L u : list R) :
  (1 <= p)%nat -> (p * p <= length L)%nat -> (p <= length u)%nat ->
  (forall i, (i < p)%nat -> 0 < get L (i * (p + 1))) ->
  chol_downdate (fst (chol_update L u p)) u p
  = (WBACON_ERROR_OK, (L, snd (chol_update L u p))).
Proof.
  intros Hp HL Hu Hpos.
  change (chol_update L u p) with (chol_update_from p 0 (p - 1) (L, u)).
  change (chol_downdate (fst (chol_update_from p 0 (p - 1) (L, u))) u p)
    with (chol_downdate_from p 0 (p - 1)
            (fst (chol_update_from p 0 (p - 1) (L, u)), u)).
  destruct (chol_update_from_frame p (p - 1) 0 L u) as (F1 & F2 & F3);
    try lia.
  cbn zeta in F1, F2, F3.
  destruct (chol_round_trip_from p (p - 1) 0 L u
              (fst (chol_update_from p 0 (p - 1) (L, u))))
    as (M' & E1 & E2 & E3 & E4); try lia; auto.
  { intros i Hi. replace (p * i + i)%nat with (i * (p + 1))%nat by lia.
    apply Hpos. lia. }
  rewrite E1. f_equal. f_equal.
  apply list_eq_get; [congruence|].
  intros idx _. destruct (Classical_Prop.classic (tri p 0 idx)) as [Ht|Hn].
  - now apply E3.
  - rewrite E4 by assumption. now apply F3.
Qed.

(** X13. The downdate undoes the update.  For a factor [L] with a
    positive diagonal, [chol_downdate] called on the factor that
    [chol_update L u] has produced, with the same vector [u] as the
    update was started with, succeeds and leaves [L] exactly as it was
    before the update.  (The vector is used up alike by the two
    routines.) *)
Theorem chol_downdate_undoes_update (p : nat) (L u : list R) :
  (1 <= p)%nat -> (p * p <= length L)%nat -> (p <= length u)%nat ->
  (forall i, (i < p)%nat -> 0 < get L (i * (p + 1))) ->
  chol_downdate (fst (chol_update L u p)) u p
  = (WBACON_ERROR_OK, (L, snd (chol_update L u p))).
Proof.
  intros Hp HL Hu Hpos. now apply chol_round_trip.
Qed.

Lemma chol_downdate_undoes_update_witness :
  chol_downdate (fst (chol_update [3; 1; 0; 2] [4; 1] 2)) [4; 1] 2
  = (WBACON_ERROR_OK, ([3; 1; 0; 2], snd (chol_update [3; 1; 0; 2] [4; 1] 2))).
Proof.
  apply (chol_downdate_undoes_update 2 [3; 1; 0; 2] [4; 1]);
    [lia | simpl; lia | simpl; lia |].
  intros [|[|i]] Hi; [unfold get; simpl; lra | unfold get; simpl; lra | lia].
Defined.

(** ** One observation in, the same observation out *)

Lemma for_loop_id {St : Type} (body : nat -> St -> St) :
  forall cnt lo s,
    (forall i s, (lo <= i < lo + cnt)%nat -> body i s = s) ->
    for_loop lo cnt body s = s.
Proof.
  induction cnt as [|cnt IH]; intros lo s Hb; cbn [for_loop]; auto.
  rewrite Hb by lia. apply IH. intros i s' Hi. apply Hb. lia.
Qed.

(** A loop whose body does something at one index only. *)
Lemma for_loop_single {St : Type} (body : nat -> St -> St) (k : nat) :
  forall cnt lo s,
    (lo <= k < lo + cnt)%nat ->
    (forall i s, (lo <= i < lo + cnt)%nat -> i <> k -> body i s = s) ->
    for_loop lo cnt body s = body k s.
Proof.
  induction cnt as [|cnt IH]; intros lo s Hk Hb; [lia|].
  cbn [for_loop]. destruct (Nat.eq_dec lo k) as [->|Hne].
  - apply for_loop_id. intros i s' Hi. apply Hb; lia.
  - rewrite (Hb lo s) by lia. apply IH; [lia|].
    intros i s' Hi Hik. apply Hb; lia.
Qed.

(** The update vector that the inner loop builds for an observation
    does not depend on what the vector held, when it has [p] cells. *)
Lemma row_update_fst (op op' : R -> R -> R) (dat : regdata) (i : nat)
    (u u' xty xty' : list R) :
  length u = dat_p dat -> length u' = dat_p dat ->
  fst (row_update op dat i (u, xty)) = fst (row_update op' dat i (u', xty')).
Proof.
  intros Hu Hu'.
  assert (E : forall (o : R -> R -> R) (a b : list R),
            fst (row_update o dat i (a, b)) =
            for_loop 0 (dat_p dat)
              (fun j a =>
                 upd j (get (dat_x dat) (i + j * dat_n dat)
                        * sqrt (get (dat_w dat) i)) a) a).
  { intros o a b. unfold row_update. symmetry.
    refine (for_loop_map (@fst (list R) (list R)) _ _ _ (dat_p dat) 0%nat
              (a, b)).
    intros j [a1 b1]. reflexivity. }
  rewrite !E.
  set (v := fun j => get (dat_x dat) (i + j * dat_n dat)
                     * sqrt (get (dat_w dat) i)).
  pose proof (for_loop_pointwise (fun j _ => v j) (dat_p dat) 0%nat u) as H1.
  pose proof (for_loop_pointwise (fun j _ => v j) (dat_p dat) 0%nat u') as H2.
  cbv beta zeta in H1, H2. destruct H1 as [L1 G1], H2 as [L2 G2].
  change (for_loop 0 (dat_p dat) (fun j a => upd j (v j) a) u
          = for_loop 0 (dat_p dat) (fun j a => upd j (v j) a) u').
  apply list_eq_get; [congruence|].
  intros j Hj. rewrite L1 in Hj. rewrite G1, G2, Hu, Hu'.
  cbn [Nat.leb Nat.add andb].
  destruct (Nat.ltb_spec j (dat_p dat)); [reflexivity|lia].
Qed.

Lemma first_pass_single (dat : regdata) (work : workarray) (est : estimate)
    (subset0 subset1 : list Z) (k : nat) :
  (k < dat_n dat)%nat ->
  (forall i, (i < dat_n dat)%nat -> i <> k ->
             geti subset1 i = geti subset0 i) ->
  first_pass dat work est subset0 subset1 =
  first_pass_body dat subset0 subset1 k
    (mk_pass (est_L est) (est_xty est) (work_p work) (iarray work) 0%Z
             0%nat).
Proof.
  intros Hk Heq. unfold first_pass. apply for_loop_single; [lia|].
  intros i s Hi Hik. unfold first_pass_body.
  rewrite (Heq i) by lia.
  destruct (Z.gtb_spec (geti subset0 i) (geti subset0 i)); [lia|].
  destruct (Z.ltb_spec (geti subset0 i) (geti subset0 i)); [lia|].
  reflexivity.
Qed.

Lemma update_chol_xty_round_trip (dat : regdata) (work : workarray)
    (est : estimate) (subset0 subset1 : list Z) (k : nat) :
  (k < dat_n dat)%nat -> (1 <= dat_p dat)%nat ->
  (dat_p dat * dat_p dat <= length (est_L est))%nat ->
  length (work_p work) = dat_p dat ->
  (1 <= length (iarray work))%nat ->
  (forall i, (i < dat_p dat)%nat ->
             0 < get (est_L est) (i * (dat_p dat + 1))) ->
  (geti subset0 k < geti subset1 k)%Z ->
  (forall i, (i < dat_n dat)%nat -> i <> k ->
             geti subset1 i = geti subset0 i) ->
  let r1 := update_chol_xty dat work est subset0 subset1 in
  let r2 := update_chol_xty dat (snd (fst r1)) (snd r1) subset1 subset0 in
  fst (fst r1) = WBACON_ERROR_OK /\ fst (fst r2) = WBACON_ERROR_OK /\
  est_L (snd r2) = est_L est /\ est_xty (snd r2) = est_xty est.
Proof.
  intros Hk Hp HL Hu Hst Hpos Hlt Heq. cbv zeta.
  set (p := dat_p dat) in *.
  (* the first transition: one update *)
  assert (E1 : exists w1,
             update_chol_xty dat work est subset0 subset1 =
             (WBACON_ERROR_OK, w1,
              set_xty
                (set_L est
                   (fst (chol_update (est_L est)
                           (fst (row_update Rplus dat k
                                   (work_p work, est_xty est))) p)))
                (snd (row_update Rplus dat k (work_p work, est_xty est))))
             /\ length (work_p w1) = p /\ iarray w1 = iarray work).
  { unfold update_chol_xty. fold p.
    set (w0 := set_work_np _ _).
    rewrite (first_pass_single dat w0 est subset0 subset1 k Hk Heq).
    unfold first_pass_body.
    destruct (Z.gtb_spec (geti subset1 k) (geti subset0 k)); [|lia].
    cbn [ps_u ps_xty ps_L ps_stack ps_n_update ps_n_downdate].
    change (work_p w0) with (work_p work).
    change (iarray w0) with (iarray work).
    pose proof (row_update_length Rplus dat k (work_p work) (est_xty est))
      as [Hl1 _].
    destruct (row_update Rplus dat k (work_p work, est_xty est))
      as [u1 x1].
    cbn [fst snd] in *.
    pose proof (chol_update_length p (est_L est) u1) as [_ Hl2].
    fold p. destruct (chol_update (est_L est) u1 p) as [L1 u2].
    cbn [fst snd] in *. unfold second_pass.
    cbn [ps_n_downdate for_ret ps_u ps_L ps_xty ps_stack].
    eexists. split; [reflexivity|]. cbn. split; [congruence|reflexivity]. }
  destruct E1 as (w1 & E1 & Hw1 & Hs1). rewrite E1. cbn [fst snd].
  split; [reflexivity|].
  (* the second transition: one downdate *)
  set (u1 := fst (row_update Rplus dat k (work_p work, est_xty est))).
  set (x1 := snd (row_update Rplus dat k (work_p work, est_xty est))).
  set (L1 := fst (chol_update (est_L est) u1 p)).
  set (est1 := set_xty (set_L est L1) x1).
  unfold update_chol_xty. fold p.
  set (w0 := set_work_np _ _).
  rewrite (first_pass_single dat w0 est1 subset1 subset0 k Hk).
  2:{ intros i Hi Hik. symmetry. now apply Heq. }
  unfold first_pass_body.
  destruct (Z.gtb_spec (geti subset0 k) (geti subset1 k)); [lia|].
  destruct (Z.ltb_spec (geti subset0 k) (geti subset1 k)); [|lia].
  cbn [ps_u ps_xty ps_L ps_stack ps_n_update ps_n_downdate].
  change (work_p w0) with (work_p w1).
  change (iarray w0) with (iarray w1).
  unfold second_pass.
  cbn [ps_n_downdate for_ret ps_u ps_L ps_xty ps_stack].
  unfold second_pass_body.
  cbn [ps_u ps_xty ps_L ps_stack ps_n_update ps_n_downdate].
  rewrite geti_upd_eq by (rewrite Hs1; lia). rewrite Nat2Z.id.
  change (est_xty est1) with x1. change (est_L est1) with L1.
  assert (Ex : snd (row_update Rminus dat k (work_p w1, x1)) = est_xty est)
    by apply row_update_round_trip.
  assert (Eu : fst (row_update Rminus dat k (work_p w1, x1)) = u1).
  { apply row_update_fst; assumption. }
  destruct (row_update Rminus dat k (work_p w1, x1)) as [u3 x3].
  cbn [fst snd] in Ex, Eu. subst u3 x3.
  pose proof (row_update_length Rplus dat k (work_p work) (est_xty est))
    as [Hl1 _].
  fold u1 in Hl1. fold p.
  change (chol_downdate L1 u1 p)
    with (chol_downdate (fst (chol_update (est_L est) u1 p)) u1 p).
  rewrite (chol_round_trip p (est_L est) u1 Hp HL ltac:(lia) Hpos).
  cbn. auto.
Qed.

(** X14. One observation in, the same observation out.  When [subset1]
    differs from [subset0] in one observation [k] only, which it adds,
    and the factor has a positive diagonal, the transition from
    [subset0] to [subset1] followed by the transition back both return
    [WBACON_ERROR_OK], and the factor [L] and the cross-products [xty]
    are again what they were. *)
Theorem update_chol_xty_add_then_remove (dat : regdata) (work : workarray)
    (est : estimate) (subset0 subset1 : list Z) (k : nat) :
  (k < dat_n dat)%nat -> (1 <= dat_p dat)%nat ->
  (dat_p dat * dat_p dat <= length (est_L est))%nat ->
  length (work_p work) = dat_p dat ->
  (1 <= length (iarray work))%nat ->
  (forall i, (i < dat_p dat)%nat ->
             0 < get (est_L est) (i * (dat_p dat + 1))) ->
  (geti subset0 k < geti subset1 k)%Z ->
  (forall i, (i < dat_n dat)%nat -> i <> k ->
             geti subset1 i = geti subset0 i) ->
  let r1 := update_chol_xty dat work est subset0 subset1 in
  let r2 := update_chol_xty dat (snd (fst r1)) (snd r1) subset1 subset0 in
  fst (fst r1) = WBACON_ERROR_OK /\ fst (fst r2) = WBACON_ERROR_OK /\
  est_L (snd r2) = est_L est /\ est_xty (snd r2) = est_xty est.
Proof.
  intros Hk Hp HL Hu Hst Hpos Hlt Heq.
  exact (update_chol_xty_round_trip dat work est subset0 subset1 k
           Hk Hp HL Hu Hst Hpos Hlt Heq).
Qed.

Lemma update_chol_xty_add_then_remove_witness :
  let r1 := update_chol_xty dat_4x1 work_4x1 est_4x1 subset_4x1
                            [1%Z; 1%Z; 1%Z; 1%Z] in
  let r2 := update_chol_xty dat_4x1 (snd (fst r1)) (snd r1)
                            [1%Z; 1%Z; 1%Z; 1%Z] subset_4x1 in
  fst (fst r1) = WBACON_ERROR_OK /\ fst (fst r2) = WBACON_ERROR_OK /\
  est_L (snd r2) = est_L est_4x1 /\ est_xty (snd r2) = est_xty est_4x1.
Proof.
  apply (update_chol_xty_add_then_remove dat_4x1 work_4x1 est_4x1 subset_4x1
           [1%Z; 1%Z; 1%Z; 1%Z] 3);
    [simpl; lia | simpl; lia | simpl; lia | reflexivity | simpl; lia
    | | cbn; lia | ].
  - intros [|i] Hi; [unfold get; simpl; lra | simpl in Hi; lia].
  - intros [|[|[|[|i]]]] Hi Hne; cbn in *; try reflexivity; lia.
Defined.

(** ** What the steps return *)

Lemma is_ok_false (e : wbacon_error_type) :
  is_ok e = false -> e <> WBACON_ERROR_OK.
Proof. destruct e; cbn; congruence. Qed.

Lemma compute_ti_status {lapack : Lapack} (dat : regdata) (work : workarray)
    (est : estimate) (subset : list Z) (m : Z) (tis : list R) :
  fst (fst (compute_ti dat work est subset m tis)) = WBACON_ERROR_OK \/
  fst (fst (compute_ti dat work est subset m tis))
  = WBACON_ERROR_TRIANG_MAT_SINGULAR.
Proof.
  unfold compute_ti, hat_matrix.
  destruct (dtrtri _ _) as [inv info].
  destruct (negb (Z.eqb info 0)); cbn; auto.
Qed.

Lemma update_chol_xty_status (dat : regdata) (work : workarray)
    (est : estimate) (subset0 subset1 : list Z) :
  fst (fst (update_chol_xty dat work est subset0 subset1)) = WBACON_ERROR_OK \/
  fst (fst (update_chol_xty dat work est subset0 subset1))
  = WBACON_ERROR_RANK_DEFICIENT.
Proof.
  unfold update_chol_xty.
  set (s1 := first_pass _ _ _ _ _).
  pose proof (for_ret_inv (fun _ : pass_state => True)
                (fun r : wbacon_error_type * pass_state =>
                   fst r = WBACON_ERROR_RANK_DEFICIENT)
                (second_pass_body dat)) as H.
  specialize (H ltac:(
    intros i s _; pose proof (second_pass_body_spec dat i s) as Hs;
    destruct (second_pass_body dat i s) as [s'|[e s']]; cbn; tauto)).
  specialize (H (ps_n_downdate s1) 0%nat s1 I).
  unfold second_pass.
  destruct (for_ret 0 (ps_n_downdate s1) (second_pass_body dat) s1)
    as [s2|[err s2]]; cbn in *; auto.
Qed.

(** One turn of step 2: what it does to [*maxiter] and, when it
    converges, to the subsets. *)
Lemma algorithm_5_body_maxiter {lapack : Lapack} {rmath : Rmath}
    {fit : FitDriver} (n p : nat) (alpha : R) (iter : nat) (s : state) :
  match algorithm_5_body n p alpha iter s with
  | inl s' => st_maxiter s' = st_maxiter s
  | inr r =>
      (fst r = WBACON_ERROR_OK ->
       st_maxiter (snd r) = Z.of_nat iter /\
       forall i, (i < n)%nat ->
         geti (st_subset0 (snd r)) i = geti (st_subset1 (snd r)) i) /\
      (fst r <> WBACON_ERROR_OK -> st_maxiter (snd r) = st_maxiter s)
  end.
Proof.
  unfold algorithm_5_body.
  assert (Hrefit :
    match refit n p s with
    | inl s1 => st_maxiter s1 = st_maxiter s
    | inr r => fst r <> WBACON_ERROR_OK /\ st_maxiter (snd r) = st_maxiter s
    end).
  { unfold refit.
    destruct (fitwls_est _ _ _ _ _) as [[info dat] est].
    destruct (negb (Z.eqb info 0)); cbn; [split; [discriminate|reflexivity]|].
    destruct (compute_ti _ _ _ _ _ _) as [[err work] dist].
    destruct (is_ok err) eqn:E; cbn; [reflexivity|].
    split; [now apply is_ok_false|reflexivity]. }
  destruct (refit n p s) as [s1|r1].
  - unfold reselect.
    destruct (candidate n p alpha s1) as [subset1 m].
    cbn [st_subset0 set_m set_subset1].
    destruct (Nat.eqb_spec (first_difference n (st_subset0 s1) subset1) n)
      as [E|E]; cbn [fst snd].
    + split; [|congruence]. intros _. cbn. split; [reflexivity|].
      now apply first_difference_spec.
    + cbn. exact Hrefit.
  - destruct Hrefit as [H1 H2]. split; [contradiction|intros _; exact H2].
Qed.

(** The loop of step 2 as a whole. *)
Lemma algorithm_5_maxiter {lapack : Lapack} {rmath : Rmath}
    {fit : FitDriver} (alpha : R) (s : state) :
  let r := algorithm_5 alpha s in
  (fst r = WBACON_ERROR_OK ->
   (1 <= st_maxiter (snd r) <= st_maxiter s)%Z /\
   forall i, (i < dat_n (st_dat s))%nat ->
     geti (st_subset0 (snd r)) i = geti (st_subset1 (snd r)) i) /\
  (fst r <> WBACON_ERROR_OK -> st_maxiter (snd r) = st_maxiter s).
Proof.
  cbv zeta. unfold algorithm_5.
  set (n := dat_n (st_dat s)). set (p := dat_p (st_dat s)).
  set (body := algorithm_5_body n p alpha).
  set (cnt := Z.to_nat (st_maxiter s)).
  split.
  - destruct (for_ret 1 cnt body s) as [s'|r] eqn:Hrun; cbn [fst snd];
      [discriminate|].
    intros Hok. apply for_ret_inr_iff in Hrun.
    destruct Hrun as (k & sk & Hk & Hpre & Hlast).
    pose proof (for_ret_inv (fun t => st_maxiter t = st_maxiter s)
                  (fun _ : wbacon_error_type * state => True) body) as Hinv.
    specialize (Hinv ltac:(
      intros i t Ht; pose proof (algorithm_5_body_maxiter n p alpha i t) as Hb;
      fold body in Hb; destruct (body i t); [congruence|exact I])).
    specialize (Hinv k 1%nat s eq_refl). rewrite Hpre in Hinv.
    pose proof (algorithm_5_body_maxiter n p alpha (1 + k) sk) as Hb.
    fold body in Hb. rewrite Hlast in Hb. destruct Hb as [Hb _].
    destruct (Hb Hok) as [Hm Hsub]. split; [|exact Hsub].
    rewrite Hm. subst cnt. lia.
  - pose proof (for_ret_inv (fun t => st_maxiter t = st_maxiter s)
                  (fun r : wbacon_error_type * state =>
                     fst r <> WBACON_ERROR_OK ->
                     st_maxiter (snd r) = st_maxiter s) body) as Hinv.
    specialize (Hinv ltac:(
      intros i t Ht; pose proof (algorithm_5_body_maxiter n p alpha i t) as Hb;
      fold body in Hb; destruct (body i t) as [t'|r'];
      [congruence|intros Hne; destruct Hb as [_ Hb]; rewrite (Hb Hne);
                  exact Ht])).
    specialize (Hinv cnt 1%nat s eq_refl).
    destruct (for_ret 1 cnt body s) as [s'|r]; cbn [fst snd]; auto.
Qed.

(** X15. What [algorithm_5] returns.  If it returns [WBACON_ERROR_OK],
    [*maxiter] holds the number of the iteration that converged, which
    lies between 1 and the [*maxiter] of entry, and the two subsets agree
    on every observation.  If it returns anything else, [*maxiter] is
    untouched.  If [*maxiter] is not positive at entry, the loop is not
    entered: the status is [WBACON_ERROR_CONVERGENCE_FAILURE] and nothing
    is changed. *)
Theorem algorithm_5_returns {lapack : Lapack} {rmath : Rmath}
    {fit : FitDriver} (alpha : R) (s : state) :
  let r := algorithm_5 alpha s in
  (fst r = WBACON_ERROR_OK ->
   (1 <= st_maxiter (snd r) <= st_maxiter s)%Z /\
   forall i, (i < dat_n (st_dat s))%nat ->
     geti (st_subset0 (snd r)) i = geti (st_subset1 (snd r)) i) /\
  (fst r <> WBACON_ERROR_OK -> st_maxiter (snd r) = st_maxiter s) /\
  ((st_maxiter s <= 0)%Z -> r = (WBACON_ERROR_CONVERGENCE_FAILURE, s)).
Proof.
  cbv zeta. destruct (algorithm_5_maxiter alpha s) as [H1 H2].
  split; [exact H1|]. split; [exact H2|].
  intros Hle. unfold algorithm_5.
  replace (Z.to_nat (st_maxiter s)) with 0%nat by lia. reflexivity.
Qed.

Lemma grow_returns (collect : Z) :
  forall (fuel : nat) (s : state),
    match grow fuel collect s with
    | None => True
    | Some (inl s') => st_dat s' = st_dat s
    | Some (inr r) =>
        fst r = WBACON_ERROR_RANK_DEFICIENT /\
        st_m (snd r) = (Z.of_nat (dat_p (st_dat s)) * collect)%Z /\
        st_dat (snd r) = st_dat s
    end.
Proof.
  induction fuel as [|fuel IH]; intros s; cbn [grow]; [exact I|].
  set (subset1 := upd _ 1%Z (st_subset1 s)).
  pose proof (update_chol_xty_status (st_dat s) (st_work s) (st_est s)
                (st_subset0 s) subset1) as Hst.
  destruct (update_chol_xty (st_dat s) _ _ _ _) as [[err work] est].
  cbn [fst] in Hst.
  destruct (is_ok err) eqn:Eok; [reflexivity|].
  cbn [st_dat set_est set_work set_m set_subset1].
  destruct (Z.eqb_spec (st_m s + 1) (Z.of_nat (dat_p (st_dat s)) * collect))
    as [E|E].
  - cbn. destruct Hst as [->| ->]; [discriminate|]. auto.
  - specialize (IH (set_est (set_work (set_m (set_subset1 s subset1)
                                             (st_m s + 1)) work) est)).
    destruct (grow fuel collect _) as [[s'|r]|]; auto.
Qed.

Lemma algorithm_4_rest_returns {lapack : Lapack} {psort : PartialSort}
    (collect : Z) (s : state) :
  match algorithm_4_rest collect s with
  | inl s' => st_dat s' = st_dat s
  | inr r =>
      st_dat (snd r) = st_dat s /\
      ((fst r = WBACON_ERROR_OK /\
        st_m (snd r) = (Z.of_nat (dat_p (st_dat s)) * collect + 1)%Z) \/
       fst r = WBACON_ERROR_TRIANG_MAT_SINGULAR)
  end.
Proof.
  unfold algorithm_4_rest.
  cbn [st_est st_dat st_work st_subset0 st_subset1 st_m set_subset0].
  set (est1 := set_resid _ _).
  pose proof (compute_ti_status (st_dat s) (st_work s) est1 (st_subset1 s)
                (st_m s) (est_dist est1)) as Hst.
  destruct (compute_ti (st_dat s) _ _ _ _ _) as [[err work] dist].
  cbn [fst] in Hst.
  destruct (is_ok err) eqn:Eok; cbn [negb].
  - cbn [st_m set_m set_est set_work set_subset0 st_subset1 st_est].
    destruct (Z.eqb_spec (st_m s + 1)
                (Z.of_nat (dat_p (st_dat s)) * collect + 1)) as [E|E].
    + cbn. split; [reflexivity|]. left. split; [|exact E].
      destruct Hst as [->| ->]; [reflexivity|discriminate].
    + destruct (select_subset dist _ _ _) as [dist' subset1']. reflexivity.
  - cbn. split; [reflexivity|]. right.
    destruct Hst as [->| ->]; [discriminate|reflexivity].
Qed.

(** X16. What [algorithm_4] returns.  It returns [WBACON_ERROR_OK] only
    with [*m = p * collect + 1], it returns the error of a failed
    transition only with [*m = p * collect], and its only other return
    is the error of a singular factor; it never changes the data. *)
Theorem algorithm_4_returns {lapack : Lapack} {psort : PartialSort}
    (collect : Z) :
  forall (fuel : nat) (s : state),
    match algorithm_4 fuel collect s with
    | None => True
    | Some r =>
        st_dat (snd r) = st_dat s /\
        ((fst r = WBACON_ERROR_OK /\
          st_m (snd r) = (Z.of_nat (dat_p (st_dat s)) * collect + 1)%Z) \/
         (fst r = WBACON_ERROR_RANK_DEFICIENT /\
          st_m (snd r) = (Z.of_nat (dat_p (st_dat s)) * collect)%Z) \/
         fst r = WBACON_ERROR_TRIANG_MAT_SINGULAR)
    end.
Proof.
  induction fuel as [|fuel IH]; intros s; cbn [algorithm_4]; [exact I|].
  destruct (update_chol_xty (st_dat s) _ _ _ _) as [[err work] est].
  set (s1 := set_est (set_work s work) est).
  assert (Hg : match (if is_ok err then Some (inl s1)
                      else grow fuel collect s1) with
               | None => True
               | Some (inl s') => st_dat s' = st_dat s
               | Some (inr r) =>
                   fst r = WBACON_ERROR_RANK_DEFICIENT /\
                   st_m (snd r) = (Z.of_nat (dat_p (st_dat s)) * collect)%Z /\
                   st_dat (snd r) = st_dat s
               end).
  { destruct (is_ok err); [reflexivity|]. apply (grow_returns collect fuel s1). }
  destruct (if is_ok err then Some (inl s1) else grow fuel collect s1)
    as [[s2|r]|]; [|tauto|exact I].
  pose proof (algorithm_4_rest_returns collect s2) as Hr.
  rewrite Hg in Hr.
  destruct (algorithm_4_rest collect s2) as [s3|r].
  - specialize (IH s3). rewrite Hr in IH. exact IH.
  - destruct Hr as [Hd [H|H]]; split; auto; congruence.
Qed.

Lemma for_ret_inv_idx {St T : Type} (P : nat -> St -> Prop) (Q : T -> Prop)
    (body : nat -> St -> St + T) :
  forall cnt lo s,
    (forall i s, (lo <= i < lo + cnt)%nat -> P i s ->
       match body i s with inl s' => P (S i) s' | inr t => Q t end) ->
    P lo s ->
    match for_ret lo cnt body s with
    | inl s' => P (lo + cnt)%nat s'
    | inr t => Q t
    end.
Proof.
  induction cnt as [|cnt IH]; intros lo s Hb Hs; cbn [for_ret].
  - now rewrite Nat.add_0_r.
  - pose proof (Hb lo s ltac:(lia) Hs) as H1.
    destruct (body lo s) as [s'|t]; [|exact H1].
    replace (lo + S cnt)%nat with (S lo + cnt)%nat by lia.
    apply IH; [|exact H1]. intros i s0 Hi. apply Hb. lia.
Qed.

Lemma geti_upd (i j : nat) (v : Z) (a : list Z) :
  geti (upd i v a) j =
  if (i =? j)%nat && (j <? length a)%nat then v else geti a j.
Proof.
  destruct (Nat.eqb_spec i j) as [->|Hij]; cbn [andb].
  - destruct (Nat.ltb_spec j (length a)).
    + now apply geti_upd_eq.
    + now rewrite upd_ge.
  - now apply geti_upd_neq.
Qed.

(** X17. What [initial_reg] returns.  The status is the one of
    [compute_ti], [WBACON_ERROR_OK] or the error of a singular factor:
    the rank-deficient verdict of the solver is never returned, not even
    when the subset has been enlarged to all [n] observations without a
    fit of full rank.  The size [*m] does not decrease and does not go
    beyond [n] unless it was beyond it at entry; every cell of the subset
    is either what it was or 1. *)
Theorem initial_reg_returns {lapack : Lapack} {psort : PartialSort}
    {fit : FitDriver} (s : state) :
  let r := initial_reg s in
  (fst r = WBACON_ERROR_OK \/ fst r = WBACON_ERROR_TRIANG_MAT_SINGULAR) /\
  (st_m s <= st_m (snd r) <= Z.max (st_m s) (Z.of_nat (dat_n (st_dat s))))%Z /\
  (forall i, geti (st_subset0 (snd r)) i = geti (st_subset0 s) i \/
             geti (st_subset0 (snd r)) i = 1%Z) /\
  st_subset1 (snd r) = st_subset1 s /\ st_maxiter (snd r) = st_maxiter s.
Proof.
  cbv zeta. unfold initial_reg.
  set (n := dat_n (st_dat s)).
  destruct (fitwls_est (st_dat s) _ _ _ _) as [[info d1] e1].
  set (T := if negb (Z.eqb info 0) then _ else (d1, st_work s, e1, _, _)).
  assert (HT : (st_m s <= snd T <= Z.max (st_m s) (Z.of_nat n))%Z /\
               forall i, geti (snd (fst T)) i = geti (st_subset0 s) i \/
                         geti (snd (fst T)) i = 1%Z).
  { subst T. destruct (negb (Z.eqb info 0)); [|cbn; split; [lia|auto]].
    destruct (psort_array _ _ _ _) as [dist idx].
    set (k := set_iarray (st_work s) idx).
    set (cnt := Z.to_nat (Z.of_nat n - st_m s)).
    pose proof (for_ret_inv_idx
      (fun i (a : regdata * estimate * list Z * Z) =>
         snd a = (st_m s + Z.of_nat i)%Z /\
         forall j, geti (snd (fst a)) j = geti (st_subset0 s) j \/
                   geti (snd (fst a)) j = 1%Z)
      (fun a : regdata * estimate * list Z * Z =>
         (st_m s <= snd a <= st_m s + Z.of_nat cnt)%Z /\
         forall j, geti (snd (fst a)) j = geti (st_subset0 s) j \/
                   geti (snd (fst a)) j = 1%Z)
      (enlarge_body k) cnt 0%nat
      (d1, set_dist e1 dist, st_subset0 s, st_m s)) as H.
    assert (Hstep : forall j v (a : list Z),
              (geti a j = geti (st_subset0 s) j \/ geti a j = 1%Z) ->
              geti (upd v 1%Z a) j = geti (st_subset0 s) j \/
              geti (upd v 1%Z a) j = 1%Z).
    { intros j v a Ha. rewrite geti_upd.
      destruct ((v =? j)%nat && (j <? length a)%nat); auto. }
    specialize (H ltac:(
      intros i [[[d e] sub] m] Hi [Hm Hsub]; cbn [fst snd] in *;
      unfold enlarge_body;
      destruct (fitwls_est d e _ _ _) as [[info' d'] e'];
      destruct (Z.eqb info' 0); cbn [fst snd];
      (split; [lia|]); intros j; apply Hstep; apply Hsub)).
    specialize (H ltac:(cbn; split; [lia|auto])).
    destruct (for_ret 0 cnt (enlarge_body k) _)
      as [[[[a1 a2] a3] a4]|[[[a1 a2] a3] a4]]; cbn [fst snd] in *;
      destruct H as [Hm Hsub]; (split; [subst cnt; lia|exact Hsub]). }
  destruct T as [[[[d2 k2] e2] sub2] m2]. cbn [fst snd] in HT.
  set (e3 := set_xty _ _).
  pose proof (compute_ti_status d2 k2 e3 sub2 m2 (est_dist e3)) as Hst.
  destruct (compute_ti d2 k2 e3 sub2 m2 (est_dist e3)) as [[err k4] dist4].
  cbn [fst snd st_m st_subset0 st_subset1 st_maxiter] in *.
  tauto.
Qed.

(** ** Closed forms of the loops *)

Lemma sum_upto_nonneg (f : nat -> R) (k : nat) :
  (forall j, 0 <= f j) -> 0 <= sum_upto f k.
Proof.
  intros Hf. induction k as [|k IH]; cbn [sum_upto]; [lra|].
  specialize (Hf k). lra.
Qed.

(** X18. The leverages as row sums.  When [hat_matrix] returns
    [WBACON_ERROR_OK] (and [p >= 1]), cell [i < n] of [hat] holds the sum
    over the [p] columns of the squared entries of row [i] of the matrix
    that it has left in [work_np] (x times the inverse factor,
    transposed), times the weight of observation [i]; so no leverage of
    an observation with a nonnegative weight is negative. *)
Theorem hat_matrix_row_sums {lapack : Lapack} (dat : regdata)
    (work : workarray) (L hat : list R) :
  (1 <= dat_p dat)%nat ->
  let r := hat_matrix dat work L hat in
  fst (fst r) = WBACON_ERROR_OK ->
  length (snd r) = length hat /\
  forall i, (i < dat_n dat)%nat -> (i < length hat)%nat ->
    get (snd r) i =
    sum_upto (fun j => POWER2 (get (work_np (snd (fst r))) (i + j * dat_n dat)))
             (dat_p dat)
    * get (dat_w dat) i /\
    (0 <= get (dat_w dat) i -> 0 <= get (snd r) i).
Proof.
  intros Hp. cbv zeta. unfold hat_matrix.
  set (n := dat_n dat). set (p := dat_p dat) in *.
  destruct (dtrtri p _) as [inv info].
  destruct (negb (Z.eqb info 0)); cbn [fst snd]; [discriminate|].
  intros _. cbn [work_np set_work_np set_work_pp].
  set (xl := dtrmm n p 1 inv _).
  set (f := fun i j => POWER2 (get xl (i + j * n))).
  (* first loop *)
  pose proof (for_loop_pointwise (fun i _ => POWER2 (get xl i)) n 0%nat hat)
    as H1.
  cbv beta zeta in H1. destruct H1 as [L1 G1].
  set (hat1 := for_loop 0 n (fun i hat => upd i (POWER2 (get xl i)) hat) hat)
    in *.
  (* second loop *)
  pose proof (for_loop_inv_idx
    (fun j h => length h = length hat /\
                forall i, (i < n)%nat -> (i < length hat)%nat ->
                          get h i = sum_upto (f i) j)
    (fun j hat =>
       for_loop 0 n
         (fun i hat => upd i (get hat i + POWER2 (get xl (i + j * n))) hat)
         hat)
    (p - 1) 1%nat hat1) as H2.
  cbv beta in H2.
  specialize (H2 ltac:(
    intros j h Hj [Hl Hg];
    pose proof (for_loop_pointwise
                  (fun i v => v + POWER2 (get xl (i + j * n))) n 0%nat h) as Hq;
    cbv beta zeta in Hq; destruct Hq as [Lq Gq];
    split; [congruence|];
    intros i Hi Hi'; rewrite Gq; cbn [Nat.leb Nat.add andb];
    destruct (Nat.ltb_spec i n); [|lia];
    destruct (Nat.ltb_spec i (length h)); [|lia];
    cbn [andb sum_upto]; rewrite Hg by assumption; reflexivity)).
  specialize (H2 ltac:(
    split; [exact L1|];
    intros i Hi Hi'; rewrite G1; cbn [Nat.leb Nat.add andb sum_upto];
    destruct (Nat.ltb_spec i n); [|lia];
    destruct (Nat.ltb_spec i (length hat)); [|lia];
    cbn [andb]; unfold f; rewrite Nat.mul_0_l, Nat.add_0_r; ring)).
  replace (1 + (p - 1))%nat with p in H2 by lia.
  destruct H2 as [L2 G2].
  set (hat2 := for_loop 1 (p - 1) _ hat1) in *.
  (* third loop *)
  pose proof (for_loop_pointwise (fun i v => v * get (dat_w dat) i) n 0%nat
                hat2) as H3.
  cbv beta zeta in H3. destruct H3 as [L3 G3].
  split; [congruence|].
  intros i Hi Hi'. rewrite G3. cbn [Nat.leb Nat.add andb].
  destruct (Nat.ltb_spec i n); [|lia].
  destruct (Nat.ltb_spec i (length hat2)); [|lia].
  cbn [andb]. rewrite G2 by assumption.
  split; [reflexivity|].
  intros Hw. apply Rmult_le_pos; [|exact Hw].
  apply sum_upto_nonneg. intros j. unfold f, POWER2. nra.
Qed.

Lemma hat_matrix_row_sums_witness :
  let r := hat_matrix (lapack := lapack_p1) dat_4x1 work_4x1 (est_L est_4x1)
                      (work_n work_4x1) in
  length (snd r) = length (work_n work_4x1) /\
  forall i, (i < dat_n dat_4x1)%nat -> (i < length (work_n work_4x1))%nat ->
    get (snd r) i =
    sum_upto (fun j => POWER2 (get (work_np (snd (fst r)))
                                   (i + j * dat_n dat_4x1)))
             (dat_p dat_4x1)
    * get (dat_w dat_4x1) i /\
    (0 <= get (dat_w dat_4x1) i -> 0 <= get (snd r) i).
Proof.
  apply (hat_matrix_row_sums (lapack := lapack_p1) dat_4x1 work_4x1
           (est_L est_4x1) (work_n work_4x1)); [simpl; lia|].
  exact hat_matrix_4x1_ok.
Defined.

(** X19. [extract_L] transposes the triangle.  After the double loop
    that [initial_reg] and [algorithm_5] run, cell [(j, i)] of the lower
    triangle of [L] (column-major, [i <= j < p]) holds cell [(i, j)] of
    the upper triangle of [wx], and every other cell of [L] is what it
    was. *)
Theorem extract_L_transposes (n p : nat) (wx L : list R) :
  (p * p <= length L)%nat ->
  let L' := extract_L n p wx L in
  length L' = length L /\
  (forall i j, (i <= j < p)%nat -> get L' (j + i * p) = get wx (i + j * n)) /\
  (forall idx, (forall i j, (i <= j < p)%nat -> idx <> (j + i * p)%nat) ->
               get L' idx = get L idx).
Proof.
  intros HL. cbv zeta. unfold extract_L.
  pose proof (for_loop_inv_idx
    (fun i' Lc =>
       length Lc = length L /\
       (forall i j, (i < i')%nat -> (i <= j < p)%nat ->
                    get Lc (j + i * p) = get wx (i + j * n)) /\
       (forall idx,
          (forall i j, (i < i')%nat -> (i <= j < p)%nat ->
                       idx <> (j + i * p)%nat) ->
          get Lc idx = get L idx))
    (fun i L =>
       for_loop i (p - i)
         (fun j L => upd (j + i * p) (get wx (i + j * n)) L) L)
    p 0%nat L) as H.
  cbv beta in H. cbn [Nat.add] in H.
  destruct H as (H1 & H2 & H3).
  - intros i Lc Hi (C1 & C2 & C3).
    pose proof (for_loop_inv_idx
      (fun j' La =>
         length La = length L /\
         (forall j, (i <= j < j')%nat ->
                    get La (j + i * p) = get wx (i + j * n)) /\
         (forall idx, (forall j, (i <= j < j')%nat -> idx <> (j + i * p)%nat) ->
                      get La idx = get Lc idx))
      (fun j L => upd (j + i * p) (get wx (i + j * n)) L)
      (p - i) i Lc) as Hin.
    cbv beta in Hin. replace (i + (p - i))%nat with p in Hin by lia.
    destruct Hin as (I1 & I2 & I3).
    + intros j La Hj (A1 & A2 & A3).
      split; [now rewrite length_upd|]. split.
      * intros j0 Hj0. destruct (Nat.eq_dec j0 j) as [->|Hne].
        -- apply get_upd_eq. nia.
        -- rewrite get_upd_neq by lia. apply A2. lia.
      * intros idx Hidx. rewrite get_upd_neq.
        -- apply A3. intros j0 Hj0. apply Hidx. lia.
        -- intros E. apply (Hidx j); [lia|]. now symmetry.
    + split; [exact C1|]. split; [intros j Hj; lia|reflexivity].
    + split; [exact I1|]. split.
      * intros i0 j Hi0 Hj. destruct (Nat.eq_dec i0 i) as [->|Hne].
        -- apply I2. lia.
        -- rewrite I3.
           ++ apply C2; lia.
           ++ intros j0 Hj0 E. apply Hne. nia.
      * intros idx Hidx. rewrite I3.
        -- apply C3. intros i0 j Hi0 Hj. apply Hidx; lia.
        -- intros j Hj. apply Hidx; lia.
  - split; [reflexivity|]. split; [intros i j Hi; lia|reflexivity].
  - split; [exact H1|]. split.
    + intros i j Hij. apply H2; lia.
    + intros idx Hidx. apply H3. intros i j Hi Hj. now apply Hidx.
Qed.

Lemma extract_L_transposes_witness :
  let L' := extract_L 3 2 [1; 2; 3; 4; 5; 6] [0; 0; 7; 0] in
  length L' = length [0; 0; 7; 0] /\
  (forall i j, (i <= j < 2)%nat ->
     get L' (j + i * 2) = get [1; 2; 3; 4; 5; 6] (i + j * 3)) /\
  (forall idx, (forall i j, (i <= j < 2)%nat -> idx <> (j + i * 2)%nat) ->
               get L' idx = get [0; 0; 7; 0] idx).
Proof.
  apply (extract_L_transposes 3 2 [1; 2; 3; 4; 5; 6] [0; 0; 7; 0]).
  simpl. lia.
Defined.

(** X20. The cross-products that [initial_reg] accumulates.  After the
    double loop, cell [i < p] of [xty] has grown by the sum, over the
    observations [j < n] that the subset marks, of
    [w[j] * x[j + i * n] * y[j]]; the other cells are untouched. *)
Theorem accumulate_xty_sums (dat : regdata) (subset : list Z)
    (xty : list R) :
  (dat_p dat <= length xty)%nat ->
  let r := accumulate_xty dat subset xty in
  length r = length xty /\
  (forall i, (i < dat_p dat)%nat ->
     get r i =
     get xty i +
     sum_upto
       (fun j => if negb (Z.eqb (geti subset j) 0)
                 then get (dat_w dat) j * get (dat_x dat) (j + i * dat_n dat)
                      * get (dat_y dat) j
                 else 0)
       (dat_n dat)) /\
  (forall i, (dat_p dat <= i)%nat -> get r i = get xty i).
Proof.
  intros Hlen. cbv zeta. unfold accumulate_xty.
  set (n := dat_n dat). set (p := dat_p dat) in *.
  set (g := fun i j => if negb (Z.eqb (geti subset j) 0)
                       then get (dat_w dat) j * get (dat_x dat) (j + i * n)
                            * get (dat_y dat) j
                       else 0).
  pose proof (for_loop_inv_idx
    (fun i' a =>
       length a = length xty /\
       (forall i, (i < i')%nat -> get a i = get xty i + sum_upto (g i) n) /\
       (forall i, (i' <= i)%nat -> get a i = get xty i))
    (fun i xty =>
       for_loop 0 n
         (fun j xty =>
            if negb (Z.eqb (geti subset j) 0)
            then upd i (get xty i
                        + get (dat_w dat) j * get (dat_x dat) (j + i * n)
                          * get (dat_y dat) j) xty
            else xty)
         xty)
    p 0%nat xty) as H.
  cbv beta in H. cbn [Nat.add] in H.
  destruct H as (H1 & H2 & H3).
  - intros i a Hi (C1 & C2 & C3).
    pose proof (for_loop_inv_idx
      (fun j' b =>
         length b = length xty /\
         get b i = get a i + sum_upto (g i) j' /\
         (forall i0, i0 <> i -> get b i0 = get a i0))
      (fun j xty =>
         if negb (Z.eqb (geti subset j) 0)
         then upd i (get xty i
                     + get (dat_w dat) j * get (dat_x dat) (j + i * n)
                       * get (dat_y dat) j) xty
         else xty)
      n 0%nat a) as Hin.
    cbv beta in Hin. cbn [Nat.add] in Hin.
    destruct Hin as (I1 & I2 & I3).
    + intros j b Hj (A1 & A2 & A3). cbn [sum_upto]. unfold g at 2.
      destruct (negb (Z.eqb (geti subset j) 0)).
      * split; [now rewrite length_upd|]. split.
        -- rewrite get_upd_eq by lia. rewrite A2. ring.
        -- intros i0 Hne. rewrite get_upd_neq by lia. now apply A3.
      * split; [exact A1|]. split; [rewrite A2; ring|exact A3].
    + split; [exact C1|]. split; [cbn [sum_upto]; ring|reflexivity].
    + split; [exact I1|]. split.
      * intros i0 Hi0. destruct (Nat.eq_dec i0 i) as [->|Hne].
        -- rewrite I2, C3 by lia. reflexivity.
        -- rewrite I3 by assumption. apply C2. lia.
      * intros i0 Hi0. rewrite I3 by lia. apply C3. lia.
  - split; [reflexivity|]. split; [intros i Hi; lia|reflexivity].
  - split; [exact H1|]. split; [exact H2|exact H3].
Qed.

Lemma accumulate_xty_sums_witness :
  let r := accumulate_xty dat_4x1 subset_4x1 [0] in
  length r = length [0] /\
  (forall i, (i < dat_p dat_4x1)%nat ->
     get r i =
     get [0] i +
     sum_upto
       (fun j => if negb (Z.eqb (geti subset_4x1 j) 0)
                 then get (dat_w dat_4x1) j
                      * get (dat_x dat_4x1) (j + i * dat_n dat_4x1)
                      * get (dat_y dat_4x1) j
                 else 0)
       (dat_n dat_4x1)) /\
  (forall i, (dat_p dat_4x1 <= i)%nat -> get r i = get [0] i).
Proof.
  apply (accumulate_xty_sums dat_4x1 subset_4x1 [0]). simpl. lia.
Defined.

(** ** The selection of the smallest scores *)

(** X21. What [select_subset] marks.  With a [select_k] that meets what
    its caller relies on, the score array comes back as a rearrangement
    of itself, the cells that are marked 1 are those whose value in the
    rearranged array is at most the [m]-th smallest score (all others
    are marked 0), and at least [m] cells are marked. *)
Theorem select_subset_marks_rearranged {psort : PartialSort} (x : list R)
    (subset : list Z) (m : Z) (n : nat) :
  select_k_contract ->
  length x = n -> length subset = n -> (1 <= m <= Z.of_nat n)%Z ->
  let r := select_subset x subset m n in
  Permutation x (fst r) /\
  length (snd r) = n /\
  (forall i, (i < n)%nat ->
     geti (snd r) i =
     if Rleb (get (fst r) i) (get (isort_by (fun v => v) x) (Z.to_nat (m - 1)))
     then 1%Z else 0%Z) /\
  (m <= cardinality (snd r))%Z.
Proof.
  intros Hc Hx Hs Hm.
  destruct (select_subset_spec x subset m n Hc Hx Hs Hm)
    as (Hperm & Hlen & Hget & _ & Hcard & Hthr).
  cbv zeta in *. rewrite <- Hthr. auto.
Qed.

Lemma select_subset_marks_rearranged_witness :
  let r := select_subset (psort := psort_ref) [3; 1; 2] [0%Z; 0%Z; 0%Z] 2 3 in
  Permutation [3; 1; 2] (fst r) /\
  length (snd r) = 3%nat /\
  (forall i, (i < 3)%nat ->
     geti (snd r) i =
     if Rleb (get (fst r) i)
             (get (isort_by (fun v => v) [3; 1; 2]) (Z.to_nat (2 - 1)))
     then 1%Z else 0%Z) /\
  (2 <= cardinality (snd r))%Z.
Proof.
  apply (select_subset_marks_rearranged (psort := psort_ref) [3; 1; 2]
           [0%Z; 0%Z; 0%Z] 2 3);
    [exact select_k_ref_contract | reflexivity | reflexivity | lia].
Defined.

(** ** The index array as the stack of downdates *)

(** X22. [update_chol_xty] uses [work->iarray] as its stack: when the
    transition takes an observation out of the subset, cell 0 of the
    index array holds, on return, the first observation that it takes
    out, whatever the array held (the sorted indices of [initial_reg],
    for one), and whether the transition succeeds or is rolled back. *)
Theorem update_chol_xty_overwrites_iarray (dat : regdata) (work : workarray)
    (est : estimate) (subset0 subset1 : list Z) (k : nat) :
  (k < dat_n dat)%nat -> (1 <= length (iarray work))%nat ->
  (geti subset1 k < geti subset0 k)%Z ->
  (forall i, (i < k)%nat -> (geti subset0 i <= geti subset1 i)%Z) ->
  geti (iarray (snd (fst (update_chol_xty dat work est subset0 subset1)))) 0
  = Z.of_nat k.
Proof.
  intros Hk Hlen Hlt Hbefore. unfold update_chol_xty.
  set (w1 := set_work_np _ _).
  assert (Hs : geti (ps_stack (first_pass dat w1 est subset0 subset1)) 0
               = Z.of_nat k).
  { unfold first_pass.
    pose proof (for_loop_inv_idx
      (fun i s =>
         length (ps_stack s) = length (iarray work) /\
         ((i <= k)%nat -> ps_n_downdate s = 0%nat) /\
         ((k < i)%nat ->
          (1 <= ps_n_downdate s)%nat /\ geti (ps_stack s) 0 = Z.of_nat k))
      (first_pass_body dat subset0 subset1) (dat_n dat) 0%nat
      (mk_pass (est_L est) (est_xty est) (work_p w1) (iarray w1) 0%Z
               0%nat)) as H.
    cbv beta in H. cbn [Nat.add] in H.
    destruct H as (_ & _ & H).
    - intros i s Hi (A1 & A2 & A3). unfold first_pass_body.
      destruct (Z.gtb_spec (geti subset1 i) (geti subset0 i)).
      + destruct (row_update Rplus dat i (ps_u s, ps_xty s)) as [u1 x1].
        destruct (chol_update (ps_L s) u1 (dat_p dat)) as [L1 u2].
        cbn [ps_stack ps_n_downdate].
        split; [exact A1|]. split.
        * intros Hle. apply A2. lia.
        * intros Hgt. apply A3.
          destruct (Nat.eq_dec i k) as [->|Hne]; lia.
      + destruct (Z.ltb_spec (geti subset1 i) (geti subset0 i)).
        * cbn [ps_stack ps_n_downdate]. rewrite length_upd.
          split; [exact A1|]. split.
          -- intros Hle. specialize (Hbefore i ltac:(lia)). lia.
          -- intros Hgt. split; [lia|].
             destruct (Nat.eq_dec i k) as [->|Hne].
             ++ rewrite A2 by lia. apply geti_upd_eq. lia.
             ++ destruct A3 as [A3 A4]; [lia|].
                rewrite geti_upd_neq by lia. exact A4.
        * split; [exact A1|]. split.
          -- intros Hle. apply A2. lia.
          -- intros Hgt. apply A3.
             destruct (Nat.eq_dec i k) as [->|Hne]; lia.
    - cbn. split; [reflexivity|]. split; [reflexivity|]. intros; lia.
    - apply H. lia. }
  destruct (second_pass dat _) as [s2|[err s2]]; cbn; exact Hs.
Qed.

Lemma update_chol_xty_overwrites_iarray_witness :
  geti (iarray (snd (fst (update_chol_xty dat_4x1 work_4x1 est_4x1
                            subset_4x1 [1%Z; 0%Z; 1%Z; 1%Z])))) 0
  = Z.of_nat 1.
Proof.
  apply (update_chol_xty_overwrites_iarray dat_4x1 work_4x1 est_4x1
           subset_4x1 [1%Z; 0%Z; 1%Z; 1%Z] 1);
    [simpl; lia | simpl; lia | cbn; lia |].
  intros [|i] Hi; [cbn; lia | lia].
Defined.

(** ** The entry point *)

Lemma grow_keeps_maxiter (collect : Z) :
  forall (fuel : nat) (s : state),
    match grow fuel collect s with
    | None => True
    | Some (inl s') => st_maxiter s' = st_maxiter s
    | Some (inr r) => st_maxiter (snd r) = st_maxiter s
    end.
Proof.
  induction fuel as [|fuel IH]; intros s; cbn [grow]; [exact I|].
  set (subset1 := upd _ 1%Z (st_subset1 s)).
  destruct (update_chol_xty (st_dat s) _ _ _ _) as [[err work] est].
  destruct (is_ok err); [reflexivity|].
  destruct (Z.eqb _ _); [reflexivity|].
  specialize (IH (set_est (set_work (set_m (set_subset1 s subset1)
                                           (st_m s + 1)) work) est)).
  destruct (grow fuel collect _) as [[s'|r]|]; auto.
Qed.

Lemma algorithm_4_keeps_maxiter {lapack : Lapack} {psort : PartialSort}
    (collect : Z) :
  forall (fuel : nat) (s : state),
    match algorithm_4 fuel collect s with
    | None => True
    | Some r => st_maxiter (snd r) = st_maxiter s
    end.
Proof.
  induction fuel as [|fuel IH]; intros s; cbn [algorithm_4]; [exact I|].
  destruct (update_chol_xty (st_dat s) _ _ _ _) as [[err work] est].
  set (s1 := set_est (set_work s work) est).
  assert (Hg : match (if is_ok err then Some (inl s1)
                      else grow fuel collect s1) with
               | None => True
               | Some (inl s') => st_maxiter s' = st_maxiter s
               | Some (inr r) => st_maxiter (snd r) = st_maxiter s
               end).
  { destruct (is_ok err); [reflexivity|].
    apply (grow_keeps_maxiter collect fuel s1). }
  destruct (if is_ok err then Some (inl s1) else grow fuel collect s1)
    as [[s2|r]|]; [|exact Hg|exact I].
  assert (Hr : match algorithm_4_rest collect s2 with
               | inl s' => st_maxiter s' = st_maxiter s
               | inr r => st_maxiter (snd r) = st_maxiter s
               end).
  { unfold algorithm_4_rest.
    destruct (compute_ti _ _ _ _ _ _) as [[err' work'] dist].
    destruct (negb (is_ok err')); [exact Hg|].
    destruct (Z.eqb _ _); [exact Hg|].
    destruct (select_subset _ _ _ _) as [dist' subset1']. exact Hg. }
  destruct (algorithm_4_rest collect s2) as [s3|r]; [|exact Hr].
  specialize (IH s3). destruct (algorithm_4 fuel collect s3); [|exact I].
  congruence.
Qed.

(** X23. The success flag and the iteration count of a call.  Whenever
    [wbacon_reg] returns, [*success] is 0 or 1; when it is 1, [*maxiter]
    holds the number of iterations that step 2 took, between 1 and the
    [*maxiter] passed in; when it is 0, [*maxiter] is what was passed
    in. *)
Theorem wbacon_reg_success_maxiter {lapack : Lapack} {rmath : Rmath}
    {psort : PartialSort} {fit : FitDriver}
    (x y w resid beta : list R) (subset0 : list Z) (dist : list R)
    (n p : nat) (m collect : Z) (alpha : R) (maxiter : Z) (sigma0 : R)
    (fuel : nat) :
  match wbacon_reg x y w resid beta subset0 dist n p m collect alpha maxiter
                   sigma0 fuel with
  | None => True
  | Some r =>
      (out_success r = 0%Z \/ out_success r = 1%Z) /\
      (out_success r = 1%Z -> (1 <= out_maxiter r <= maxiter)%Z) /\
      (out_success r = 0%Z -> out_maxiter r = maxiter)
  end.
Proof.
  unfold wbacon_reg.
  assert (H0 : st_maxiter (initial_state x y w resid beta subset0 dist n p m
                                         maxiter sigma0) = maxiter).
  { unfold initial_state.
    destruct (fitwls_est _ _ _ _ _) as [[lw dat] est]. reflexivity. }
  set (s0 := initial_state _ _ _ _ _ _ _ _ _ _ _ _) in *.
  assert (H1 : st_maxiter (snd (initial_reg s0)) = st_maxiter s0).
  { unfold initial_reg.
    destruct (fitwls_est _ _ _ _ _) as [[info d1] e1].
    destruct (if negb (Z.eqb info 0) then _ else _)
      as [[[[d2 k2] e2] sub2] m2].
    destruct (compute_ti _ _ _ _ _ _) as [[err k4] dist4]. reflexivity. }
  destruct (initial_reg s0) as [err s1]. cbn [snd] in H1.
  destruct (negb (is_ok err)).
  { cbn. split; [auto|]. split; [discriminate|]. intros _. congruence. }
  destruct (select_subset _ _ _ _) as [dist' subset1'].
  set (s2 := set_subset1 _ _).
  assert (H2 : st_maxiter s2 = maxiter) by (cbn; congruence).
  pose proof (algorithm_4_keeps_maxiter collect fuel s2) as H3.
  destruct (algorithm_4 fuel collect s2) as [[err4 s3]|]; [|exact I].
  cbn [snd] in H3.
  destruct (negb (is_ok err4)).
  { cbn. split; [auto|]. split; [discriminate|]. intros _. congruence. }
  unfold step_2.
  pose proof (algorithm_5_maxiter alpha (swap_subsets s3)) as [A1 A2].
  destruct (algorithm_5 alpha (swap_subsets s3)) as [err5 s4].
  cbn [fst snd] in A1, A2.
  change (st_maxiter (swap_subsets s3)) with (st_maxiter s3) in A1, A2.
  destruct (is_ok err5) eqn:E5; cbn.
  - assert (err5 = WBACON_ERROR_OK) by (destruct err5; cbn in E5; congruence).
    split; [auto|]. split; [|discriminate].
    intros _. destruct (A1 H) as [A _]. lia.
  - split; [auto|]. split; [discriminate|].
    intros _. rewrite A2 by (now apply is_ok_false). congruence.
Qed.

(** ** The whole call under rescaled weights *)

Lemma result_of_scaled (c : R) (n p : nat) (x y w : list R) (success : Z)
    (X X' : list R) (s s' : state) :
  scaled c n p x y w s s' ->
  same_outputs (result_of success X s) (result_of success X' s').
Proof.
  intros [_ _ _ [Hr [Hb _] Hd _ _ _] H0 _ Hm Hmx].
  unfold same_outputs, result_of; cbn. auto 10.
Qed.

Lemma swap_subsets_scaled (c : R) (n p : nat) (x y w : list R)
    (s s' : state) :
  scaled c n p x y w s s' ->
  scaled c n p x y w (swap_subsets s) (swap_subsets s').
Proof. intros [Hd Hxyw Hk He H0 H1 Hm Hmx]. constructor; cbn; auto. Qed.

Lemma initial_state_scale {fit : FitDriver} (c : R) (n p : nat)
    (x y w resid beta : list R) (subset0 : list Z) (dist : list R)
    (m maxiter : Z) (sigma0 : R) :
  length x = (n * p)%nat -> (length beta <= p)%nat ->
  fit_rescales c n p x y w ->
  scaled c n p x y w
    (initial_state x y w resid beta subset0 dist n p m maxiter sigma0)
    (initial_state x y (scale c w) resid beta subset0 dist n p m maxiter
                   sigma0).
Proof.
  intros Hx Hb Hfit. unfold initial_state.
  set (ws := for_loop 0 n _ _). set (ws' := for_loop 0 n _ _).
  set (dat := mk_regdata n p x y w _ _ ws).
  set (dat' := mk_regdata n p x y (scale c w) _ _ ws').
  set (est := mk_estimate resid beta dist _ _ sigma0).
  assert (Hd : scaled_dat c n p dat dat').
  { constructor; cbn; auto using repeat_length.
    split; [now rewrite scale_repeat_0|apply repeat_length]. }
  assert (He : scaled_est c p est est).
  { constructor; cbn; auto;
      (split; [now rewrite scale_repeat_0|apply repeat_length]). }
  pose proof (Hfit dat dat' est est subset0 (repeat 0 (n * p))
                (repeat 0 (n * p)) (-1)%Z Hd He eq_refl eq_refl eq_refl)
    as (Hret & Hd1 & He1 & Ex1 & Ey1 & Ew1).
  destruct (fitwls_est dat est _ _ _) as [[lw d1] e1].
  destruct (fitwls_est dat' est _ _ _) as [[lw' d1'] e1'].
  cbn [fst snd] in *. subst lw'.
  constructor; cbn; auto.
  constructor; cbn; auto using repeat_length.
  now rewrite scale_repeat_0.
Qed.

(** The two runs of [wbacon_reg], on the weights [w] and on [c * w]. *)
Lemma wbacon_reg_scale {lapack : Lapack} {rmath : Rmath}
    {psort : PartialSort} {fit : FitDriver} (c : R)
    (x y w resid beta : list R) (subset0 : list Z) (dist : list R)
    (n p : nat) (m collect : Z) (alpha : R) (maxiter : Z) (sigma0 : R)
    (fuel : nat) :
  0 < c -> (1 <= n)%nat -> length x = (n * p)%nat ->
  (length beta <= p)%nat ->
  lapack_homogeneous n p -> fit_rescales c n p x y w ->
  rel_option same_outputs
    (wbacon_reg x y w resid beta subset0 dist n p m collect alpha maxiter
                sigma0 fuel)
    (wbacon_reg x y (scale c w) resid beta subset0 dist n p m collect alpha
                maxiter sigma0 fuel).
Proof.
  intros Hc Hn Hx Hb Hlap Hfit. unfold wbacon_reg.
  pose proof (initial_state_scale c n p x y w resid beta subset0 dist m
                maxiter sigma0 Hx Hb Hfit) as Hs0.
  pose proof (initial_reg_scale c n p x y w Hc Hlap Hfit _ _ Hs0) as Hs1.
  destruct (initial_reg (initial_state x y w _ _ _ _ _ _ _ _ _))
    as [err s1].
  destruct (initial_reg (initial_state x y (scale c w) _ _ _ _ _ _ _ _ _))
    as [err' s1'].
  destruct Hs1 as [E Hs1]. cbn [fst snd] in E, Hs1. subst err'.
  destruct (negb (is_ok err)); cbn [rel_option].
  { now apply (result_of_scaled c n p x y w). }
  cbn [st_est set_m st_subset1 st_m].
  pose proof Hs1 as [Hd1 Hxyw1 Hk1 He1 H01 H11 Hm1 Hmx1].
  rewrite (sc_dist _ _ _ _ He1), H11.
  destruct (select_subset _ _ _ n) as [dist2 subset2].
  set (s2 := set_subset1 _ subset2). set (s2' := set_subset1 _ subset2).
  assert (Hs2 : scaled c n p x y w s2 s2').
  { subst s2 s2'. constructor; cbn; auto.
    now apply scaled_est_set_dist. }
  pose proof (algorithm_4_scale c n p x y w Hc Hn Hlap collect fuel s2 s2'
                Hs2) as H4.
  destruct (algorithm_4 fuel collect s2) as [[err4 s3]|],
           (algorithm_4 fuel collect s2') as [[err4' s3']|];
    cbn [rel_option] in H4; try contradiction; [|exact I].
  destruct H4 as [E Hs3]. cbn [fst snd] in E, Hs3. subst err4'.
  destruct (negb (is_ok err4)); cbn [rel_option].
  { now apply (result_of_scaled c n p x y w). }
  unfold step_2.
  pose proof (algorithm_5_scale c n p x y w Hc Hlap Hfit alpha _ _
                (swap_subsets_scaled c n p x y w s3 s3' Hs3)) as H5.
  destruct (algorithm_5 alpha (swap_subsets s3)) as [err5 s4].
  destruct (algorithm_5 alpha (swap_subsets s3')) as [err5' s4'].
  destruct H5 as [E Hs4]. cbn [fst snd] in E, Hs4. subst err5'.
  apply (result_of_scaled c n p x y w).
  now apply swap_subsets_scaled.
Qed.

(** The solver built on [fitwls] meets what the driver asks of it, when
    LAPACK is homogeneous and the rank check decides alike. *)
Lemma fit_subset_rescales {lapack : Lapack} (c : R) (n p : nat)
    (x y w : list R) :
  0 < c -> lapack_homogeneous n p -> rank_agree n p x y w c ->
  fit_rescales (fit := fit_subset) c n p x y w.
Proof.
  intros Hc Hlap Hrank dat dat' est est' subset work work' lw Hd He
         Ex Ey Ew.
  cbv zeta.
  pose proof (rank_agree_ret c n p x y w dat dat' est est' subset work work'
                lw Hrank Hd He Ex Ey Ew) as Hret.
  pose proof (fit_subset_scale c n p dat dat' est est' subset work work' lw
                Hc Hlap Hd He Hret) as (Hd1 & He1 & Ex1 & Ey1 & Ew1).
  split; [exact Hret|]. split; [exact Hd1|]. split; [exact He1|].
  split; [congruence|split; congruence].
Qed.

(** ** A design with one regressor on which the rank check is robust *)

Lemma sqrt_4 : sqrt 4 = 2.
Proof. apply sqrt_lem_1; lra. Qed.

(** The factor that a call of [fitwls] leaves in [wx]. *)
Lemma fitwls_factor {lapack : Lapack} (dat : regdata)
    (weight work : list R) (lw : Z) (beta resid : list R) :
  (0 <= lw)%Z ->
  dat_wx (snd (fst (fitwls dat weight work lw beta resid)))
  = let pm := premultiply (dat_n dat) (dat_p dat) (dat_x dat) (dat_y dat)
                          weight (dat_wy dat) (dat_wx dat) in
    fst (fst (dgels (dat_n dat) (dat_p dat) (snd pm) (fst pm))).
Proof.
  intros Hlw. rewrite fitwls_premultiply. cbn zeta.
  destruct (Z.ltb_spec lw 0); [lia|].
  destruct (premultiply _ _ _ _ _ _ _) as [wy1 wx1]. cbn [fst snd].
  destruct (dgels _ _ wx1 wy1) as [[wx2 wy2] info].
  destruct (rank_check _ _ wx2) as [[]|r]; reflexivity.
Qed.

(** On the design [3; 4] with unit weights, whatever the subset, the
    factor is zero or at least one in absolute value. *)
Lemma fit_2x1_factor (subset : list Z) (wx wy ws work beta resid : list R)
    (lw : Z) :
  length wx = 2%nat -> length wy = 2%nat -> (0 <= lw)%Z ->
  let g := get (dat_wx (snd (fst (fitwls (lapack := lapack_p1)
                  (mk_regdata 2 1 [3; 4] [1; 2] [1; 1] wx wy ws)
                  (effective_weight 2 [1; 1] subset) work lw beta resid)))) 0
  in g = 0 \/ 1 <= fabs g.
Proof.
  intros Hwx Hwy Hlw.
  destruct wx as [|a [|b [|? ?]]]; try discriminate.
  destruct wy as [|a' [|b' [|? ?]]]; try discriminate.
  cbv zeta. rewrite fitwls_factor by exact Hlw.
  unfold premultiply, effective_weight. cbn.
  unfold dgels_p1, fabs. cbn. unfold get; cbn.
  destruct (Z.eqb (geti subset 0) 0), (Z.eqb (geti subset 1) 0);
    rewrite ?sqrt_0, ?sqrt_1.
  all: repeat test_step; cbn.
  all: try destruct (Reqb _ 0); cbn.
  all: sqrt_is 4; sqrt_is 5.
  all: first [left; lra | right; unfold Rabs; destruct (Rcase_abs _); lra].
Qed.

(** So the rank check is not affected by multiplying the weights by 4. *)
Lemma rank_agree_2x1 :
  rank_agree (lapack := lapack_p1) 2 1 [3; 4] [1; 2] [1; 1] 4.
Proof.
  intros subset wx wy wy' ws ws' work work' beta resid lw Hwx Hwy Hwy'.
  destruct (Z.ltb_spec lw 0) as [Hlt|Hge].
  { unfold fitwls. cbn [dat_n dat_p].
    destruct (Z.ltb_spec lw 0); [reflexivity|lia]. }
  set (dat := mk_regdata 2 1 [3; 4] [1; 2] [1; 1] wx wy ws).
  set (dat' := mk_regdata 2 1 _ _ _ _ wy' ws').
  assert (Hd : scaled_dat 4 2 1 dat dat') by (constructor; cbn; auto).
  rewrite effective_weight_scale.
  pose proof (fitwls_scale (lapack := lapack_p1) 4 2 1 dat dat' (effective_weight 2 [1; 1] subset)
                work work' lw beta resid ltac:(lra)
                (lapack_p1_homogeneous 2) Hd) as (Hd1 & _).
  pose proof (fit_2x1_factor subset wx wy ws work beta resid lw Hwx Hwy Hge)
    as Hg.
  cbv zeta in Hg. fold dat in Hg.
  rewrite (fitwls_ret (lapack := lapack_p1) dat _ work lw beta resid Hge).
  rewrite (fitwls_ret (lapack := lapack_p1) dat' _ work' lw beta resid Hge).
  destruct (sc_wx _ _ _ _ _ Hd1) as [Ewx _].
  destruct (sc_n _ _ _ _ _ Hd1) as [En En'].
  destruct (sc_p _ _ _ _ _ Hd1) as [Ep Ep'].
  cbv zeta in Ewx, En, En', Ep, Ep'. cbv zeta.
  set (r := fitwls dat _ work lw beta resid) in *.
  set (r' := fitwls dat' _ work' lw beta resid) in *.
  cbn [dat_n dat_p dat dat'].
  rewrite Ewx.
  pose proof (rank_check_spec 2 1 (dat_wx (snd (fst r)))) as S1.
  pose proof (rank_check_spec 2 1 (scale (sqrt 4) (dat_wx (snd (fst r)))))
    as S2.
  pose proof sqrt_DBL_EPSILON_pos as Hpos.
  pose proof sqrt_DBL_EPSILON_le_1 as Hle1.
  destruct (rank_check 2 1 (dat_wx _)) as [[]|v],
           (rank_check 2 1 (scale _ _)) as [[]|v'].
  - reflexivity.
  - exfalso. destruct S2 as (_ & i & Hi & Hlt).
    specialize (S1 i Hi). rewrite get_scale, sqrt_4 in Hlt.
    unfold fabs in *. rewrite Rabs_mult, (Rabs_right 2) in Hlt by lra.
    pose proof (Rabs_pos (get (dat_wx (snd (fst r))) ((2 + 1) * i))). lra.
  - exfalso. destruct S1 as (_ & i & Hi & Hlt).
    assert (i = 0%nat) by lia. subst i.
    specialize (S2 0%nat Hi). rewrite get_scale, sqrt_4 in S2.
    cbn [Nat.mul Nat.add] in *.
    unfold fabs in *. rewrite Rabs_mult, (Rabs_right 2) in S2 by lra.
    destruct Hg as [Hg|Hg].
    + rewrite Hg, Rabs_R0 in S2. lra.
    + lra.
  - destruct S1 as [-> _], S2 as [-> _]. reflexivity.
Qed.

(** X24. The result of a whole call does not depend on the scale of the
    weights.  Let [c > 0], [n >= 1], [x] hold [n * p] cells and [beta] at
    most [p]; let LAPACK be homogeneous and let the solver call of the
    driver return the same [info] and rescaled structures when the weights
    are multiplied by [c].  Then [wbacon_reg] on the weights [c * w] runs
    out of fuel or returns exactly when it does on [w], and returns the
    same success flag, iteration count, subset, subset size,
    coefficients, residuals and scores. *)
Theorem wbacon_reg_rescaled {lapack : Lapack} {rmath : Rmath}
    {psort : PartialSort} {fit : FitDriver} (c : R)
    (x y w resid beta : list R) (subset0 : list Z) (dist : list R)
    (n p : nat) (m collect : Z) (alpha : R) (maxiter : Z) (sigma0 : R)
    (fuel : nat) :
  0 < c -> (1 <= n)%nat -> length x = (n * p)%nat ->
  (length beta <= p)%nat ->
  lapack_homogeneous n p -> fit_rescales c n p x y w ->
  match wbacon_reg x y w resid beta subset0 dist n p m collect alpha maxiter
                   sigma0 fuel,
        wbacon_reg x y (scale c w) resid beta subset0 dist n p m collect
                   alpha maxiter sigma0 fuel with
  | Some r, Some r' => same_outputs r r'
  | None, None => True
  | _, _ => False
  end.
Proof.
  intros Hc Hn Hx Hb Hlap Hfit.
  exact (wbacon_reg_scale c x y w resid beta subset0 dist n p m collect alpha
           maxiter sigma0 fuel Hc Hn Hx Hb Hlap Hfit).
Qed.

Lemma wbacon_reg_rescaled_witness :
  match wbacon_reg (lapack := lapack_p1) (rmath := rmath_2df)
                   (psort := psort_ref) (fit := @fit_subset lapack_p1)
                   [3; 4] [1; 2] [1; 1] [0; 0] [0] [1; 1]%Z [0; 0] 2 1 2 2
                   (1 / 2) 3 0 3,
        wbacon_reg (lapack := lapack_p1) (rmath := rmath_2df)
                   (psort := psort_ref) (fit := @fit_subset lapack_p1)
                   [3; 4] [1; 2] (scale 4 [1; 1]) [0; 0] [0] [1; 1]%Z [0; 0]
                   2 1 2 2 (1 / 2) 3 0 3 with
  | Some r, Some r' => same_outputs r r'
  | None, None => True
  | _, _ => False
  end.
Proof.
  apply (wbacon_reg_rescaled (lapack := lapack_p1) (rmath := rmath_2df)
           (psort := psort_ref) (fit := @fit_subset lapack_p1) 4);
    [lra | lia | reflexivity | simpl; lia | apply lapack_p1_homogeneous |].
  apply fit_subset_rescales;
    [lra | apply lapack_p1_homogeneous | exact rank_agree_2x1].
Defined.
